(** * remark-html: the tree-to-HTML compilers of [lib/compilers.js]

    A shallow embedding of the visitor table of [lib/compilers.js] and the
    properties of the compilation it performs.  The compilers are state
    passing functions over the per-document context (definition index and
    footnote store); the helpers of [lib/h.js], [lib/util.js], [trim] and
    [detab] are an interface the development is parametric in. *)

From Stdlib Require Import Ascii String.
From stdpp Require Import base option list gmap strings pretty.

Local Open Scope string_scope.

(** ** Strings *)

(** The line feed character and the one-character string ['\n']. *)
Definition LF : ascii := "010"%char.

(** The double quote. *)
Definition QUOTE : ascii := "034"%char.
Definition nl : string := String LF EmptyString.

(** A JavaScript string is truthy unless it is empty. *)
Definition truthy (s : string) : bool :=
  match s with
  | EmptyString => false
  | String _ _ => true
  end.

(** [Array.prototype.join] on an array of strings. *)
Definition join (sep : string) (values : list string) : string :=
  String.concat sep values.

(** [String(n)] for a non-negative integer: its decimal digits. *)
Definition String_of (n : N) : string := pretty n.

(** The upper-case form of a string of ASCII characters: the letters [a]
    to [z] become [A] to [Z], the other characters are left as they
    are. *)
Definition upper_ascii (c : ascii) : ascii :=
  let n := nat_of_ascii c in
  if (97 <=? n)%nat && (n <=? 122)%nat then ascii_of_nat (n - 32) else c.

Fixpoint ascii_upper (s : string) : string :=
  match s with
  | EmptyString => EmptyString
  | String c rest => String (upper_ascii c) (ascii_upper rest)
  end.

(** Every character of the string is an ASCII character. *)
Fixpoint ascii_only (s : string) : bool :=
  match s with
  | EmptyString => true
  | String c rest => (nat_of_ascii c <? 128)%nat && ascii_only rest
  end.

(** [s] ends with [suffix]. *)
Definition ends_with (suffix s : string) : Prop :=
  exists front, s = front +:+ suffix.

(** ** Data model *)

Record Point := mkPoint { line : N; column : N }.
Record Position := mkPosition { start_point : Point; end_point : Point }.

(** A node of the document tree: a JavaScript object of which the
    compilers read the fields below.  A field the object need not have is
    an [option]; [loose] and [ordered] are only tested for truthiness, and
    [value], [identifier], [referenceType], [href], [src] and [link] are
    only used as strings, with [""] for a field left out. *)
#[local] Unset Elimination Schemes.
Inductive Node : Type := mkNode {
  type : string;
  children : option (list Node);
  value : string;
  identifier : string;
  referenceType : string;
  alt : option string;
  href : string;
  src : string;
  title : option string;
  link : string;
  depth : N;
  ordered : bool;
  start : option N;
  loose : bool;
  lang : option string;
  align : list (option string);
  attributes : list (string * string);
  position : option Position
}.
#[local] Set Elimination Schemes.

(** The object literal [{}]. *)
Definition emptyObject : Node :=
  mkNode "" None "" "" "" None "" "" None "" 0 false None false None [] [] None.

(** Object literals are written as [emptyObject] with fields set. *)
Definition set_type (t : string) (n : Node) : Node :=
  mkNode t (children n) (value n) (identifier n) (referenceType n) (alt n)
    (href n) (src n) (title n) (link n) (depth n) (ordered n) (start n)
    (loose n) (lang n) (align n) (attributes n) (position n).

Definition set_children (c : option (list Node)) (n : Node) : Node :=
  mkNode (type n) c (value n) (identifier n) (referenceType n) (alt n)
    (href n) (src n) (title n) (link n) (depth n) (ordered n) (start n)
    (loose n) (lang n) (align n) (attributes n) (position n).

Definition set_value (v : string) (n : Node) : Node :=
  mkNode (type n) (children n) v (identifier n) (referenceType n) (alt n)
    (href n) (src n) (title n) (link n) (depth n) (ordered n) (start n)
    (loose n) (lang n) (align n) (attributes n) (position n).

Definition set_identifier (i : string) (n : Node) : Node :=
  mkNode (type n) (children n) (value n) i (referenceType n) (alt n)
    (href n) (src n) (title n) (link n) (depth n) (ordered n) (start n)
    (loose n) (lang n) (align n) (attributes n) (position n).

Definition set_referenceType (r : string) (n : Node) : Node :=
  mkNode (type n) (children n) (value n) (identifier n) r (alt n)
    (href n) (src n) (title n) (link n) (depth n) (ordered n) (start n)
    (loose n) (lang n) (align n) (attributes n) (position n).

Definition set_alt (a : option string) (n : Node) : Node :=
  mkNode (type n) (children n) (value n) (identifier n) (referenceType n) a
    (href n) (src n) (title n) (link n) (depth n) (ordered n) (start n)
    (loose n) (lang n) (align n) (attributes n) (position n).

Definition set_href (u : string) (n : Node) : Node :=
  mkNode (type n) (children n) (value n) (identifier n) (referenceType n)
    (alt n) u (src n) (title n) (link n) (depth n) (ordered n) (start n)
    (loose n) (lang n) (align n) (attributes n) (position n).

Definition set_title (t : option string) (n : Node) : Node :=
  mkNode (type n) (children n) (value n) (identifier n) (referenceType n)
    (alt n) (href n) (src n) t (link n) (depth n) (ordered n) (start n)
    (loose n) (lang n) (align n) (attributes n) (position n).

Definition set_link (u : string) (n : Node) : Node :=
  mkNode (type n) (children n) (value n) (identifier n) (referenceType n)
    (alt n) (href n) (src n) (title n) u (depth n) (ordered n) (start n)
    (loose n) (lang n) (align n) (attributes n) (position n).

Definition set_loose (b : bool) (n : Node) : Node :=
  mkNode (type n) (children n) (value n) (identifier n) (referenceType n)
    (alt n) (href n) (src n) (title n) (link n) (depth n) (ordered n)
    (start n) b (lang n) (align n) (attributes n) (position n).

Definition set_align (a : list (option string)) (n : Node) : Node :=
  mkNode (type n) (children n) (value n) (identifier n) (referenceType n)
    (alt n) (href n) (src n) (title n) (link n) (depth n) (ordered n)
    (start n) (loose n) (lang n) a (attributes n) (position n).

Definition set_attributes (a : list (string * string)) (n : Node) : Node :=
  mkNode (type n) (children n) (value n) (identifier n) (referenceType n)
    (alt n) (href n) (src n) (title n) (link n) (depth n) (ordered n)
    (start n) (loose n) (lang n) (align n) a (position n).

Definition set_position (p : option Position) (n : Node) : Node :=
  mkNode (type n) (children n) (value n) (identifier n) (referenceType n)
    (alt n) (href n) (src n) (title n) (link n) (depth n) (ordered n)
    (start n) (loose n) (lang n) (align n) (attributes n) p.

(** ** The per-document context and the result of a compiler *)

Record Options := mkOptions { sanitize : bool }.

(** The per-document state the compilers keep on [this]: the definition
    index (an object used as a map from upper-cased identifier to
    definition node) and the footnote store (an array of footnote
    definitions). *)
Record Context := mkContext {
  definitions : gmap string Node;
  footnotes : list Node
}.

(** What a compilation stops on: the Unsupported-Node error of the
    dispatcher, a [TypeError] of the language, the end of the fuel, and a
    node whose kind is the name of a helper of the table ([all],
    [generateFootnotes]): the program calls the helper on it, which is
    given no node and need not return a string, and the development does
    not follow the compilation of such a node. *)
Inductive Error : Type :=
  | UnsupportedNode (kind : string)
  | TypeError
  | OutOfFuel
  | HelperKind (kind : string).

Inductive Result (A : Type) : Type :=
  | Ok (a : A)
  | Err (e : Error).
Arguments Ok {A} a.
Arguments Err {A} e.

(** A compiler reads and updates the context and returns a value or
    throws. *)
Definition M (A : Type) : Type := Context -> Result (A * Context).

Definition ret {A} (a : A) : M A := fun ctx => Ok (a, ctx).

Definition throw {A} (e : Error) : M A := fun _ => Err e.

Definition bind {A B} (m : M A) (k : A -> M B) : M B :=
  fun ctx =>
    match m ctx with
    | Ok (a, ctx') => k a ctx'
    | Err e => Err e
    end.

Definition get : M Context := fun ctx => Ok (ctx, ctx).

Definition put (ctx' : Context) : M unit := fun _ => Ok (tt, ctx').

Notation "x <- m ;; k" := (bind m (fun x => k))
  (at level 100, m at next level, right associativity).

(** [footnotes.push(record)] *)
Definition push_footnote (record : Node) : M unit :=
  ctx <- get;;
  put (mkContext (definitions ctx) (footnotes ctx ++ [record])).

(** ** Collaborators *)

(** The value of an attribute handed to the element builder: a string, a
    number, or [null]/[undefined]. *)
Inductive AttrValue : Type :=
  | AttrString (s : string)
  | AttrNumber (n : N)
  | AttrAbsent.

Definition attr_of_option (o : option string) : AttrValue :=
  match o with
  | Some s => AttrString s
  | None => AttrAbsent
  end.

(** The helpers [lib/compilers.js] requires.  [h opts node name attrs
    content block] is the element builder [h(context, node, name,
    attributes, content, loose)] of [lib/h.js]: [attrs] is the attribute
    object in source order ([[]] when the call has none), [content] is
    [None] for the call without content, [block] is the last argument
    ([false] when left out).  The builder and the encoder are given the
    options of the compiler object, not its definitions or footnotes,
    which only [lib/compilers.js] reads.  [collapse], [trimLines] and
    [normalizeURI] are those of [lib/util.js]; [trim], [trim_left]
    ([trim.left]) and [detab] are the packages of these names.
    [toUpperCase] is [String.prototype.toUpperCase] of the language, which
    follows the case mapping of Unicode; of it the development uses only
    what it does to a string of ASCII characters. *)
Class Collaborators := {
  h : Options -> option Node -> string -> list (string * AttrValue) ->
      option string -> bool -> string;
  encode : Options -> string -> string;
  normalizeURI : string -> string;
  collapse : string -> string;
  trimLines : string -> string;
  trim : string -> string;
  trim_left : string -> string;
  detab : string -> string;
  toUpperCase : string -> string;
  toUpperCase_ascii :
    forall s, ascii_only s = true -> toUpperCase s = ascii_upper s
}.

(** ** Constants *)

(** [FIRST_WORD = /^[^\ \t]+(?=[\ \t]|$)/]: the longest prefix without a
    space or a tab, when it is not empty. *)
Definition is_blank (c : ascii) : bool :=
  (nat_of_ascii c =? 32)%nat || (nat_of_ascii c =? 9)%nat.

Fixpoint first_word_chars (s : string) : string :=
  match s with
  | EmptyString => EmptyString
  | String c rest =>
      if is_blank c then EmptyString else String c (first_word_chars rest)
  end.

Definition FIRST_WORD (s : string) : option string :=
  let word := first_word_chars s in
  if truthy word then Some word else None.

(** ** Arrays written by index *)

(** [arr[index] = v] on an array of strings: an index past the end extends
    the array, leaving holes ([None]) before it. *)
Fixpoint array_set (index : nat) (v : string) (arr : list (option string))
  : list (option string) :=
  match index, arr with
  | O, [] => [Some v]
  | O, _ :: rest => Some v :: rest
  | S i, [] => None :: array_set i v []
  | S i, x :: rest => x :: array_set i v rest
  end.

(** [arr[index]], [undefined] for a hole or past the end. *)
Definition array_get (arr : list (option string)) (index : nat)
  : option string :=
  mjoin (arr !! index).

(** [arr.join(sep)]: a hole is joined as the empty string. *)
Definition array_join (sep : string) (arr : list (option string)) : string :=
  join sep (map (default "") arr).

(** ** Tree traversal of [mdast-util-visit] *)

(** Modelled from the spec: [visit(tree, type, callback)] of the package
    [mdast-util-visit], which is not among the sources: the nodes of the
    given kind in the whole tree, in document order (a node before its
    children, children from first to last); the callbacks of
    [lib/compilers.js] never stop the walk. *)
Fixpoint collect (kind : string) (node : Node) : list Node :=
  (if String.eqb (type node) kind then [node] else []) ++
  match children node with
  | Some nodes => flat_map (collect kind) nodes
  | None => []
  end.

(** ** The compilers *)

(** [this.visit]: compile [node], a child of [parent]. *)
Definition Visit : Type := Node -> Node -> M string.

Section compilers.
Context `{Collaborators}.

(** [this.options], which no compiler assigns. *)
Variable opts : Options.

Section methods.
Variable visit : Visit.

(** The test on [prev] in [all]. *)
Definition after_break (prev : option Node) : bool :=
  match prev with
  | Some p =>
      String.eqb (type p) "break" ||
      (String.eqb (type p) "escape" && String.eqb (value p) nl)
  | None => false
  end.

(** The loop of [all], from the child at [index] on. *)
Fixpoint all_from (parent : Node) (nodes : list Node)
    (prev : option Node) (values : list string) : M (list string) :=
  match nodes with
  | [] => ret values
  | node :: rest =>
      value <- visit node parent;;
      all_from parent rest (Some node)
        (if truthy value
         then values ++ [if after_break prev then trim_left value
                         else value]
         else values)
  end.

(** [all(parent)]: the compiled children of [parent] that are not
    empty. *)
Definition all (parent : Node) : M (list string) :=
  match children parent with
  | Some nodes => all_from parent nodes None []
  | None => throw TypeError
  end.

(** [failsafe(node, definition, context)]; [definition] is [None] for
    the [{}] a reference without definition is given. *)
Definition failsafe (node : Node) (definition : option Node)
  : M string :=
  if String.eqb (referenceType node) "shortcut" &&
     negb (truthy (from_option link "" definition))
  then
    result <-
      match children node with
      | Some _ => values <- all node;; ret (join "" values)
      | None => ret (default "undefined" (alt node))
      end;;
    ret ((if String.eqb (type node) "imageReference" then "!" else "")
         +:+ "[" +:+ result +:+ "]")
  else ret "".

Definition blockquote (node parent : Node) : M string :=
  values <- all node;;
  ret (h opts (Some node) "blockquote" [] (Some (join nl values)) true).

Definition footnoteReference (node : Node) : M string :=
  let identifier := identifier node in
  ret (h opts (Some node) "sup"
         [("id", AttrString ("fnref-" +:+ identifier))]
         (Some (h opts (Some node) "a"
                  [("href", AttrString ("#fn-" +:+ identifier));
                   ("class", AttrString "footnote-ref")]
                  (Some identifier) false))
         false).

(** The second loop of [footnote]: the first of [identifier],
    [identifier + 1], ... whose string is not in [identifiers]; at most
    [fuel] of them are passed over. *)
Fixpoint next_identifier (identifiers : list string) (fuel : nat)
    (identifier : N) : option N :=
  if bool_decide (String_of identifier ∈ identifiers)
  then match fuel with
       | O => None
       | S fuel' => next_identifier identifiers fuel' (identifier + 1)
       end
  else Some identifier.

Definition footnote (node parent : Node) : M string :=
  ctx <- get;;
  let identifiers := map identifier (footnotes ctx) in
  match next_identifier identifiers (length identifiers) 1 with
  | None => throw OutOfFuel
  | Some number =>
      let identifier := String_of number in
      _ <- push_footnote
             (set_position (position node)
                (set_children (children node)
                   (set_identifier identifier
                      (set_type "footnoteDefinition" emptyObject))));;
      footnoteReference
        (set_position (position node)
           (set_identifier identifier
              (set_type "footnoteReference" emptyObject)))
  end.

(** [list]; the name is that of the type of lists here. *)
Definition list_node (node parent : Node) : M string :=
  values <- all node;;
  ret (h opts (Some node) (if ordered node then "ol" else "ul")
         [("start", match start node with
                    | Some 1%N => AttrAbsent
                    | Some n => AttrNumber n
                    | None => AttrAbsent
                    end)]
         (Some (join nl values)) true).

(** The value of [single] in [listItem]: the sole child when the test
    holds. *)
Definition single_of (node parent : Node) : M (option Node) :=
  if loose parent then ret None
  else match children node with
       | None => throw TypeError
       | Some [child] =>
           ret (match children child with
                | Some _ => Some child
                | None => None
                end)
       | Some _ => ret None
       end.

Definition listItem (node parent : Node) : M string :=
  single <- single_of node parent;;
  values <- all (match single with Some child => child | None => node end);;
  ret (h opts (Some node) "li" []
         (Some (join (match single with Some _ => "" | None => nl end)
                  values))
         (negb (bool_decide (is_Some single)))).

Definition heading (node parent : Node) : M string :=
  values <- all node;;
  ret (h opts (Some node) ("h" +:+ String_of (depth node)) []
         (Some (join "" values)) false).

Definition paragraph (node parent : Node) : M string :=
  values <- all node;;
  ret (h opts (Some node) "p" []
         (Some (trim (detab (join "" values)))) false).

Definition code (node parent : Node) : M string :=
  let value :=
    if truthy (value node) then detab (value node +:+ nl) else "" in
  let language :=
    match lang node with
    | Some l => if truthy l then FIRST_WORD l else None
    | None => None
    end in
  ret (h opts (Some node) "pre" []
         (Some (h opts (Some node) "code"
                  [("class", match language with
                             | Some word => AttrString ("language-" +:+ word)
                             | None => AttrAbsent
                             end)]
                  (Some (encode opts value)) false))
         false).

(** The inner loop of [table], [while (pos--)]: the cells of one row,
    from the last column to the first. *)
Fixpoint table_cells (name : string) (align : list (option string))
    (row : option (list Node)) (pos : nat) (out : list (option string))
  : M (list (option string)) :=
  match pos with
  | O => ret out
  | S pos' =>
      match row with
      | None => throw TypeError
      | Some cells =>
          content <-
            match cells !! pos' with
            | Some cell => values <- all cell;; ret (join nl values)
            | None => ret ""
            end;;
          table_cells name align row pos'
            (array_set pos'
               (h opts (cells !! pos') name
                  [("align", attr_of_option (mjoin (align !! pos')))]
                  (Some content) false)
               out)
      end
  end.

(** The outer loop of [table], [while (index--)]: the rows, from the
    last to the first. *)
Fixpoint table_rows (node : Node) (rows : list Node) (index : nat)
    (result : list (option string)) : M (list (option string)) :=
  match index with
  | O => ret result
  | S index' =>
      match rows !! index' with
      | None => throw TypeError
      | Some row =>
          out <- table_cells (if (index' =? 0)%nat then "th" else "td")
                   (align node) (children row) (length (align node)) [];;
          table_rows node rows index'
            (array_set index'
               (h opts (Some row) "tr" [] (Some (array_join nl out)) true)
               result)
      end
  end.

Definition table (node parent : Node) : M string :=
  match children node with
  | None => throw TypeError
  | Some rows =>
      result <- table_rows node rows (length rows) [];;
      ret (h opts (Some node) "table" []
             (Some (h opts (Some node) "thead" [] (array_get result 0) true
                    +:+ nl +:+
                    h opts (Some node) "tbody" []
                      (Some (array_join nl (drop 1 result))) true))
             true)
  end.

Definition html (node parent : Node) : M string :=
  ret (if sanitize opts then encode opts (value node) else value node).

Definition rule (node parent : Node) : M string :=
  ret (h opts (Some node) "hr" [] None false).

Definition inlineCode (node parent : Node) : M string :=
  ret (h opts (Some node) "code" []
         (Some (collapse (encode opts (value node)))) false).

Definition strong (node parent : Node) : M string :=
  values <- all node;;
  ret (h opts (Some node) "strong" [] (Some (join "" values)) false).

Definition emphasis (node parent : Node) : M string :=
  values <- all node;;
  ret (h opts (Some node) "em" [] (Some (join "" values)) false).

Definition hardBreak (node parent : Node) : M string :=
  ret (h opts (Some node) "br" [] None false +:+ nl).

(** [link]; the name is that of the field [link] of a definition
    here. *)
Definition link_node (node parent : Node) : M string :=
  values <- all node;;
  ret (h opts (Some node) "a"
         [("href", AttrString (normalizeURI (href node)));
          ("title", attr_of_option (title node))]
         (Some (join "" values)) false).

(** [self.definitions[node.identifier.toUpperCase()]], [None] when the
    index has no such key (the source goes on with [{}]). *)
Definition resolve (node : Node) : M (option Node) :=
  ctx <- get;;
  ret (definitions ctx !! toUpperCase (identifier node)).

Definition linkReference (node parent : Node) : M string :=
  def <- resolve node;;
  literal <- failsafe node def;;
  if truthy literal then ret literal
  else
    values <- all node;;
    ret (h opts (Some node) "a"
           [("href", AttrString (normalizeURI (from_option link "" def)));
            ("title", attr_of_option (def ≫= title))]
           (Some (join "" values)) false).

Definition imageReference (node parent : Node) : M string :=
  def <- resolve node;;
  literal <- failsafe node def;;
  if truthy literal then ret literal
  else
    ret (h opts (Some node) "img"
           [("src", AttrString (normalizeURI (from_option link "" def)));
            ("alt", AttrString (default "" (alt node)));
            ("title", attr_of_option (def ≫= title))]
           None false).

Definition image (node parent : Node) : M string :=
  ret (h opts (Some node) "img"
         [("src", AttrString (normalizeURI (src node)));
          ("alt", AttrString (default "" (alt node)));
          ("title", attr_of_option (title node))]
         None false).

Definition strikethrough (node parent : Node) : M string :=
  values <- all node;;
  ret (h opts (Some node) "del" [] (Some (join "" values)) false).

Definition text (node parent : Node) : M string :=
  ret (trimLines (encode opts (value node))).

Definition escape (node parent : Node) : M string :=
  if String.eqb (value node) nl then hardBreak node emptyObject
  else text node emptyObject.

Definition ignore (node parent : Node) : M string := ret "".

(** The back reference [generateFootnotes] appends to the children of
    a footnote definition. *)
Definition backref (def : Node) : Node :=
  set_children
    (Some [set_value "↩" (set_type "text" emptyObject)])
    (set_attributes [("class", "footnote-backref")]
       (set_href ("#fnref-" +:+ identifier def)
          (set_type "link" emptyObject))).

(** The list item [generateFootnotes] compiles for a footnote
    definition [def] whose children are [nodes]. *)
Definition footnote_item (def : Node) (nodes : list Node) : Node :=
  set_position (position def)
    (set_children (Some (nodes ++ [backref def])%list)
       (set_attributes [("id", "fn-" +:+ identifier def)]
          (set_type "listItem" emptyObject))).

(** The loop of [generateFootnotes] over the definitions the store
    held when the function was entered. *)
Fixpoint footnote_items (defs : list Node) (results : list string)
  : M (list string) :=
  match defs with
  | [] => ret results
  | def :: rest =>
      match children def with
      | None => throw TypeError
      | Some nodes =>
          item <- listItem (footnote_item def nodes) emptyObject;;
          footnote_items rest (results ++ [item])%list
      end
  end.

Definition generateFootnotes : M string :=
  ctx <- get;;
  match footnotes ctx with
  | [] => ret ""
  | defs =>
      results <- footnote_items defs [];;
      let content :=
        h opts None "hr" [] None false +:+ nl +:+
        h opts None "ol" [] (Some (join nl results)) true in
      ret (h opts None "div" [("class", AttrString "footnotes")]
             (Some content) true +:+ nl)
  end.

(** The definition index [root] builds: every definition of the tree is
    stored under its upper-cased identifier, in document order. *)
Definition index_definitions (defs : list Node) : gmap string Node :=
  foldl (fun index def => <[toUpperCase (identifier def) := def]> index)
    ∅ defs.

Definition root (node parent : Node) : M string :=
  _ <- put (mkContext (index_definitions (collect "definition" node))
              (collect "footnoteDefinition" node));;
  values <- all node;;
  let result := join nl values in
  notes <- generateFootnotes;;
  ret ((if truthy result then result +:+ nl else "") +:+ notes).
End methods.

(** A compiler of the table, given [this.visit]. *)
Definition Compiler : Type := Visit -> Node -> Node -> M string.

(** The entry of a helper: a node of the kind [kind] is not compiled to
    a string by a compiler of its own. *)
Definition helper (kind : string) : Compiler :=
  fun _ _ _ => throw (HelperKind kind).

(** The entries [visitors.<kind> = <function>] for the helpers, the
    ignored nodes and the compilers, in source order; a compiler that
    never calls [this.visit] is not given it. *)
Definition visitor_entries : list (string * Compiler) :=
  [ ("all", helper "all");
    ("generateFootnotes", helper "generateFootnotes");
    ("yaml", fun _ => ignore);
    ("definition", fun _ => ignore);
    ("footnoteDefinition", fun _ => ignore);
    ("footnote", fun _ => footnote);
    ("root", root);
    ("blockquote", blockquote);
    ("list", list_node);
    ("listItem", listItem);
    ("paragraph", paragraph);
    ("heading", heading);
    ("table", table);
    ("code", fun _ => code);
    ("html", fun _ => html);
    ("horizontalRule", fun _ => rule);
    ("inlineCode", fun _ => inlineCode);
    ("strong", strong);
    ("emphasis", emphasis);
    ("break", fun _ => hardBreak);
    ("link", link_node);
    ("image", fun _ => image);
    ("footnoteReference", fun _ node _ => footnoteReference node);
    ("linkReference", linkReference);
    ("imageReference", imageReference);
    ("delete", strikethrough);
    ("text", fun _ => text);
    ("escape", fun _ => escape) ].

Definition visitors : gmap string Compiler := list_to_map visitor_entries.

(** Modelled from the spec: the dispatcher [visit(node, parent)] of the
    compiler object, which is not among the sources: it looks the kind of
    the node up in the table and calls the compiler found; a kind
    without compiler fails with the Unsupported-Node error, which names
    the kind.  [fuel] bounds the depth of the calls. *)
Fixpoint visit (fuel : nat) (node parent : Node) : M string :=
  match fuel with
  | O => throw OutOfFuel
  | S fuel' =>
      match visitors !! type node with
      | Some compiler => compiler (visit fuel') node parent
      | None => throw (UnsupportedNode (type node))
      end
  end.

(** Modelled from the spec: the driver, which is not among the sources:
    it calls the root compiler once on the tree, with a context of its
    own. *)
Definition compile (fuel : nat) (tree : Node) : Result (string * Context) :=
  root (visit fuel) tree emptyObject (mkContext ∅ []).
End compilers.

(** ** A reference implementation of the collaborators

    The statements below hold for every implementation of the
    collaborators.  To run the compilers on a tree, the collaborators are
    given the definitions of this section. *)

Definition is_space (c : ascii) : bool :=
  let n := nat_of_ascii c in
  (n =? 32)%nat || ((9 <=? n)%nat && (n <=? 13)%nat).

Fixpoint drop_while (p : ascii -> bool) (s : string) : string :=
  match s with
  | EmptyString => EmptyString
  | String c rest => if p c then drop_while p rest else s
  end.

(** Modelled from the spec: [trim.left] of the package [trim], which is
    not among the sources: strips the leading whitespace. *)
Definition spec_trim_left (s : string) : string := drop_while is_space s.

(** Modelled from the spec: [trim] of the package [trim], which is not
    among the sources: the full trim, of both ends. *)
Definition spec_trim (s : string) : string :=
  String.rev (drop_while is_space (String.rev (drop_while is_space s))).

(** Modelled from the spec: [util.collapse] of [lib/util.js], which is not
    among the sources: every run of whitespace becomes one space. *)
Fixpoint collapse_go (p : ascii -> bool) (in_run : bool) (s : string)
  : string :=
  match s with
  | EmptyString => EmptyString
  | String c rest =>
      if p c
      then (if in_run then collapse_go p true rest
            else String " "%char (collapse_go p true rest))
      else String c (collapse_go p false rest)
  end.

Definition spec_collapse (s : string) : string := collapse_go is_space false s.

(** Where the scan of [util.trimLines] stands: inside a line, with the
    spaces and tabs read since its last other character; in a run of line
    feeds; in the spaces and tabs after such a run. *)
Inductive TrimState : Type :=
  | InLine (pending : string)
  | InFeeds
  | AfterFeeds.

(** Modelled from the spec: [util.trimLines] of [lib/util.js], which is not
    among the sources: the trim at line boundaries only: a run of line
    feeds, with the spaces and tabs just before and just after it, becomes
    one line feed; the two ends of the value and the whitespace inside a
    line are left as they are. *)
Fixpoint trim_lines_go (state : TrimState) (s : string) : string :=
  match s with
  | EmptyString =>
      match state with
      | InLine pending => pending
      | _ => EmptyString
      end
  | String c rest =>
      if is_blank c
      then match state with
           | InLine pending =>
               trim_lines_go (InLine (pending +:+ String c EmptyString)) rest
           | _ => trim_lines_go AfterFeeds rest
           end
      else if Ascii.eqb c LF
           then match state with
                | InFeeds => trim_lines_go InFeeds rest
                | _ => String LF (trim_lines_go InFeeds rest)
                end
           else match state with
                | InLine pending =>
                    pending +:+ String c (trim_lines_go (InLine "") rest)
                | _ => String c (trim_lines_go (InLine "") rest)
                end
  end.

Definition spec_trimLines (s : string) : string :=
  trim_lines_go (InLine "") s.

(** Modelled from the spec: [detab] of the package [detab], which is not
    among the sources: a tab becomes the spaces up to the next tab stop,
    the stops being four columns apart. *)
Fixpoint detab_go (column : nat) (s : string) : string :=
  match s with
  | EmptyString => EmptyString
  | String c rest =>
      if (nat_of_ascii c =? 9)%nat
      then String.concat "" (replicate (4 - column mod 4) " ")
           +:+ detab_go 0 rest
      else if Ascii.eqb c LF then String c (detab_go 0 rest)
           else String c (detab_go (S column) rest)
  end.

Definition spec_detab (s : string) : string := detab_go 0 s.

(** Modelled from the spec: the encoder of the compiler object, which is
    not among the sources: escapes the characters reserved in text and in
    attribute values. *)
Fixpoint spec_encode (s : string) : string :=
  match s with
  | EmptyString => EmptyString
  | String c rest =>
      (if Ascii.eqb c "&"%char then "&amp;"
       else if Ascii.eqb c "<"%char then "&lt;"
       else if Ascii.eqb c ">"%char then "&gt;"
       else if Ascii.eqb c QUOTE then "&quot;"
       else String c EmptyString) +:+ spec_encode rest
  end.

(** Modelled from the spec: [util.normalizeURI] of [lib/util.js], which is
    not among the sources; the model is right for a URI that needs no
    escaping, which it leaves as it is. *)
Definition spec_normalizeURI (uri : string) : string := uri.

(** One attribute: nothing for an absent or empty value. *)
Definition spec_attribute (attribute : string * AttrValue) : string :=
  let text :=
    match attribute.2 with
    | AttrString s => s
    | AttrNumber n => String_of n
    | AttrAbsent => ""
    end in
  if truthy text
  then " " +:+ attribute.1 +:+ "=" +:+ String QUOTE (spec_encode text)
       +:+ String QUOTE EmptyString
  else "".

(** Modelled from the spec: the element builder [h] of [lib/h.js], which is
    not among the sources: the opening tag with the attributes of the call
    and those the node carries, and, unless the call has no content (the
    void form), the content and the closing tag; under the block flag the
    content stands on lines of its own. *)
Definition spec_h (opts : Options) (node : option Node) (name : string)
    (attrs : list (string * AttrValue)) (content : option string)
    (block : bool) : string :=
  let carried :=
    map (fun a : string * string => (a.1, AttrString a.2))
      (from_option attributes [] node) in
  let opening :=
    "<" +:+ name +:+ String.concat "" (map spec_attribute (attrs ++ carried)%list)
    +:+ ">" in
  match content with
  | None => opening
  | Some inner =>
      opening +:+ (if block then nl else "") +:+ inner +:+
      (if block && truthy inner then nl else "") +:+ "</" +:+ name +:+ ">"
  end.

Definition spec_collaborators : Collaborators :=
  {| h := spec_h;
     encode := fun _ => spec_encode;
     normalizeURI := spec_normalizeURI;
     collapse := spec_collapse;
     trimLines := spec_trimLines;
     trim := spec_trim;
     trim_left := spec_trim_left;
     detab := spec_detab;
     toUpperCase := ascii_upper;
     toUpperCase_ascii := fun _ _ => eq_refl |}.

(** Nodes of the usual kinds. *)
Definition node_of (kind : string) : Node := set_type kind emptyObject.

Definition parent_of (kind : string) (nodes : list Node) : Node :=
  set_children (Some nodes) (node_of kind).

Definition text_of (v : string) : Node := set_value v (node_of "text").


Definition html_of (v : string) : Node := set_value v (node_of "html").

(** A table of two columns whose header row has one cell and whose
    second row has three. *)
Definition sample_header : Node :=
  parent_of "tableRow" [parent_of "tableCell" [text_of "a"]].

Definition sample_row : Node :=
  parent_of "tableRow"
    [parent_of "tableCell" [text_of "b"];
     parent_of "tableCell" [text_of "c"];
     parent_of "tableCell" [text_of "d"]].

Definition sample_table : Node :=
  set_align [Some "left"; None]
    (parent_of "table" [sample_header; sample_row]).

(** The options without [sanitize], and the context of a compiler object
    before its first compilation. *)
Definition plain : Options := mkOptions false.
Definition fresh : Context := mkContext ∅ [].

(** ** The statements of the specification that are compared with the
    compilers *)

(** The result of a run, without the context. *)
Definition output (r : Result (string * Context)) : Result string :=
  match r with
  | Ok (s, _) => Ok s
  | Err e => Err e
  end.



(** A compiled output that is not empty ends with one line feed and no
    more. *)
Definition trailing_newline_claim : Prop :=
  forall (C : Collaborators) opts fuel tree out ctx',
    compile opts fuel tree = Ok (out, ctx') ->
    out <> "" ->
    ends_with nl out /\ ~ ends_with (nl +:+ nl) out.

(** The test of [failsafe]: a shortcut whose definition has no link. *)
Definition literal_reference (node : Node) (def : option Node) : bool :=
  String.eqb (referenceType node) "shortcut" &&
  negb (truthy (from_option link "" def)).

(** A reference is a shortcut with no definition resolving for its
    identifier. *)
Definition unresolved_shortcut (node : Node) (def : option Node) : bool :=
  String.eqb (referenceType node) "shortcut" &&
  bool_decide (def = None :> option Node).

(** A link reference compiles to its literal form when it is a shortcut
    with no definition, and to the anchor of its definition, or the anchor
    with empty target and no title, in every other case. *)
Definition reference_claim : Prop :=
  forall (C : Collaborators) opts fuel node parent ctx out ctx',
    type node = "linkReference" ->
    visit opts (S fuel) node parent ctx = Ok (out, ctx') ->
    let def := definitions ctx !! toUpperCase (identifier node) in
    exists values,
      all (visit opts fuel) node ctx = Ok (values, ctx') /\
      out =
      if unresolved_shortcut node def
      then "[" +:+ join "" values +:+ "]"
      else h opts (Some node) "a"
             [("href", AttrString (normalizeURI (from_option link "" def)));
              ("title", attr_of_option (def ≫= title))]
             (Some (join "" values)) false.

(** The two ways [listItem] renders an item: the children of the sole child
    [child] joined without separator in a list item that is not a block,
    and the children of the item joined by line feeds in a list item that
    is a block. *)
Definition unwrapped_item `{Collaborators} (opts : Options) (V : Visit)
    (node child : Node) : M string :=
  values <- all V child;;
  ret (h opts (Some node) "li" [] (Some (join "" values)) false).

Definition block_item `{Collaborators} (opts : Options) (V : Visit)
    (node : Node) : M string :=
  values <- all V node;;
  ret (h opts (Some node) "li" [] (Some (join nl values)) true).

(** The item is unwrapped if and only if the list is tight, the item has
    one child and that child has a sequence of children that is not
    empty. *)
Definition tight_unwrap_claim : Prop :=
  forall (C : Collaborators) opts V node parent ctx nodes,
    children node = Some nodes ->
    ((loose parent = false /\
      exists child grandchildren,
        nodes = [child] /\ children child = Some grandchildren /\
        grandchildren <> []) ->
     exists child, nodes = [child] /\
       listItem opts V node parent ctx = unwrapped_item opts V node child ctx) /\
    (~ (loose parent = false /\
        exists child grandchildren,
          nodes = [child] /\ children child = Some grandchildren /\
          grandchildren <> []) ->
     listItem opts V node parent ctx = block_item opts V node ctx).

(** A footnote definition whose children are one container node is
    rendered by the unwrapping path of [listItem]. *)
Definition footnote_unwrap_claim : Prop :=
  forall (C : Collaborators) opts V def child grandchildren ctx,
    children def = Some [child] ->
    children child = Some grandchildren ->
    listItem opts V (footnote_item def [child]) emptyObject ctx =
    unwrapped_item opts V (footnote_item def [child]) child ctx.

(** ** The layout of a table, in document order *)

Section layout.
Context `{Collaborators}.
Variable opts : Options.

(** The cell of column [j] of a row whose cells are [cells], holding
    [content]: it carries the alignment of the column, also when the row
    has no cell there. *)
Definition cell_markup (name : string) (align : list (option string))
    (cells : list Node) (j : nat) (content : string) : string :=
  h opts (cells !! j) name
    [("align", attr_of_option (mjoin (align !! j)))] (Some content) false.

(** Row [i] of a table, from the contents of its cells in column order:
    header cells in row 0, data cells in the other rows. *)
Definition row_markup (align : list (option string)) (i : nat) (row : Node)
    (contents : list string) : string :=
  h opts (Some row) "tr" []
    (Some (join nl
             (imap (cell_markup (if (i =? 0)%nat then "th" else "td") align
                      (default [] (children row)))
                contents)))
    true.

(** Row [i], from the row and the contents of its cells. *)
Definition rows_markup (align : list (option string)) (i : nat)
    (row : Node * list string) : string :=
  row_markup align i row.1 row.2.

(** The table whose rows, in document order, are [first] and [others]:
    the first row in the header section, the others in the body section. *)
Definition table_markup (node : Node) (first : string)
    (others : list string) : string :=
  h opts (Some node) "table" []
    (Some (h opts (Some node) "thead" [] (Some first) true +:+ nl +:+
           h opts (Some node) "tbody" [] (Some (join nl others)) true))
    true.
End layout.

(** The contents of the cell at [j] of a row, joined by line feeds: the
    empty string when the row has no cell there. *)
Definition cell_content `{Collaborators} (V : Visit) (cells : list Node)
    (j : nat) : M string :=
  match cells !! j with
  | Some cell => values <- all V cell;; ret (join nl values)
  | None => ret ""
  end.

(** The array [out] of a loop that fills it from its last index down to
    index 0, when the indexes from [pos] on are filled with [filled]: it
    is still empty, or it has holes below [pos]. *)
Definition filled_from (pos : nat) (filled : list string)
    (out : list (option string)) : Prop :=
  (out = [] /\ filled = []) \/
  (out = (replicate pos None ++ map Some filled)%list /\ filled <> []).

(** ** Trees and the footnote store *)

(** No node of the tree under [node], [node] included, is a root. *)
Fixpoint rootless (node : Node) : bool :=
  negb (String.eqb (type node) "root") &&
  match children node with
  | Some nodes => forallb rootless nodes
  | None => true
  end.

(** [record] carries the identifier [footnote] allocates when the store
    holds the identifiers [used]: the string of the smallest positive
    integer whose string is not in [used]. *)
Definition allocated (used : list string) (record : Node) : Prop :=
  exists number : N,
    (0 < number)%N /\
    identifier record = String_of number /\
    (String_of number ∉ used) /\
    forall smaller : N,
      (0 < smaller < number)%N -> String_of smaller ∈ used.

(** The store [store'] is [store] followed by records that were allocated
    one after the other, each for the store before it, and whose children
    hold no root. *)
Inductive extends (store : list Node) : list Node -> Prop :=
  | extends_refl : extends store store
  | extends_push (store' : list Node) (record : Node) :
      extends store store' ->
      allocated (map identifier store') record ->
      forallb rootless (default [] (children record)) = true ->
      extends store (store' ++ [record]).

(** What the compilation of a node that is not a root does to the
    context. *)
Definition grows (ctx ctx' : Context) : Prop :=
  definitions ctx' = definitions ctx /\
  extends (footnotes ctx) (footnotes ctx').

(** A visitor, and a compiler, under which the context only grows on the
    nodes that hold no root. *)
Definition steady (V : Visit) : Prop :=
  forall node parent ctx out ctx',
    rootless node = true ->
    V node parent ctx = Ok (out, ctx') ->
    grows ctx ctx'.

Definition steady_compiler (compiler : Visit -> Visit) : Prop :=
  forall V, steady V -> steady (compiler V).

(** The children of a record of the store hold no root. *)
Definition sound_record (record : Node) : Prop :=
  forallb rootless (default [] (children record)) = true.

(** The store after a compilation holds one record for every inline
    footnote and every footnote definition of the tree, with identifiers
    that differ from one another, the allocated ones being the smallest
    free positive integers. *)
Definition footnote_store_claim : Prop :=
  forall (C : Collaborators) opts fuel tree out ctx',
    compile opts fuel tree = Ok (out, ctx') ->
    length (footnotes ctx') =
    (length (collect "footnote" tree) +
     length (collect "footnoteDefinition" tree))%nat /\
    NoDup (map identifier (footnotes ctx')) /\
    extends (collect "footnoteDefinition" tree) (footnotes ctx').

Definition definition_of (id : string) (nodes : list Node) : Node :=
  set_identifier id (parent_of "footnoteDefinition" nodes).

(** A tree with a footnote definition of identifier 2 and two inline
    footnotes. *)
Definition sample_notes : Node :=
  parent_of "root"
    [parent_of "paragraph"
       [text_of "a"; parent_of "footnote" [text_of "b"];
        parent_of "footnote" [text_of "c"]];
     definition_of "2" [parent_of "paragraph" [text_of "d"]]].

(** ** Trees the compilation succeeds on *)

(** The kinds the table has a compiler for, [root] apart. *)
Definition compiled_kinds : list string :=
  [ "yaml"; "definition"; "footnoteDefinition"; "footnote"; "blockquote";
    "list"; "listItem"; "paragraph"; "heading"; "table"; "code"; "html";
    "horizontalRule"; "inlineCode"; "strong"; "emphasis"; "break"; "link";
    "image"; "footnoteReference"; "linkReference"; "imageReference";
    "delete"; "text"; "escape" ].

(** The kinds whose compiler, or the footnote section for them, reads the
    children of the node. *)
Definition parent_kinds : list string :=
  [ "footnoteDefinition"; "footnote"; "blockquote"; "list"; "listItem";
    "paragraph"; "heading"; "strong"; "emphasis"; "link"; "linkReference";
    "delete" ].

(** A row or a cell of a table is never dispatched on; the pre-pass of
    [root] would store it if it were a footnote definition. *)
Definition table_part (node : Node) : bool :=
  negb (String.eqb (type node) "footnoteDefinition").

(** The sole child of a list item is not a table: [listItem] would
    have the rows of the table dispatched on. *)
Definition item_children (node : Node) : bool :=
  match children node with
  | Some [child] =>
      negb (String.eqb (type node) "listItem" &&
            String.eqb (type child) "table")
  | _ => true
  end.

(** A cell and a row of a table, given the test of the nodes under
    them. *)
Definition valid_cell (test : Node -> bool) (cell : Node) : bool :=
  table_part cell &&
  match children cell with
  | Some nodes => forallb test nodes
  | None => false
  end.

Definition valid_row (test : Node -> bool) (row : Node) : bool :=
  table_part row &&
  match children row with
  | Some cells => forallb (valid_cell test) cells
  | None => false
  end.

(** [node] is structurally valid and of a compiled kind, and so is every
    node under it: a node of a parent kind has children, and a table has
    rows, which have cells, which have children. *)
Fixpoint valid (node : Node) : bool :=
  bool_decide (type node ∈ compiled_kinds) &&
  item_children node &&
  if String.eqb (type node) "table"
  then match children node with
       | Some rows => forallb (valid_row valid) rows
       | None => false
       end
  else match children node with
       | Some nodes => forallb valid nodes
       | None => negb (bool_decide (type node ∈ parent_kinds))
       end.

(** A root whose children are valid. *)
Definition valid_tree (tree : Node) : bool :=
  String.eqb (type tree) "root" &&
  match children tree with
  | Some nodes => forallb valid nodes
  | None => false
  end.

(** The number of nodes on the longest path from [node] down. *)
Fixpoint height (node : Node) : nat :=
  S (match children node with
     | Some nodes => max_list (map height nodes)
     | None => 0
     end).

(** A record of the store whose children can be compiled with the fuel
    [bound]. *)
Definition ready (bound : nat) (record : Node) : Prop :=
  exists nodes,
    children record = Some nodes /\
    forallb valid nodes = true /\
    Forall (fun node => (height node <= bound)%nat) nodes.

(** The computation returns, whatever the context, and adds to the store
    only records that are ready. *)
Definition runs {A} (bound : nat) (m : M A) : Prop :=
  forall ctx,
    exists a ctx' added,
      m ctx = Ok (a, ctx') /\
      footnotes ctx' = (footnotes ctx ++ added)%list /\
      Forall (ready bound) added.

(** The visitor returns on the valid nodes of height [bound] at
    most. *)
Definition succeeds (bound : nat) (V : Visit) : Prop :=
  forall node parent,
    valid node = true -> (height node <= bound)%nat ->
    runs bound (V node parent).

(** What is asked of the compiler of the kind [kind]. *)
Definition total_compiler (kind : string) (compiler : Compiler) : Prop :=
  forall bound V node parent,
    succeeds bound V ->
    type node = kind ->
    valid node = true ->
    (height node <= S bound)%nat ->
    runs (S bound) (compiler V node parent).

(** The kinds of the data model of the specification. *)
Definition documented_kinds : list string :=
  [ "root"; "paragraph"; "heading"; "blockquote"; "list"; "listItem";
    "code"; "table"; "tableRow"; "html"; "rule"; "inlineCode"; "strong";
    "emphasis"; "break"; "link"; "image"; "footnote"; "footnoteReference";
    "linkReference"; "imageReference"; "delete"; "text"; "escape";
    "definition"; "footnoteDefinition"; "yaml" ].

(** Every node of the tree is of a documented kind, and has children when
    its kind is that of a container. *)
Fixpoint documented (node : Node) : bool :=
  bool_decide (type node ∈ documented_kinds) &&
  match children node with
  | Some nodes => forallb documented nodes
  | None =>
      negb (bool_decide
              (type node ∈ "root" :: "table" :: "tableRow" :: parent_kinds))
  end.

(** The compilation of a tree of documented kinds succeeds. *)
Definition dispatch_claim : Prop :=
  forall (C : Collaborators) opts tree,
    documented tree = true ->
    exists fuel out ctx', compile opts fuel tree = Ok (out, ctx').

(** A node the pre-pass of [root] meets under a valid node: a valid node,
    or a row or a cell of a valid table. *)
Definition admissible (node : Node) : Prop :=
  valid node = true \/ valid_row valid node = true \/
  valid_cell valid node = true.

(** A document with a footnote, a rule, a tight list, a table and a
    reference to a definition. *)
Definition sample_document : Node :=
  parent_of "root"
    [parent_of "paragraph"
       [text_of "a"; parent_of "footnote" [text_of "b"]; node_of "break";
        set_identifier "Foo" (parent_of "linkReference" [text_of "c"])];
     node_of "horizontalRule";
     parent_of "list"
       [parent_of "listItem" [parent_of "paragraph" [text_of "d"]]];
     sample_table;
     set_link "http://example.com"
       (set_identifier "foo" (node_of "definition"))].

(** ** Further definitions: the loop of [all] *)

(** The children compiled one after the other, in order. *)
Fixpoint visit_each (V : Visit) (parent : Node) (nodes : list Node)
  : M (list string) :=
  match nodes with
  | [] => ret []
  | node :: rest =>
      value <- V node parent;;
      others <- visit_each V parent rest;;
      ret (value :: others)
  end.

(** What [all] keeps of the compiled values [compiled] of [nodes], when
    the sibling before them is [prev]: the values that are not empty, the
    one whose sibling before it is a break or an escaped line feed being
    trimmed on its left. *)
Fixpoint arrange `{Collaborators} (prev : option Node) (nodes : list Node)
    (compiled : list string) : list string :=
  match nodes, compiled with
  | node :: rest, value :: others =>
      ((if truthy value
        then [if after_break prev then trim_left value else value]
        else []) ++ arrange (Some node) rest others)%list
  | _, _ => []
  end.

(** No character of the string is a space or a tab. *)
Fixpoint no_blank (s : string) : bool :=
  match s with
  | EmptyString => true
  | String c rest => negb (is_blank c) && no_blank rest
  end.

(** The string is empty or starts with a space or a tab. *)
Definition blank_start (s : string) : bool :=
  match s with
  | EmptyString => true
  | String c _ => is_blank c
  end.

(** ** Further definitions: what a compilation keeps *)

(** Whatever the context, the computation returns a value that satisfies
    [Q] in a context related by [I] to the one it started in, or throws an
    error that satisfies [E]. *)
Definition keeps {A} (I : Context -> Context -> Prop) (E : Error -> Prop)
    (Q : A -> Prop) (m : M A) : Prop :=
  forall ctx,
    match m ctx with
    | Ok (a, ctx') => I ctx ctx' /\ Q a
    | Err e => E e
    end.

(** The visitor keeps the relation [I] on the nodes that satisfy [P]. *)
Definition kept (P : Node -> bool) (I : Context -> Context -> Prop)
    (E : Error -> Prop) (V : Visit) : Prop :=
  forall node parent,
    P node = true -> keeps I E (fun _ => True) (V node parent).

(** No node of the tree under [node], [node] included, is an inline
    footnote or a root. *)
Fixpoint footnote_free (node : Node) : bool :=
  negb (String.eqb (type node) "footnote") &&
  negb (String.eqb (type node) "root") &&
  match children node with
  | Some nodes => forallb footnote_free nodes
  | None => true
  end.

(** The error is not an Unsupported-Node error, or it names a kind that
    has no compiler in the table. *)
Definition names_unregistered `{Collaborators} (opts : Options) (e : Error)
  : Prop :=
  match e with
  | UnsupportedNode kind => visitors opts !! kind = None
  | _ => True
  end.

(** ** Further definitions: the order in which a table is compiled *)

(** The contents of the cells of a row at the indexes below [pos],
    compiled from index [pos - 1] down to index 0 and given in column
    order. *)
Fixpoint cells_down `{Collaborators} (V : Visit) (cells : list Node)
    (pos : nat) : M (list string) :=
  match pos with
  | O => ret []
  | S pos' =>
      content <- cell_content V cells pos';;
      before <- cells_down V cells pos';;
      ret (before ++ [content])%list
  end.

(** The rows of a table at the indexes below [index], compiled from index
    [index - 1] down to index 0, the cells of each from the last column to
    the first, and given in document order. *)
Fixpoint rows_down `{Collaborators} (opts : Options) (V : Visit)
    (node : Node) (rows : list Node) (index : nat) : M (list string) :=
  match index with
  | O => ret []
  | S index' =>
      match rows !! index' with
      | None => throw TypeError
      | Some row =>
          contents <-
            match children row, align node with
            | None, _ :: _ => throw TypeError
            | _, _ =>
                cells_down V (default [] (children row))
                  (length (align node))
            end;;
          before <- rows_down opts V node rows index';;
          ret (before ++ [row_markup opts (align node) index' row contents])%list
      end
  end.

(** The strings of the numbers 1, 2, ..., [count]. *)
Definition numerals (count : nat) : list string :=
  (fun i => String_of (N.of_nat (S i))) <$> seq 0 count.

(** ** Further definitions: the contents of the cells of a table *)

(** The contents of the cells of the rows at the indexes below [index]:
    the rows are compiled from index [index - 1] down to index 0, the
    cells of each from the last column of the alignment list to the first,
    and the contents are given row by row in document order, those of a
    row in column order. *)
Fixpoint contents_down `{Collaborators} (V : Visit) (node : Node)
    (rows : list Node) (index : nat) : M (list (list string)) :=
  match index with
  | O => ret []
  | S index' =>
      match rows !! index' with
      | None => throw TypeError
      | Some row =>
          contents <-
            match children row, align node with
            | None, _ :: _ => throw TypeError
            | _, _ =>
                cells_down V (default [] (children row))
                  (length (align node))
            end;;
          before <- contents_down V node rows index';;
          ret (before ++ [contents])%list
      end
  end.

(** ** Further definitions: the items of the footnote section *)

(** The list items of the records [defs], compiled one after the other
    in the order of the records: the item of a record is the list item
    whose children are those of the record followed by the back reference,
    compiled by [listItem] with the empty object as parent. *)
Fixpoint items_each `{Collaborators} (opts : Options) (V : Visit)
    (defs : list Node) : M (list string) :=
  match defs with
  | [] => ret []
  | def :: rest =>
      match children def with
      | None => throw TypeError
      | Some nodes =>
          item <- listItem opts V (footnote_item def nodes) emptyObject;;
          others <- items_each opts V rest;;
          ret (item :: others)
      end
  end.

(** ** Further definitions: the inline footnotes a compilation visits *)

(** The kinds whose compiler compiles the children of its node, all of
    them and in order, and nothing else. *)
Definition wrapper_kinds : list string :=
  [ "blockquote"; "list"; "paragraph"; "heading"; "strong"; "emphasis";
    "link"; "linkReference"; "delete" ].

(** [kind] is one of these kinds. *)
Definition is_wrapper (kind : string) : bool :=
  bool_decide (kind ∈ wrapper_kinds).

(** The kinds whose compiler may have the dispatcher visit a node, or
    stores an inline footnote. *)
Definition visiting_kinds : list string :=
  "footnote" :: "listItem" :: "imageReference" :: "table" :: wrapper_kinds.

Section visited.
Context `{Collaborators}.

(** The definition index of the compilation. *)
Variable index : gmap string Node.

(** The inline footnotes the dispatcher is given, in the order in which
    it is given them, when a node without root under it is compiled as a
    child of a parent whose [loose] is [loose_parent]: an inline footnote
    is visited itself and its children are not; a list item, a table and
    an image reference have the children compiled that [listItem],
    [table] and [failsafe] choose, a table from its last row to its first
    and from the last column of its alignment list to the first; the
    ignored nodes and the nodes without children visit nothing. *)
Fixpoint visited (loose_parent : bool) (node : Node) {struct node}
  : list Node :=
  if String.eqb (type node) "footnote" then [node]
  else
    match children node with
    | None => []
    | Some nodes =>
        let inner := flat_map (visited (loose node)) nodes in
        if is_wrapper (type node) then inner
        else if String.eqb (type node) "listItem" then
          if loose_parent then inner
          else match nodes with
               | [sole] =>
                   match children sole with
                   | Some grandchildren =>
                       flat_map (visited (loose sole)) grandchildren
                   | None => inner
                   end
               | _ => inner
               end
        else if String.eqb (type node) "imageReference" then
          if literal_reference node (index !! toUpperCase (identifier node))
          then inner else []
        else if String.eqb (type node) "table" then
          concat
            (rev
               (map
                  (fun row =>
                     match children row with
                     | Some cells =>
                         concat
                           (rev
                              (take (length (align node))
                                 (map
                                    (fun cell =>
                                       match children cell with
                                       | Some inside =>
                                           flat_map (visited (loose cell))
                                             inside
                                       | None => []
                                       end)
                                    cells)))
                     | None => []
                     end)
                  nodes))
        else []
    end.

(** The inline footnotes visited when the children of [node] are
    compiled by [all]. *)
Definition under (node : Node) : list Node :=
  match children node with
  | Some nodes => flat_map (visited (loose node)) nodes
  | None => []
  end.

(** The inline footnotes visited when the cells of the row [row] of a
    table of [columns] columns are compiled. *)
Definition row_visited (columns : nat) (row : Node) : list Node :=
  match children row with
  | Some cells => concat (rev (take columns (map under cells)))
  | None => []
  end.

(** The inline footnotes visited when the footnote section compiles the
    item of the record [record]: those of the children of the record, the
    item not being loose. *)
Definition noted (record : Node) : list Node :=
  flat_map (visited false) (default [] (children record)).
End visited.

(** The inline footnotes a compilation of [tree] visits, in the order of
    the visits: those under the children of the tree, then those the
    footnote section finds in the records the store holds when the section
    is entered, which are the footnote definitions of the tree followed by
    the records of the footnotes visited before. *)
Definition visited_by_compile `{Collaborators} (tree : Node) : list Node :=
  let index := index_definitions (collect "definition" tree) in
  let body := under index tree in
  (body ++
   flat_map (noted index) (collect "footnoteDefinition" tree ++ body))%list.

(** The records [added] are those of the inline footnotes [notes], one
    for each and in the same order: a record has the children and the
    position of its footnote, and the kind of a footnote definition. *)
Definition carried (added notes : list Node) : Prop :=
  Forall2
    (fun record note =>
       type record = "footnoteDefinition" /\
       children record = children note /\
       position record = position note)
    added notes.

(** What a compilation that visits the inline footnotes [notes] does to
    the context: the definitions are kept, and the store is given the
    records of these footnotes at its end. *)
Definition traces (ctx ctx' : Context) (notes : list Node) : Prop :=
  definitions ctx' = definitions ctx /\
  exists added,
    footnotes ctx' = (footnotes ctx ++ added)%list /\ carried added notes.

(** A visitor that stores the inline footnotes of [visited]. *)
Definition traced `{Collaborators} (V : Visit) : Prop :=
  forall node parent ctx out ctx',
    rootless node = true ->
    V node parent ctx = Ok (out, ctx') ->
    traces ctx ctx' (visited (definitions ctx) (loose parent) node).

(** What is asked of the compiler of the kind [kind]. *)
Definition traced_compiler `{Collaborators} (kind : string)
    (compiler : Compiler) : Prop :=
  forall V node parent ctx out ctx',
    traced V ->
    type node = kind ->
    rootless node = true ->
    compiler V node parent ctx = Ok (out, ctx') ->
    traces ctx ctx' (visited (definitions ctx) (loose parent) node).

(** * Properties *)

(** ** Strings *)

Lemma append_cons (x : ascii) (a b : string) :
  String x a +:+ b = String x (a +:+ b).
Proof. reflexivity. Qed.

Lemma append_assoc (a b c : string) : (a +:+ b) +:+ c = a +:+ (b +:+ c).
Proof.
  induction a as [|x a IH]; [reflexivity|].
  by rewrite !append_cons, IH.
Qed.

Lemma append_empty_r (a : string) : a +:+ "" = a.
Proof.
  induction a as [|x a IH]; [reflexivity|]. by rewrite append_cons, IH.
Qed.

Lemma truthy_false (s : string) : truthy s = false -> s = "".
Proof. by destruct s. Qed.

Lemma truthy_true (s : string) : truthy s = true -> s <> "".
Proof. by destruct s. Qed.

Lemma ends_with_append (suffix a b : string) :
  ends_with suffix b -> ends_with suffix (a +:+ b).
Proof.
  intros [front ->]. exists (a +:+ front). by rewrite append_assoc.
Qed.

(** ** The monad *)

Lemma bind_Ok {A B} (m : M A) (k : A -> M B) ctx b ctx'' :
  bind m k ctx = Ok (b, ctx'') ->
  exists a ctx', m ctx = Ok (a, ctx') /\ k a ctx' = Ok (b, ctx'').
Proof.
  unfold bind. destruct (m ctx) as [[a ctx']|e]; [eauto | discriminate].
Qed.

(** Invert a successful run of a sequence of binds, one step at a time. *)
Tactic Notation "inv_bind" hyp(H) :=
  let a := fresh "a" in
  let c := fresh "ctx" in
  let H1 := fresh "Hm" in
  apply bind_Ok in H as (a & c & H1 & H).

Tactic Notation "inv_bind" hyp(H) "as" ident(a) ident(c) ident(H1) :=
  apply bind_Ok in H as (a & c & H1 & H).

(** Membership in a list of kinds that is written out. *)
Ltac kind_in_list := apply (bool_decide_unpack _); vm_compute; exact I.

Section properties.
Context `{Collaborators}.
Variable opts : Options.

Lemma visit_S fuel node parent :
  visit opts (S fuel) node parent =
  match visitors opts !! type node with
  | Some compiler => compiler (visit opts fuel) node parent
  | None => throw (UnsupportedNode (type node))
  end.
Proof. reflexivity. Qed.

Lemma visit_dispatch kind compiler fuel node parent :
  visitors opts !! kind = Some compiler ->
  type node = kind ->
  visit opts (S fuel) node parent = compiler (visit opts fuel) node parent.
Proof. intros Hc <-. by rewrite visit_S, Hc. Qed.

Lemma visitors_lookup kind compiler :
  visitors opts !! kind = Some compiler -> (kind, compiler) ∈ visitor_entries opts.
Proof. apply elem_of_list_to_map_2. Qed.

End properties.

(** ** Text *)




(** ** The trailing line feed of the output *)

Section trailing.
Context `{Collaborators}.
Variable opts : Options.

Lemma generateFootnotes_ends V ctx out ctx' :
  generateFootnotes opts V ctx = Ok (out, ctx') ->
  out = "" \/ ends_with nl out.
Proof.
  unfold generateFootnotes. intros Hrun.
  inv_bind Hrun. injection Hm as <- <-.
  destruct (footnotes ctx) as [|def defs].
  - injection Hrun as <- <-. by left.
  - inv_bind Hrun. injection Hrun as <- <-.
    right. eexists. reflexivity.
Qed.

(** C6, as the code has it: a compiled output that is not empty ends
    with a line feed. *)
Theorem compile_ends_with_newline :
  forall fuel tree out ctx',
    compile opts fuel tree = Ok (out, ctx') ->
    out <> "" ->
    ends_with nl out.
Proof.
  intros fuel tree out ctx' Hrun Hout.
  unfold compile, root in Hrun.
  inv_bind Hrun. inv_bind Hrun. inv_bind Hrun.
  injection Hrun as <- <-.
  apply generateFootnotes_ends in Hm1 as [-> | Hends].
  - rewrite append_empty_r in *.
    destruct (truthy (join nl a0)); [|done].
    eexists. reflexivity.
  - by apply ends_with_append.
Qed.
End trailing.

Lemma compile_ends_with_newline_witness :
  ends_with nl ("<p>foo</p>" +:+ nl).
Proof.
  apply (@compile_ends_with_newline spec_collaborators plain 3
           (parent_of "root" [parent_of "paragraph" [text_of "foo"]])
           ("<p>foo</p>" +:+ nl) fresh).
  - vm_compute. reflexivity.
  - vm_compute. discriminate.
Defined.

(** C6, as stated, fails on a root whose only child is a literal HTML node
    with the value [x] and a line feed: the output ends with two line
    feeds. *)
Lemma trailing_newline_claim_fails : ~ trailing_newline_claim.
Proof.
  intros Hclaim.
  destruct (Hclaim spec_collaborators plain 2%nat
              (parent_of "root" [html_of ("x" +:+ nl)])
              ("x" +:+ nl +:+ nl) fresh
              eq_refl) as [_ Hends]; [vm_compute; discriminate|].
  apply Hends. by exists "x".
Qed.

(** ** The definition index *)

Lemma index_definitions_snoc `{Collaborators} defs def :
  index_definitions (defs ++ [def]) =
  <[toUpperCase (identifier def) := def]> (index_definitions defs).
Proof. unfold index_definitions. by rewrite foldl_app. Qed.

Lemma index_definitions_lookup `{Collaborators} (defs : list Node)
    (key : string) :
  index_definitions defs !! key =
  last (filter (fun def => toUpperCase (identifier def) = key) defs).
Proof.
  induction defs as [|def defs IH] using rev_ind; [reflexivity|].
  rewrite index_definitions_snoc, filter_app, lookup_insert.
  case_decide as Hkey.
  - rewrite filter_cons_True, filter_nil by done. by rewrite last_snoc.
  - rewrite filter_cons_False, filter_nil by done. by rewrite app_nil_r.
Qed.

(** ** References *)

Section references.
Context `{Collaborators}.
Variable opts : Options.

Lemma failsafe_literal V node def ctx :
  literal_reference node def = true ->
  failsafe V node def ctx =
  (label <- match children node with
            | Some _ => values <- all V node;; ret (join "" values)
            | None => ret (default "undefined" (alt node))
            end;;
   ret ((if String.eqb (type node) "imageReference" then "!" else "")
        +:+ "[" +:+ label +:+ "]")) ctx.
Proof.
  unfold failsafe, literal_reference. by intros ->.
Qed.

Lemma failsafe_element V node def ctx :
  literal_reference node def = false ->
  failsafe V node def ctx = Ok ("", ctx).
Proof.
  unfold failsafe, literal_reference. by intros ->.
Qed.

(** What [failsafe] makes of a reference: a link or image reference
    compiles to the literal bracketed form when it is a shortcut and the
    definition found for its identifier has no link, be it that no
    definition is found or that the one found has an empty link; in every
    other case it compiles to the anchor or image built from the link and
    the title of the definition found, the link of a missing definition
    being empty and its title absent. *)
Lemma reference_compiled :
  forall fuel node parent ctx,
    let def := definitions ctx !! toUpperCase (identifier node) in
    (type node = "linkReference" ->
     visit opts (S fuel) node parent ctx =
     if literal_reference node def
     then (label <- match children node with
                    | Some _ =>
                        values <- all (visit opts fuel) node;;
                        ret (join "" values)
                    | None => ret (default "undefined" (alt node))
                    end;;
           ret ("[" +:+ label +:+ "]")) ctx
     else (values <- all (visit opts fuel) node;;
           ret (h opts (Some node) "a"
                  [("href",
                    AttrString (normalizeURI (from_option link "" def)));
                   ("title", attr_of_option (def ≫= title))]
                  (Some (join "" values)) false)) ctx) /\
    (type node = "imageReference" ->
     visit opts (S fuel) node parent ctx =
     if literal_reference node def
     then (label <- match children node with
                    | Some _ =>
                        values <- all (visit opts fuel) node;;
                        ret (join "" values)
                    | None => ret (default "undefined" (alt node))
                    end;;
           ret ("![" +:+ label +:+ "]")) ctx
     else Ok (h opts (Some node) "img"
                [("src",
                  AttrString (normalizeURI (from_option link "" def)));
                 ("alt", AttrString (default "" (alt node)));
                 ("title", attr_of_option (def ≫= title))]
                None false, ctx)).
Proof.
  intros fuel node parent ctx def. split; intros Htype.
  - rewrite (visit_dispatch opts "linkReference" (linkReference opts)) by done.
    unfold linkReference, resolve, bind at 1 2, get, ret at 1. fold def.
    unfold bind at 1.
    destruct (literal_reference node def) eqn:Hlit.
    + rewrite failsafe_literal by done. rewrite Htype. unfold bind.
      destruct (children node) as [nodes|]; [|reflexivity].
      destruct (all (visit opts fuel) node ctx) as [[values ctx1]|e];
        reflexivity.
    + rewrite failsafe_element by done. reflexivity.
  - rewrite (visit_dispatch opts "imageReference" (imageReference opts))
      by done.
    unfold imageReference, resolve, bind at 1 2, get, ret at 1. fold def.
    unfold bind at 1.
    destruct (literal_reference node def) eqn:Hlit.
    + rewrite failsafe_literal by done. rewrite Htype. unfold bind.
      destruct (children node) as [nodes|]; [|reflexivity].
      destruct (all (visit opts fuel) node ctx) as [[values ctx1]|e];
        reflexivity.
    + rewrite failsafe_element by done. reflexivity.
Qed.
End references.

Lemma reference_compiled_witness :
  @visit spec_collaborators plain 2
    (set_referenceType "shortcut"
       (set_identifier "x" (parent_of "linkReference" [text_of "x"])))
    emptyObject fresh =
  Ok ("[x]", fresh).
Proof.
  rewrite (proj1 (@reference_compiled spec_collaborators plain 1
                    (set_referenceType "shortcut"
                       (set_identifier "x"
                          (parent_of "linkReference" [text_of "x"])))
                    emptyObject fresh)
             eq_refl).
  reflexivity.
Defined.

(** The statement of the specification on references does not hold of
    [failsafe]: a shortcut reference whose definition is found and has an
    empty link compiles to the literal form, not to the anchor of the
    definition. *)
Lemma reference_claim_fails : ~ reference_claim.
Proof.
  intros Hclaim.
  destruct (Hclaim spec_collaborators plain 1%nat
              (set_referenceType "shortcut"
                 (set_identifier "x"
                    (parent_of "linkReference" [text_of "x"])))
              emptyObject
              (mkContext
                 (@index_definitions spec_collaborators
                    [set_title (Some "t")
                       (set_identifier "x" (node_of "definition"))])
                 [])
              "[x]"
              (mkContext
                 (@index_definitions spec_collaborators
                    [set_title (Some "t")
                       (set_identifier "x" (node_of "definition"))])
                 [])
              eq_refl eq_refl) as (values & Hall & Hout).
  vm_compute in Hall. injection Hall as <-.
  vm_compute in Hout. discriminate Hout.
Qed.

(** C7, the code at the failing input: in a document that has a
    definition of [x] with a title and an empty link, the shortcut
    reference [x] resolves to that definition, and is compiled to the
    literal form [[x]] all the same, not to the anchor of the
    definition: [failsafe] tests the link of the definition, not whether
    there is one. *)
Theorem shortcut_with_linkless_definition :
  let def := set_title (Some "t") (set_identifier "x" (node_of "definition")) in
  let reference :=
    set_referenceType "shortcut"
      (set_identifier "x" (parent_of "linkReference" [text_of "x"])) in
  let tree := parent_of "root" [parent_of "paragraph" [reference]; def] in
  @resolve spec_collaborators reference
    (mkContext (@index_definitions spec_collaborators
                  (collect "definition" tree)) []) =
  Ok (Some def,
      mkContext (@index_definitions spec_collaborators
                   (collect "definition" tree)) []) /\
  output (@compile spec_collaborators plain 4 tree) =
  Ok ("<p>[x]</p>" +:+ nl).
Proof. split; reflexivity. Qed.

(** ** List items *)

Section list_items.
Context `{Collaborators}.
Variable opts : Options.

Lemma listItem_single V node parent child ctx :
  single_of node parent ctx = Ok (Some child, ctx) ->
  listItem opts V node parent ctx = unwrapped_item opts V node child ctx.
Proof.
  intros Hsingle. unfold listItem, unwrapped_item, bind at 1.
  by rewrite Hsingle.
Qed.

Lemma listItem_block V node parent ctx :
  single_of node parent ctx = Ok (None, ctx) ->
  listItem opts V node parent ctx = block_item opts V node ctx.
Proof.
  intros Hsingle. unfold listItem, block_item, bind at 1.
  by rewrite Hsingle.
Qed.

(** C4, as the code has it: the item is unwrapped if and only if the
    list is tight, the item has one child and that child has a sequence
    of children, empty or not: then the children of the sole child are
    joined without separator in a list item that is not a block;
    otherwise the children of the item are joined by line feeds in a
    list item that is a block. *)
Theorem listItem_compiled :
  forall V node parent ctx nodes,
    children node = Some nodes ->
    (forall child grandchildren,
        loose parent = false ->
        nodes = [child] ->
        children child = Some grandchildren ->
        listItem opts V node parent ctx = unwrapped_item opts V node child ctx) /\
    (~ (loose parent = false /\
        exists child grandchildren,
          nodes = [child] /\ children child = Some grandchildren) ->
     listItem opts V node parent ctx = block_item opts V node ctx).
Proof.
  intros V node parent ctx nodes Hnodes. split.
  - intros child grandchildren Hloose -> Hchild.
    apply listItem_single. unfold single_of.
    by rewrite Hloose, Hnodes, Hchild.
  - intros Hnot. apply listItem_block. unfold single_of.
    destruct (loose parent) eqn:Hloose; [reflexivity|].
    rewrite Hnodes.
    destruct nodes as [|child [|second rest]]; try reflexivity.
    destruct (children child) as [grandchildren|] eqn:Hchild;
      [|reflexivity].
    exfalso. apply Hnot. eauto.
Qed.

Lemma footnote_item_block V def nodes ctx :
  nodes <> [] ->
  listItem opts V (footnote_item def nodes) emptyObject ctx =
  block_item opts V (footnote_item def nodes) ctx.
Proof.
  intros Hnodes. apply listItem_block.
  destruct nodes as [|first [|second rest]]; [done|reflexivity..].
Qed.

Lemma footnote_items_cons V def rest results ctx nodes :
  children def = Some nodes ->
  footnote_items opts V (def :: rest) results ctx =
  match listItem opts V (footnote_item def nodes) emptyObject ctx with
  | Ok (item, ctx') => footnote_items opts V rest (results ++ [item])%list ctx'
  | Err e => Err e
  end.
Proof. intros Hnodes. simpl. by rewrite Hnodes. Qed.

(** C10, as the code has it: the footnote section compiles, for each
    definition of the store, a list item whose parent is the empty
    object and whose children are the children of the definition
    followed by the back reference: when the definition has a child, the
    item has two children or more and is rendered as a block, its
    children joined by line feeds; the item is unwrapped only when the
    definition has no child, the sole child of the item being the back
    reference. *)
Theorem footnote_item_compiled :
  forall V def rest results ctx nodes,
    children def = Some nodes ->
    (nodes <> [] ->
     footnote_items opts V (def :: rest) results ctx =
     (item <- block_item opts V (footnote_item def nodes);;
      footnote_items opts V rest (results ++ [item])%list) ctx) /\
    (nodes = [] ->
     footnote_items opts V (def :: rest) results ctx =
     (item <- unwrapped_item opts V (footnote_item def nodes) (backref def);;
      footnote_items opts V rest (results ++ [item])%list) ctx).
Proof.
  intros V def rest results ctx nodes Hnodes.
  rewrite (footnote_items_cons _ _ _ _ _ nodes Hnodes). split.
  - intros Hne. by rewrite footnote_item_block.
  - intros ->. by rewrite (listItem_single _ _ _ (backref def)).
Qed.
End list_items.

Lemma listItem_compiled_witness :
  @listItem spec_collaborators plain (@visit spec_collaborators plain 2)
    (parent_of "listItem" [parent_of "paragraph" [text_of "foo"]])
    (set_loose false (parent_of "list" []))
    fresh =
  Ok ("<li>foo</li>", fresh).
Proof.
  rewrite (proj1 (@listItem_compiled spec_collaborators plain
                    (@visit spec_collaborators plain 2)
                    (parent_of "listItem"
                       [parent_of "paragraph" [text_of "foo"]])
                    (set_loose false (parent_of "list" []))
                    fresh
                    [parent_of "paragraph" [text_of "foo"]] eq_refl)
             (parent_of "paragraph" [text_of "foo"]) [text_of "foo"]
             eq_refl eq_refl eq_refl).
  reflexivity.
Defined.

(** C4, as stated, fails on an item of a tight list whose sole child is a
    paragraph without children: the item is unwrapped, not rendered as a
    block around the paragraph. *)
Lemma tight_unwrap_claim_fails : ~ tight_unwrap_claim.
Proof.
  intros Hclaim.
  destruct (Hclaim spec_collaborators plain (@visit spec_collaborators plain 2)
              (parent_of "listItem" [parent_of "paragraph" []])
              emptyObject fresh
              [parent_of "paragraph" []] eq_refl) as [_ Hblock].
  assert (Hcond : ~ (loose emptyObject = false /\
                     exists (child : Node) (grandchildren : list Node),
                       [parent_of "paragraph" []] = [child] /\
                       children child = Some grandchildren /\
                       grandchildren <> [])).
  { intros (_ & child & grandchildren & [= <-] & [= <-] & Hne). by apply Hne. }
  specialize (Hblock Hcond). vm_compute in Hblock. discriminate Hblock.
Qed.

Lemma footnote_item_compiled_witness :
  @footnote_items spec_collaborators plain (@visit spec_collaborators plain 2)
    [set_children (Some [parent_of "paragraph" [text_of "x"]])
       (set_identifier "a" (node_of "footnoteDefinition"))]
    [] fresh =
  (item <- @block_item spec_collaborators plain (@visit spec_collaborators plain 2)
             (footnote_item
                (set_children (Some [parent_of "paragraph" [text_of "x"]])
                   (set_identifier "a" (node_of "footnoteDefinition")))
                [parent_of "paragraph" [text_of "x"]]);;
   ret [item]) fresh.
Proof.
  apply (@footnote_item_compiled spec_collaborators plain
           (@visit spec_collaborators plain 2)
           (set_children (Some [parent_of "paragraph" [text_of "x"]])
              (set_identifier "a" (node_of "footnoteDefinition")))
           [] [] fresh
           [parent_of "paragraph" [text_of "x"]] eq_refl).
  discriminate.
Defined.

(** C10, as stated, fails on a footnote definition whose children are one
    paragraph: its item is rendered as a block holding the paragraph and
    the back reference, not unwrapped. *)
Lemma footnote_unwrap_claim_fails : ~ footnote_unwrap_claim.
Proof.
  intros Hclaim.
  specialize (Hclaim spec_collaborators plain (@visit spec_collaborators plain 2)
                (set_children (Some [parent_of "paragraph" [text_of "x"]])
                   (set_identifier "a" (node_of "footnoteDefinition")))
                (parent_of "paragraph" [text_of "x"]) [text_of "x"]
                fresh eq_refl eq_refl).
  vm_compute in Hclaim. discriminate Hclaim.
Qed.

(** ** Tables *)

Lemma array_set_empty (pos : nat) (v : string) :
  array_set pos v [] = (replicate pos None ++ [Some v])%list.
Proof. induction pos as [|pos IH]; simpl; [reflexivity | by rewrite IH]. Qed.

Lemma array_set_hole (pos : nat) (v : string) x (rest : list (option string)) :
  array_set pos v (replicate pos None ++ x :: rest) =
  (replicate pos None ++ Some v :: rest)%list.
Proof. induction pos as [|pos IH]; simpl; [reflexivity | by rewrite IH]. Qed.

Lemma filled_from_set (pos : nat) (v : string) filled out :
  filled_from (S pos) filled out ->
  filled_from pos (v :: filled) (array_set pos v out).
Proof.
  intros [[-> ->] | [-> Hne]]; right; split; try done.
  - apply array_set_empty.
  - rewrite replicate_S_end, <- app_assoc. apply array_set_hole.
Qed.

Lemma filled_from_0 filled out :
  filled_from 0 filled out -> out = map Some filled.
Proof. by intros [[-> ->] | [-> _]]. Qed.

Lemma filled_from_nil pos : filled_from pos [] [].
Proof. by left. Qed.

Lemma array_join_filled sep (values : list string) :
  array_join sep (map Some values) = join sep values.
Proof.
  unfold array_join. f_equal. induction values as [|v values IH];
    simpl; [reflexivity | by rewrite IH].
Qed.

Section tables.
Context `{Collaborators}.
Variable opts : Options.
Variable V : Visit.

Lemma table_cells_S name align cells pos out ctx :
  table_cells opts V name align (Some cells) (S pos) out ctx =
  (content <- cell_content V cells pos;;
   table_cells opts V name align (Some cells) pos
     (array_set pos (cell_markup opts name align cells pos content) out)) ctx.
Proof. reflexivity. Qed.

Lemma cell_content_missing cells j ctx content ctx' :
  cell_content V cells j ctx = Ok (content, ctx') ->
  cells !! j = None -> content = "".
Proof.
  unfold cell_content. intros Hrun Hnone. rewrite Hnone in Hrun.
  by injection Hrun as <- <-.
Qed.

Lemma table_rows_S node rows index result ctx row :
  rows !! index = Some row ->
  table_rows opts V node rows (S index) result ctx =
  (out <- table_cells opts V (if (index =? 0)%nat then "th" else "td")
            (align node) (children row) (length (align node)) [];;
   table_rows opts V node rows index
     (array_set index
        (h opts (Some row) "tr" [] (Some (array_join nl out)) true)
        result)) ctx.
Proof. intros Hrow. simpl. by rewrite Hrow. Qed.

Lemma cells_down_length cells pos :
  forall ctx contents ctx',
    cells_down V cells pos ctx = Ok (contents, ctx') ->
    length contents = pos.
Proof.
  induction pos as [|pos IH]; intros ctx contents ctx' Hrun; simpl in Hrun.
  - by injection Hrun as <- <-.
  - inv_bind Hrun as content ctx1 Hcontent.
    inv_bind Hrun as before ctx2 Hbefore. injection Hrun as <- <-.
    apply IH in Hbefore. rewrite length_app. simpl. lia.
Qed.

Lemma table_cells_down name align cells pos :
  forall out filled ctx,
    filled_from pos filled out ->
    table_cells opts V name align (Some cells) pos out ctx =
    (contents <- cells_down V cells pos;;
     ret (map Some
            (imap (cell_markup opts name align cells) contents ++ filled)%list))
      ctx.
Proof.
  induction pos as [|pos IH]; intros out filled ctx Hout.
  - unfold bind. simpl. by rewrite (filled_from_0 _ _ Hout).
  - rewrite table_cells_S. simpl. unfold bind at 1 2 3.
    destruct (cell_content V cells pos ctx) as [[content ctx1]|e];
      [|reflexivity].
    rewrite (IH _ (cell_markup opts name align cells pos content :: filled))
      by (by apply filled_from_set).
    unfold bind.
    destruct (cells_down V cells pos ctx1) as [[before ctx2]|e] eqn:Hbefore;
      [|reflexivity].
    apply cells_down_length in Hbefore. simpl.
    rewrite imap_app. simpl. rewrite Hbefore, Nat.add_0_r.
    by rewrite <- app_assoc.
Qed.

Lemma table_cells_from_empty name align cells pos ctx :
  table_cells opts V name align (Some cells) pos [] ctx =
  (contents <- cells_down V cells pos;;
   ret (map Some (imap (cell_markup opts name align cells) contents))) ctx.
Proof.
  rewrite (table_cells_down _ _ _ _ [] [] ctx (filled_from_nil _)).
  unfold bind. destruct (cells_down V cells pos ctx)
    as [[contents ctx1]|e]; [|reflexivity].
  by rewrite app_nil_r.
Qed.

Lemma rows_down_length node rows index :
  forall ctx markups ctx',
    rows_down opts V node rows index ctx = Ok (markups, ctx') ->
    length markups = index.
Proof.
  induction index as [|index IH]; intros ctx markups ctx' Hrun;
    simpl in Hrun.
  - by injection Hrun as <- <-.
  - destruct (rows !! index) as [row|]; [|discriminate].
    inv_bind Hrun as contents ctx1 Hcontents.
    inv_bind Hrun as before ctx2 Hbefore. injection Hrun as <- <-.
    apply IH in Hbefore. rewrite length_app. simpl. lia.
Qed.

Lemma table_row_cells name align row ctx :
  table_cells opts V name align row (length align) [] ctx =
  (contents <- match row, align with
               | None, _ :: _ => throw TypeError
               | _, _ => cells_down V (default [] row) (length align)
               end;;
   ret (map Some
          (imap (cell_markup opts name align (default [] row)) contents)))
    ctx.
Proof.
  destruct row as [cells|]; [apply table_cells_from_empty|].
  by destruct align.
Qed.

Lemma table_rows_down node rows index :
  forall result filled ctx,
    filled_from index filled result ->
    table_rows opts V node rows index result ctx =
    (markups <- rows_down opts V node rows index;;
     ret (map Some (markups ++ filled)%list)) ctx.
Proof.
  induction index as [|index IH]; intros result filled ctx Hresult.
  - unfold bind. simpl. by rewrite (filled_from_0 _ _ Hresult).
  - simpl. destruct (rows !! index) as [row|] eqn:Hrow; [|reflexivity].
    unfold bind at 1 2 3. rewrite table_row_cells. unfold bind at 1.
    destruct (match children row, align node with
              | None, _ :: _ => throw TypeError
              | _, _ => cells_down V (default [] (children row))
                          (length (align node))
              end ctx) as [[contents ctx1]|e]; [|reflexivity].
    simpl. rewrite array_join_filled.
    rewrite (IH _ (row_markup opts (align node) index row contents :: filled))
      by (by apply filled_from_set).
    unfold bind.
    destruct (rows_down opts V node rows index ctx1) as [[before ctx2]|e];
      [|reflexivity].
    simpl. by rewrite <- app_assoc.
Qed.

(** The contents [cells_down] gives: the content of the cell at each
    index, which is empty where the row has no cell. *)
Lemma cells_down_contents cells pos :
  forall ctx contents ctx',
    cells_down V cells pos ctx = Ok (contents, ctx') ->
    (forall j, cells !! j = None -> (j < pos)%nat ->
               contents !! j = Some "") /\
    (forall j content,
        contents !! j = Some content ->
        exists before after,
          cell_content V cells j before = Ok (content, after)).
Proof.
  induction pos as [|pos IH]; intros ctx contents ctx' Hrun; simpl in Hrun.
  - injection Hrun as <- <-. split; [intros j _ Hj; lia|].
    intros j content Hj. by rewrite lookup_nil in Hj.
  - inv_bind Hrun as content ctx1 Hcontent.
    inv_bind Hrun as before ctx2 Hbefore. injection Hrun as <- <-.
    pose proof (cells_down_length _ _ _ _ _ Hbefore) as Hlen.
    destruct (IH _ _ _ Hbefore) as [Hmissing Hpinned]. split.
    + intros j Hnone Hj. destruct (decide (j = pos)) as [->|Hne].
      * rewrite lookup_app_r by lia. rewrite Hlen, Nat.sub_diag. simpl.
        f_equal. by eapply cell_content_missing.
      * rewrite lookup_app_l by lia. apply Hmissing; [done | lia].
    + intros j content' Hj.
      destruct (decide (j < pos)%nat) as [Hlt|Hge].
      * rewrite lookup_app_l in Hj by lia. by eapply Hpinned.
      * apply lookup_lt_Some in Hj as Hbound. rewrite length_app in Hbound.
        simpl in Hbound. assert (j = pos) as -> by lia.
        rewrite lookup_app_r, Hlen, Nat.sub_diag in Hj by lia.
        injection Hj as <-. by exists ctx, ctx1.
Qed.

Lemma contents_down_length node rows index :
  forall ctx contents ctx',
    contents_down V node rows index ctx = Ok (contents, ctx') ->
    length contents = index.
Proof.
  induction index as [|index IH]; intros ctx contents ctx' Hrun;
    simpl in Hrun.
  - by injection Hrun as <- <-.
  - destruct (rows !! index) as [row|]; [|discriminate].
    inv_bind Hrun as c ctx1 Hc.
    inv_bind Hrun as before ctx2 Hbefore. injection Hrun as <- <-.
    apply IH in Hbefore. rewrite length_app. simpl. lia.
Qed.

(** The contents [contents_down] gives: one list for each row, with one
    content for each entry of the alignment list, which is the content of
    the cell of the row at that index, and is empty where the row has no
    cell. *)
Lemma contents_down_contents node rows index :
  forall ctx contents ctx',
    contents_down V node rows index ctx = Ok (contents, ctx') ->
    Forall (fun c => length c = length (align node)) contents /\
    (forall i j row c,
        rows !! i = Some row -> contents !! i = Some c ->
        (j < length (align node))%nat ->
        default [] (children row) !! j = None -> c !! j = Some "") /\
    (forall i j row c content,
        rows !! i = Some row -> contents !! i = Some c ->
        c !! j = Some content ->
        exists before after,
          cell_content V (default [] (children row)) j before =
          Ok (content, after)).
Proof.
  induction index as [|index IH]; intros ctx contents ctx' Hrun;
    simpl in Hrun.
  - injection Hrun as <- <-. split; [constructor|].
    split; intros i j row c; by rewrite lookup_nil.
  - destruct (rows !! index) as [row|] eqn:Hrow; [|discriminate].
    inv_bind Hrun as c ctx1 Hc.
    inv_bind Hrun as before ctx2 Hbefore. injection Hrun as <- <-.
    pose proof (contents_down_length _ _ _ _ _ _ Hbefore) as Hlen.
    destruct (IH _ _ _ Hbefore) as (Hall & Hmissing & Hpinned).
    assert (Hcells : cells_down V (default [] (children row))
                       (length (align node)) ctx = Ok (c, ctx1)).
    { destruct (children row), (align node); done. }
    pose proof (cells_down_length _ _ _ _ _ Hcells) as Hc_len.
    destruct (cells_down_contents _ _ _ _ _ Hcells) as [Hc_missing Hc_pinned].
    assert (Hat : forall i c',
               (before ++ [c])%list !! i = Some c' ->
               ((i < index)%nat /\ before !! i = Some c') \/
               (i = index /\ c' = c)).
    { intros i c' Hi. destruct (decide (i < index)%nat) as [Hlt|Hge].
      - left. by rewrite lookup_app_l in Hi by lia.
      - right. apply lookup_lt_Some in Hi as Hbound.
        rewrite length_app in Hbound. simpl in Hbound.
        assert (i = index) as -> by lia.
        rewrite lookup_app_r, Hlen, Nat.sub_diag in Hi by lia.
        by injection Hi as <-. }
    split; [|split].
    + apply Forall_app. split; [done|]. by constructor.
    + intros i j row' c' Hrow' Hc' Hj Hnone.
      destruct (Hat _ _ Hc') as [[_ Hin] | [-> ->]]; [by eauto|].
      rewrite Hrow in Hrow'. injection Hrow' as <-. by apply Hc_missing.
    + intros i j row' c' content Hrow' Hc' Hcontent.
      destruct (Hat _ _ Hc') as [[_ Hin] | [-> ->]]; [by eauto|].
      rewrite Hrow in Hrow'. injection Hrow' as <-. by eapply Hc_pinned.
Qed.

(** The rows [rows_down] gives are those of the contents of
    [contents_down], in document order. *)
Lemma rows_down_contents node rows index :
  forall ctx,
    rows_down opts V node rows index ctx =
    (contents <- contents_down V node rows index;;
     ret (imap (rows_markup opts (align node)) (zip rows contents))) ctx.
Proof.
  induction index as [|index IH]; intros ctx.
  - unfold bind. simpl. by rewrite zip_with_nil_r.
  - simpl. destruct (rows !! index) as [row|] eqn:Hrow; [|reflexivity].
    unfold bind.
    destruct (match children row, align node with
              | None, _ :: _ => throw TypeError
              | _, _ => cells_down V (default [] (children row))
                          (length (align node))
              end ctx) as [[c ctx1]|e]; [|reflexivity].
    rewrite IH. unfold bind.
    destruct (contents_down V node rows index ctx1)
      as [[before ctx2]|e] eqn:Hbefore; [|reflexivity].
    apply contents_down_length in Hbefore. simpl. do 2 f_equal.
    apply lookup_lt_Some in Hrow as Hlt.
    rewrite zip_with_app_r, zip_with_take_l, Hbefore, (drop_S _ _ _ Hrow).
    simpl. rewrite zip_with_nil_r, imap_app. simpl.
    rewrite length_zip_with, Hbefore, Nat.add_0_r.
    by replace (length rows `min` index)%nat with index by lia.
Qed.
End tables.

Section table_claims.
Context `{Collaborators}.
Variable opts : Options.
Variable V : Visit.

(** C8: a table with a first row compiles to the table element around the
    header section, which holds row 0 with header cells, and the body
    section, which holds the other rows with data cells, in document
    order, whatever the order in which the rows and the cells were
    compiled; every row has one cell for each entry of the alignment
    list, which carries the alignment of its column and holds the content
    compiled from the cell of the row at that index, and is empty when the
    row has no cell there. *)
Theorem table_compiled :
  forall node parent ctx first others,
    children node = Some (first :: others) ->
    table opts V node parent ctx =
    (contents <- contents_down V node (first :: others) (S (length others));;
     ret (table_markup opts node
            (row_markup opts (align node) 0 first
               (default [] (head contents)))
            (imap (rows_markup opts (align node) ∘ S)
               (zip others (tail contents))))) ctx /\
    forall contents ctx',
      contents_down V node (first :: others) (S (length others)) ctx =
      Ok (contents, ctx') ->
      length contents = S (length others) /\
      Forall (fun c => length c = length (align node)) contents /\
      (forall i j row c,
          (first :: others) !! i = Some row -> contents !! i = Some c ->
          (j < length (align node))%nat ->
          default [] (children row) !! j = None -> c !! j = Some "") /\
      (forall i j row c content,
          (first :: others) !! i = Some row -> contents !! i = Some c ->
          c !! j = Some content ->
          exists before after,
            cell_content V (default [] (children row)) j before =
            Ok (content, after)).
Proof.
  intros node parent ctx first others Hrows. split.
  - unfold table. rewrite Hrows. unfold bind at 1.
    rewrite (table_rows_down _ _ _ _ _ [] [] ctx (filled_from_nil _)).
    unfold bind at 1. change (length (first :: others)) with (S (length others)).
    rewrite rows_down_contents. unfold bind.
    destruct (contents_down V node (first :: others) (S (length others)) ctx)
      as [[contents ctx1]|e] eqn:Hdown; [|reflexivity].
    apply contents_down_length in Hdown.
    destruct contents as [|c0 cs]; [discriminate|].
    simpl. by rewrite app_nil_r, drop_0, array_join_filled.
  - intros contents ctx' Hdown. split; [by eapply contents_down_length|].
    by eapply contents_down_contents.
Qed.


End table_claims.

Lemma table_compiled_witness :
  @table spec_collaborators plain (@visit spec_collaborators plain 2)
    sample_table emptyObject fresh =
  Ok (@table_markup spec_collaborators plain sample_table
        (@row_markup spec_collaborators plain (align sample_table) 0
           sample_header ["a"; ""])
        [@row_markup spec_collaborators plain (align sample_table) 1
           sample_row ["b"; "c"]],
      fresh).
Proof.
  rewrite (proj1 (@table_compiled spec_collaborators plain
                    (@visit spec_collaborators plain 2) sample_table
                    emptyObject fresh sample_header [sample_row] eq_refl)).
  reflexivity.
Defined.


(** ** The footnote store *)

Lemma rootless_children node nodes :
  rootless node = true -> children node = Some nodes ->
  forallb rootless nodes = true.
Proof.
  destruct node; simpl. intros Hroot ->.
  by apply andb_prop in Hroot as [_ Hnodes].
Qed.

Lemma rootless_type node : rootless node = true -> type node <> "root".
Proof.
  destruct node; simpl. intros Hroot Htype.
  apply andb_prop in Hroot as [Hkind _]. by rewrite Htype in Hkind.
Qed.

Lemma rootless_lookup (nodes : list Node) i node :
  forallb rootless nodes = true -> nodes !! i = Some node ->
  rootless node = true.
Proof.
  intros Hall Hnode. apply list_elem_of_lookup_2 in Hnode.
  rewrite forallb_forall in Hall. apply Hall. by apply list_elem_of_In.
Qed.

Lemma extends_trans store store' store'' :
  extends store store' -> extends store' store'' -> extends store store''.
Proof.
  intros Hfirst Hsecond. induction Hsecond; [done|]. by constructor.
Qed.

Lemma grows_refl ctx : grows ctx ctx.
Proof. split; [done | constructor]. Qed.

Lemma grows_trans ctx ctx' ctx'' :
  grows ctx ctx' -> grows ctx' ctx'' -> grows ctx ctx''.
Proof.
  intros [Hd Hf] [Hd' Hf']. split; [congruence | by eapply extends_trans].
Qed.

(** The loop of [footnote] stops at the first number, from [identifier]
    on, whose string is not in [identifiers]. *)
Lemma next_identifier_first identifiers fuel :
  forall identifier number,
    next_identifier identifiers fuel identifier = Some number ->
    (identifier <= number)%N /\
    (String_of number ∉ identifiers) /\
    forall smaller,
      (identifier <= smaller < number)%N -> String_of smaller ∈ identifiers.
Proof.
  induction fuel as [|fuel IH]; intros identifier number; simpl;
    case_bool_decide as Hin; try discriminate.
  - intros [= <-]. repeat split; [lia | done | lia].
  - intros Hnext. apply IH in Hnext as (Hle & Hout & Hbelow).
    repeat split; [lia | done |].
    intros smaller Hs. destruct (decide (smaller = identifier)) as [->|Hne];
      [done | apply Hbelow; lia].
  - intros [= <-]. repeat split; [lia | done | lia].
Qed.

Section store.
Context `{Collaborators}.
Variable opts : Options.

Lemma all_from_grows V parent nodes :
  steady V ->
  forall prev values ctx out ctx',
    forallb rootless nodes = true ->
    all_from V parent nodes prev values ctx = Ok (out, ctx') ->
    grows ctx ctx'.
Proof.
  intros HV. induction nodes as [|node nodes IH];
    intros prev values ctx out ctx' Hnodes Hrun; simpl in Hrun.
  - injection Hrun as <- <-. apply grows_refl.
  - apply andb_prop in Hnodes as [Hnode Hnodes]. inv_bind Hrun.
    eapply grows_trans; [by eapply HV | by eapply IH].
Qed.

Lemma all_grows V parent ctx out ctx' :
  steady V ->
  rootless parent = true ->
  all V parent ctx = Ok (out, ctx') ->
  grows ctx ctx'.
Proof.
  intros HV Hroot Hrun. unfold all in Hrun.
  destruct (children parent) as [nodes|] eqn:Hnodes; [|discriminate].
  eapply all_from_grows; [done | | done]. by eapply rootless_children.
Qed.

(** A compiler that returns a value and leaves the context alone. *)
Ltac steady_pure :=
  intros V HV node parent ctx out ctx' Hroot Hrun;
  injection Hrun as <- <-; apply grows_refl.

(** A compiler that wraps the compiled children of its node. *)
Ltac steady_wrap :=
  intros V HV node parent ctx out ctx' Hroot Hrun;
  inv_bind Hrun; injection Hrun as <- <-; by eapply all_grows.

Lemma steady_ignore : steady_compiler (fun _ => ignore).
Proof. steady_pure. Qed.

Lemma steady_helper kind : steady_compiler (helper kind).
Proof. intros V HV node parent ctx out ctx' Hroot Hrun. discriminate. Qed.

Lemma steady_code : steady_compiler (fun _ => code opts).
Proof. steady_pure. Qed.

Lemma steady_html : steady_compiler (fun _ => html opts).
Proof. steady_pure. Qed.

Lemma steady_rule : steady_compiler (fun _ => rule opts).
Proof. steady_pure. Qed.

Lemma steady_inlineCode : steady_compiler (fun _ => inlineCode opts).
Proof. steady_pure. Qed.

Lemma steady_hardBreak : steady_compiler (fun _ => hardBreak opts).
Proof. steady_pure. Qed.

Lemma steady_image : steady_compiler (fun _ => image opts).
Proof. steady_pure. Qed.

Lemma steady_text : steady_compiler (fun _ => text opts).
Proof. steady_pure. Qed.

Lemma steady_footnoteReference :
  steady_compiler (fun _ node _ => footnoteReference opts node).
Proof. steady_pure. Qed.

Lemma steady_escape : steady_compiler (fun _ => escape opts).
Proof.
  intros V HV node parent ctx out ctx' Hroot Hrun. unfold escape in Hrun.
  destruct (String.eqb (value node) nl);
    injection Hrun as <- <-; apply grows_refl.
Qed.

Lemma steady_blockquote : steady_compiler (blockquote opts).
Proof. steady_wrap. Qed.

Lemma steady_list_node : steady_compiler (list_node opts).
Proof. steady_wrap. Qed.

Lemma steady_heading : steady_compiler (heading opts).
Proof. steady_wrap. Qed.

Lemma steady_paragraph : steady_compiler (paragraph opts).
Proof. steady_wrap. Qed.

Lemma steady_strong : steady_compiler (strong opts).
Proof. steady_wrap. Qed.

Lemma steady_emphasis : steady_compiler (emphasis opts).
Proof. steady_wrap. Qed.

Lemma steady_link_node : steady_compiler (link_node opts).
Proof. steady_wrap. Qed.

Lemma steady_strikethrough : steady_compiler (strikethrough opts).
Proof. steady_wrap. Qed.

Lemma single_of_Ok node parent ctx single ctx' :
  single_of node parent ctx = Ok (single, ctx') ->
  ctx' = ctx /\
  forall child, single = Some child -> children node = Some [child].
Proof.
  unfold single_of. intros Hrun.
  destruct (loose parent); [by injection Hrun as <- <-|].
  destruct (children node) as [[|child [|second rest]]|];
    try discriminate; try by injection Hrun as <- <-.
  destruct (children child); injection Hrun as <- <-; split; try done.
  by intros ? [= <-].
Qed.

Lemma steady_listItem : steady_compiler (listItem opts).
Proof.
  intros V HV node parent ctx out ctx' Hroot Hrun. unfold listItem in Hrun.
  inv_bind Hrun as single ctx0 Hm. apply single_of_Ok in Hm as [-> Hsingle].
  inv_bind Hrun as values ctx1 Hall. injection Hrun as <- <-.
  destruct single as [child|]; [|by eapply all_grows].
  eapply all_grows; [done | | done].
  eapply (rootless_lookup _ 0); [by eapply rootless_children, Hsingle|done].
Qed.

Lemma steady_footnote : steady_compiler (fun _ => footnote opts).
Proof.
  intros V HV node parent ctx out ctx' Hroot Hrun. unfold footnote in Hrun.
  inv_bind Hrun. injection Hm as <- <-.
  destruct (next_identifier _ _ _) as [number|] eqn:Hnext; [|discriminate].
  inv_bind Hrun. injection Hm as <- <-. injection Hrun as <- <-.
  apply next_identifier_first in Hnext as (Hle & Hout & Hbelow).
  split; [done|]. simpl. apply extends_push; [constructor | |].
  - exists number. repeat split; [lia | done |].
    intros smaller Hs. apply Hbelow. lia.
  - simpl. destruct (children node) as [nodes|] eqn:Hnodes; [|done].
    by eapply rootless_children.
Qed.

Lemma failsafe_grows V node def ctx out ctx' :
  steady V -> rootless node = true ->
  failsafe V node def ctx = Ok (out, ctx') -> grows ctx ctx'.
Proof.
  intros HV Hroot Hrun. unfold failsafe in Hrun.
  destruct (_ && _); [|injection Hrun as <- <-; apply grows_refl].
  inv_bind Hrun. injection Hrun as <- <-.
  destruct (children node); [|injection Hm as <- <-; apply grows_refl].
  inv_bind Hm. injection Hm as <- <-. by eapply all_grows.
Qed.

Lemma steady_linkReference : steady_compiler (linkReference opts).
Proof.
  intros V HV node parent ctx out ctx' Hroot Hrun.
  unfold linkReference in Hrun.
  inv_bind Hrun as def ctx0 Hdef. injection Hdef as <- <-.
  inv_bind Hrun as literal ctx1 Hsafe.
  apply failsafe_grows in Hsafe as Hfirst; [|done..].
  destruct (truthy literal); [by injection Hrun as <- <-|].
  inv_bind Hrun as values ctx2 Hall. injection Hrun as <- <-.
  eapply grows_trans; [done | by eapply all_grows].
Qed.

Lemma steady_imageReference : steady_compiler (imageReference opts).
Proof.
  intros V HV node parent ctx out ctx' Hroot Hrun.
  unfold imageReference in Hrun.
  inv_bind Hrun as def ctx0 Hdef. injection Hdef as <- <-.
  inv_bind Hrun as literal ctx1 Hsafe.
  apply failsafe_grows in Hsafe as Hfirst; [|done..].
  destruct (truthy literal); by injection Hrun as <- <-.
Qed.

Lemma table_cells_grows V name align cells pos :
  steady V ->
  forallb rootless cells = true ->
  forall out ctx out' ctx',
    table_cells opts V name align (Some cells) pos out ctx = Ok (out', ctx') ->
    grows ctx ctx'.
Proof.
  intros HV Hcells. induction pos as [|pos IH]; intros out ctx out' ctx' Hrun.
  - injection Hrun as <- <-. apply grows_refl.
  - rewrite table_cells_S in Hrun. inv_bind Hrun.
    eapply grows_trans; [|by eapply IH].
    unfold cell_content in Hm.
    destruct (cells !! pos) as [cell|] eqn:Hcell;
      [|injection Hm as <- <-; apply grows_refl].
    inv_bind Hm. injection Hm as <- <-.
    eapply all_grows; [done | | done]. by eapply rootless_lookup.
Qed.

Lemma table_rows_grows V node rows index :
  steady V ->
  forallb rootless rows = true ->
  forall result ctx result' ctx',
    table_rows opts V node rows index result ctx = Ok (result', ctx') ->
    grows ctx ctx'.
Proof.
  intros HV Hrows. induction index as [|index IH];
    intros result ctx result' ctx' Hrun.
  - injection Hrun as <- <-. apply grows_refl.
  - simpl in Hrun. destruct (rows !! index) as [row|] eqn:Hrow;
      [|discriminate].
    inv_bind Hrun. eapply grows_trans; [|by eapply IH].
    destruct (children row) as [cells|] eqn:Hcells.
    + eapply table_cells_grows; [done | | done].
      eapply rootless_children; [|done]. by eapply rootless_lookup.
    + destruct (length (align node)); [|discriminate].
      injection Hm as <- <-. apply grows_refl.
Qed.

Lemma steady_table : steady_compiler (table opts).
Proof.
  intros V HV node parent ctx out ctx' Hroot Hrun. unfold table in Hrun.
  destruct (children node) as [rows|] eqn:Hrows; [|discriminate].
  inv_bind Hrun. injection Hrun as <- <-.
  eapply table_rows_grows; [done | | done]. by eapply rootless_children.
Qed.

(** Every compiler of the table but [root] is steady. *)
Lemma visitors_steady :
  Forall (fun entry : string * Compiler =>
            entry.1 <> "root" -> steady_compiler entry.2)
    (visitor_entries opts).
Proof.
  unfold visitor_entries.
  repeat (constructor;
          [first [ intros Hroot; by destruct Hroot
                 | intros _; simpl;
                   first [ apply steady_helper
                         | apply steady_ignore | apply steady_footnote
                         | apply steady_blockquote | apply steady_list_node
                         | apply steady_listItem | apply steady_paragraph
                         | apply steady_heading | apply steady_table
                         | apply steady_code | apply steady_html
                         | apply steady_rule | apply steady_inlineCode
                         | apply steady_strong | apply steady_emphasis
                         | apply steady_hardBreak | apply steady_link_node
                         | apply steady_image
                         | apply steady_footnoteReference
                         | apply steady_linkReference
                         | apply steady_imageReference
                         | apply steady_strikethrough | apply steady_text
                         | apply steady_escape ] ] |]).
  constructor.
Qed.

Lemma visit_steady fuel : steady (visit opts fuel).
Proof.
  induction fuel as [|fuel IH]; intros node parent ctx out ctx' Hroot Hrun;
    [discriminate|].
  rewrite visit_S in Hrun.
  destruct (visitors opts !! type node) as [compiler|] eqn:Hcompiler;
    [|discriminate].
  apply visitors_lookup in Hcompiler.
  pose proof visitors_steady as Hall. rewrite Forall_forall in Hall.
  eapply (Hall _ Hcompiler); [by apply rootless_type | exact IH | done..].
Qed.
End store.

(** Induction on a tree: a property holds of every node when it holds of a
    node whose children have it. *)
Lemma Node_children_ind (P : Node -> Prop) :
  (forall node,
      (forall nodes, children node = Some nodes -> Forall P nodes) ->
      P node) ->
  forall node, P node.
Proof.
  intros Hstep. fix IH 1. intros node. apply Hstep.
  destruct node as [kind [nodes|] ? ? ? ? ? ? ? ? ? ? ? ? ? ? ? ?]; simpl;
    intros inner [= <-]; clear Hstep.
  induction nodes as [|first rest IHrest]; constructor; [apply IH | exact IHrest].
Qed.

Lemma collect_unfold kind node :
  collect kind node =
  ((if String.eqb (type node) kind then [node] else []) ++
   match children node with
   | Some nodes => flat_map (collect kind) nodes
   | None => []
   end)%list.
Proof. by destruct node. Qed.

Lemma collect_sound kind node :
  rootless node = true -> Forall sound_record (collect kind node).
Proof.
  induction node as [node IH] using Node_children_ind. intros Hroot.
  rewrite collect_unfold. apply Forall_app. split.
  - destruct (String.eqb (type node) kind); constructor; [|constructor].
    unfold sound_record. destruct (children node) as [nodes|] eqn:Hnodes;
      [by eapply rootless_children | done].
  - destruct (children node) as [nodes|] eqn:Hnodes; [|constructor].
    specialize (IH nodes eq_refl).
    pose proof (rootless_children _ _ Hroot Hnodes) as Hall.
    clear Hnodes Hroot. induction nodes as [|first rest IHrest]; simpl;
      [constructor|].
    apply andb_prop in Hall as [Hfirst Hrest].
    apply Forall_cons in IH as [IHfirst IH].
    apply Forall_app. split; [by apply IHfirst | by apply IHrest].
Qed.

Lemma collect_sound_children kind tree nodes :
  children tree = Some nodes -> forallb rootless nodes = true ->
  Forall sound_record (collect kind tree).
Proof.
  intros Hnodes Hall. rewrite collect_unfold, Hnodes. apply Forall_app. split.
  - destruct (String.eqb (type tree) kind); constructor; [|constructor].
    unfold sound_record. by rewrite Hnodes.
  - clear Hnodes. induction nodes as [|first rest IH]; simpl; [constructor|].
    apply andb_prop in Hall as [Hfirst Hrest].
    apply Forall_app. split; [by apply collect_sound | by apply IH].
Qed.

Lemma extends_sound store store' :
  extends store store' ->
  Forall sound_record store -> Forall sound_record store'.
Proof.
  intros Hext Hstore. induction Hext; [done|].
  apply Forall_app. split; [done|]. by constructor.
Qed.

(** The records a store was extended with, one by one. *)
Lemma extends_added store store' :
  extends store store' ->
  exists added,
    store' = (store ++ added)%list /\
    forall i record,
      added !! i = Some record ->
      allocated (map identifier (store ++ take i added)) record.
Proof.
  induction 1 as [|store' record Hext (added & -> & Hadded) Halloc Hsound].
  - exists []. split; [by rewrite app_nil_r|]. intros i record Hi.
    by rewrite lookup_nil in Hi.
  - exists (added ++ [record])%list. split; [by rewrite app_assoc|].
    intros i record' Hi. destruct (decide (i < length added)%nat) as [Hlt|Hge].
    + rewrite lookup_app_l in Hi by done.
      rewrite take_app_le by lia. by apply Hadded.
    + apply lookup_lt_Some in Hi as Hlen. rewrite length_app in Hlen.
      simpl in Hlen. assert (i = length added) as -> by lia.
      rewrite lookup_app_r, Nat.sub_diag in Hi by lia.
      injection Hi as <-. by rewrite take_app_length.
Qed.

Lemma extends_NoDup store store' :
  extends store store' ->
  NoDup (map identifier store) -> NoDup (map identifier store').
Proof.
  intros Hext Hstore. induction Hext as [|store' record _ IH Halloc _];
    [done|].
  rewrite map_app. apply NoDup_app. split; [by apply IH|]. split.
  - intros id Hin Hrecord. simpl in Hrecord.
    apply list_elem_of_singleton in Hrecord as ->.
    destruct Halloc as (number & _ & Hid & Hfree & _). rewrite Hid in Hin.
    by apply Hfree.
  - simpl. apply NoDup_singleton.
Qed.

Section store_after_compile.
Context `{Collaborators}.
Variable opts : Options.

Lemma footnote_item_rootless def nodes :
  forallb rootless nodes = true ->
  rootless (footnote_item def nodes) = true.
Proof.
  intros Hnodes. unfold footnote_item. simpl.
  rewrite forallb_app, Hnodes. reflexivity.
Qed.

Lemma footnote_items_grows V defs :
  steady V ->
  Forall sound_record defs ->
  forall results ctx out ctx',
    footnote_items opts V defs results ctx = Ok (out, ctx') ->
    grows ctx ctx'.
Proof.
  intros HV Hdefs. induction Hdefs as [|def defs Hdef Hdefs IH];
    intros results ctx out ctx' Hrun.
  - injection Hrun as <- <-. apply grows_refl.
  - simpl in Hrun. unfold sound_record in Hdef.
    destruct (children def) as [nodes|]; [|discriminate].
    inv_bind Hrun as item ctx1 Hitem.
    eapply grows_trans; [|by eapply IH].
    eapply (steady_listItem opts V HV); [|done].
    by apply footnote_item_rootless.
Qed.

Lemma generateFootnotes_grows V ctx out ctx' :
  steady V ->
  Forall sound_record (footnotes ctx) ->
  generateFootnotes opts V ctx = Ok (out, ctx') ->
  grows ctx ctx'.
Proof.
  intros HV Hstore Hrun. unfold generateFootnotes in Hrun.
  inv_bind Hrun as ctx0 ctx1 Hget. injection Hget as <- <-.
  destruct (footnotes ctx) as [|def defs] eqn:Hdefs.
  - injection Hrun as <- <-. apply grows_refl.
  - inv_bind Hrun as results ctx1 Hitems. injection Hrun as <- <-.
    by eapply footnote_items_grows.
Qed.

Lemma compile_grows fuel tree nodes out ctx' :
  children tree = Some nodes ->
  forallb rootless nodes = true ->
  compile opts fuel tree = Ok (out, ctx') ->
  grows (mkContext (index_definitions (collect "definition" tree))
           (collect "footnoteDefinition" tree))
    ctx'.
Proof.
  intros Hnodes Hall Hrun. unfold compile, root in Hrun.
  inv_bind Hrun as u ctx1 Hput. injection Hput as <- <-.
  inv_bind Hrun as values ctx2 Hvalues.
  inv_bind Hrun as notes ctx3 Hnotes. injection Hrun as <- <-.
  unfold all in Hvalues. rewrite Hnodes in Hvalues.
  apply all_from_grows in Hvalues as Hfirst;
    [|apply visit_steady|done].
  eapply grows_trans; [exact Hfirst|].
  eapply generateFootnotes_grows; [apply visit_steady | | done].
  destruct Hfirst as [_ Hext]. eapply extends_sound; [exact Hext|].
  by eapply collect_sound_children.
Qed.

End store_after_compile.

(** ** The resolution of references *)

Section resolution.
Context `{Collaborators}.
Variable opts : Options.

Lemma resolve_index (defs : list Node) node ctx :
  definitions ctx = index_definitions defs ->
  resolve node ctx =
  Ok (last (filter (fun def => toUpperCase (identifier def) =
                               toUpperCase (identifier node)) defs),
      ctx).
Proof.
  intros Hindex. unfold resolve, bind, get, ret.
  by rewrite Hindex, index_definitions_lookup.
Qed.

(** C5: [root] stores the index of the definitions of the tree before it
    compiles a child, the index being that of [index_definitions], where a
    definition is stored under its upper-cased identifier and takes the
    place of an earlier one stored there, and the compilation of a node
    without root under it keeps the index.  Under this index a link
    reference and an image reference are compiled, without error of the
    resolution, from the last definition of the tree, in document order,
    whose upper-cased identifier is that of the reference, or from no
    definition when there is none.  The identifiers are compared up to the
    case of their letters: on ASCII identifiers the comparison is that of
    their upper-case forms, where [a] to [z] are [A] to [Z], so that [Foo]
    is resolved against [foo]. *)
Theorem references_resolve_to_last_definition :
  forall fuel tree node parent ctx,
    let defs := collect "definition" tree in
    let def :=
      last (filter (fun def => toUpperCase (identifier def) =
                               toUpperCase (identifier node)) defs) in
    definitions ctx = index_definitions defs ->
    (forall V start,
        root opts V tree parent start =
        (values <- all V tree;;
         notes <- generateFootnotes opts V;;
         ret ((if truthy (join nl values) then join nl values +:+ nl else "")
              +:+ notes))
          (mkContext (index_definitions defs)
             (collect "footnoteDefinition" tree))) /\
    (forall fuel' child parent' before out after,
        rootless child = true ->
        visit opts fuel' child parent' before = Ok (out, after) ->
        definitions after = definitions before) /\
    (type node = "linkReference" ->
     visit opts (S fuel) node parent ctx =
     (literal <- failsafe (visit opts fuel) node def;;
      if truthy literal then ret literal
      else
        values <- all (visit opts fuel) node;;
        ret (h opts (Some node) "a"
               [("href", AttrString (normalizeURI (from_option link "" def)));
                ("title", attr_of_option (def ≫= title))]
               (Some (join "" values)) false)) ctx) /\
    (type node = "imageReference" ->
     visit opts (S fuel) node parent ctx =
     (literal <- failsafe (visit opts fuel) node def;;
      if truthy literal then ret literal
      else
        ret (h opts (Some node) "img"
               [("src", AttrString (normalizeURI (from_option link "" def)));
                ("alt", AttrString (default "" (alt node)));
                ("title", attr_of_option (def ≫= title))]
               None false)) ctx) /\
    (forall a b,
        ascii_only a = true -> ascii_only b = true ->
        (toUpperCase a = toUpperCase b <-> ascii_upper a = ascii_upper b)) /\
    toUpperCase "Foo" = toUpperCase "foo".
Proof.
  intros fuel tree node parent ctx defs def Hindex.
  split; [reflexivity|]. split.
  { intros fuel' child parent' before out after Hchild Hrun.
    by destruct (visit_steady opts fuel' child parent' before out after
                   Hchild Hrun) as [Hdefs _]. }
  split; [|split; [|split]].
  - intros Hkind.
    rewrite (visit_dispatch opts "linkReference" (linkReference opts))
      by done.
    unfold linkReference, bind at 1.
    by rewrite (resolve_index defs).
  - intros Hkind.
    rewrite (visit_dispatch opts "imageReference" (imageReference opts))
      by done.
    unfold imageReference, bind at 1.
    by rewrite (resolve_index defs).
  - intros a b Ha Hb. by rewrite !toUpperCase_ascii.
  - by rewrite !toUpperCase_ascii.
Qed.
End resolution.

Lemma references_resolve_to_last_definition_witness :
  let reference :=
    set_identifier "Foo" (parent_of "linkReference" [text_of "c"]) in
  let tree :=
    parent_of "root"
      [parent_of "paragraph" [reference];
       set_link "http://a" (set_identifier "foo" (node_of "definition"));
       set_link "http://b" (set_identifier "FOO" (node_of "definition"))] in
  let ctx :=
    mkContext (@index_definitions spec_collaborators
                 (collect "definition" tree)) [] in
  @visit spec_collaborators plain 2 reference emptyObject ctx =
  Ok (@h spec_collaborators plain (Some reference) "a"
        [("href", AttrString "http://b"); ("title", AttrAbsent)]
        (Some "c") false, ctx).
Proof.
  intros reference tree ctx.
  rewrite (proj1 (proj2 (proj2 (@references_resolve_to_last_definition
                                  spec_collaborators plain 1 tree reference
                                  emptyObject ctx eq_refl)))
             eq_refl).
  reflexivity.
Defined.

(** ** The inline footnotes a compilation visits *)

Section footnotes_visited.
Context `{Collaborators}.
Variable opts : Options.

Lemma visited_unfold index loose_parent node :
  visited index loose_parent node =
  if String.eqb (type node) "footnote" then [node]
  else
    match children node with
    | None => []
    | Some nodes =>
        if is_wrapper (type node) then under index node
        else if String.eqb (type node) "listItem" then
          if loose_parent then under index node
          else match nodes with
               | [sole] =>
                   match children sole with
                   | Some _ => under index sole
                   | None => under index node
                   end
               | _ => under index node
               end
        else if String.eqb (type node) "imageReference" then
          if literal_reference node (index !! toUpperCase (identifier node))
          then under index node else []
        else if String.eqb (type node) "table" then
          concat (rev (map (row_visited index (length (align node))) nodes))
        else []
    end.
Proof.
  destruct node as [kind [nodes|] ? ? ? ? ? ? ? ? ? ? ? ? ? ? ? ?];
    [|reflexivity].
  unfold under. simpl.
  destruct nodes as [|sole [|second rest]]; try reflexivity.
  by destruct sole as [? [inside|] ? ? ? ? ? ? ? ? ? ? ? ? ? ? ? ?].
Qed.

Lemma visited_footnote index loose_parent node :
  type node = "footnote" -> visited index loose_parent node = [node].
Proof. intros Hkind. by rewrite visited_unfold, Hkind. Qed.

Lemma visited_wrapper index loose_parent node :
  is_wrapper (type node) = true ->
  visited index loose_parent node = under index node.
Proof.
  intros Hkind. rewrite visited_unfold, Hkind.
  destruct (String.eqb_spec (type node) "footnote") as [Hnote|_].
  { rewrite Hnote in Hkind. discriminate Hkind. }
  unfold under. by destruct (children node).
Qed.

Lemma visited_leaf index loose_parent node :
  type node ∉ visiting_kinds -> visited index loose_parent node = [].
Proof.
  intros Hkind. rewrite visited_unfold.
  unfold visiting_kinds in Hkind.
  rewrite !not_elem_of_cons in Hkind.
  destruct Hkind as (Hnote & Hitem & Himage & Htable & Hwrapper).
  apply String.eqb_neq in Hnote, Hitem, Himage, Htable.
  rewrite Hnote, Hitem, Himage, Htable.
  destruct (children node); [|reflexivity].
  unfold is_wrapper. by rewrite bool_decide_eq_false_2.
Qed.

Lemma visited_listItem index loose_parent node nodes :
  type node = "listItem" ->
  children node = Some nodes ->
  visited index loose_parent node =
  if loose_parent then under index node
  else match nodes with
       | [sole] =>
           match children sole with
           | Some _ => under index sole
           | None => under index node
           end
       | _ => under index node
       end.
Proof. intros Hkind Hnodes. by rewrite visited_unfold, Hkind, Hnodes. Qed.

Lemma visited_imageReference index loose_parent node :
  type node = "imageReference" ->
  visited index loose_parent node =
  if literal_reference node (index !! toUpperCase (identifier node))
  then under index node else [].
Proof.
  intros Hkind. rewrite visited_unfold, Hkind. unfold under.
  destruct (children node); [reflexivity|]. by destruct (literal_reference _ _).
Qed.

Lemma visited_table index loose_parent node rows :
  type node = "table" ->
  children node = Some rows ->
  visited index loose_parent node =
  concat (rev (map (row_visited index (length (align node))) rows)).
Proof. intros Hkind Hrows. by rewrite visited_unfold, Hkind, Hrows. Qed.

Lemma traces_refl ctx : traces ctx ctx [].
Proof.
  split; [done|]. exists []. split; [by rewrite app_nil_r | constructor].
Qed.

Lemma traces_trans ctx ctx1 ctx2 first second :
  traces ctx ctx1 first -> traces ctx1 ctx2 second ->
  traces ctx ctx2 (first ++ second).
Proof.
  intros (Hdefs1 & added1 & Hstore1 & Hadded1)
         (Hdefs2 & added2 & Hstore2 & Hadded2).
  split; [congruence|]. exists (added1 ++ added2)%list. split.
  - by rewrite Hstore2, Hstore1, app_assoc.
  - by apply Forall2_app.
Qed.

Lemma all_from_traces V parent nodes :
  traced V ->
  forall prev values ctx out ctx',
    forallb rootless nodes = true ->
    all_from V parent nodes prev values ctx = Ok (out, ctx') ->
    traces ctx ctx'
      (flat_map (visited (definitions ctx) (loose parent)) nodes).
Proof.
  intros HV. induction nodes as [|node nodes IH];
    intros prev values ctx out ctx' Hnodes Hrun; simpl in Hrun.
  - injection Hrun as <- <-. apply traces_refl.
  - apply andb_prop in Hnodes as [Hnode Hnodes].
    inv_bind Hrun as value ctx1 Hvalue.
    pose proof (HV _ _ _ _ _ Hnode Hvalue) as Hfirst.
    pose proof (IH _ _ _ _ _ Hnodes Hrun) as Hrest.
    destruct Hfirst as [Hdefs Hadded]. rewrite Hdefs in Hrest.
    simpl. eapply traces_trans; [by split | done].
Qed.

Lemma all_traces V parent ctx out ctx' :
  traced V ->
  rootless parent = true ->
  all V parent ctx = Ok (out, ctx') ->
  traces ctx ctx' (under (definitions ctx) parent).
Proof.
  intros HV Hroot Hrun. unfold all in Hrun. unfold under.
  destruct (children parent) as [nodes|] eqn:Hnodes; [|discriminate].
  eapply all_from_traces; [done | | done]. by eapply rootless_children.
Qed.

(** A compiler that returns a value and leaves the context alone. *)
Ltac traced_pure :=
  intros V node parent ctx out ctx' HV Hkind Hroot Hrun;
  injection Hrun as <- <-;
  rewrite visited_leaf by (rewrite Hkind; kind_in_list);
  apply traces_refl.

(** A compiler that wraps the compiled children of its node. *)
Ltac traced_wrap :=
  intros V node parent ctx out ctx' HV Hkind Hroot Hrun;
  inv_bind Hrun; injection Hrun as <- <-;
  rewrite visited_wrapper by (by rewrite Hkind);
  by eapply all_traces.

Lemma traced_helper kind : traced_compiler kind (helper kind).
Proof. intros V node parent ctx out ctx' HV Hkind Hroot Hrun. discriminate. Qed.

Lemma traced_ignore kind :
  kind ∉ visiting_kinds -> traced_compiler kind (fun _ => ignore).
Proof.
  intros Hleaf V node parent ctx out ctx' HV Hkind Hroot Hrun.
  injection Hrun as <- <-. rewrite visited_leaf by (by rewrite Hkind).
  apply traces_refl.
Qed.

Lemma traced_code : traced_compiler "code" (fun _ => code opts).
Proof. traced_pure. Qed.

Lemma traced_html : traced_compiler "html" (fun _ => html opts).
Proof. traced_pure. Qed.

Lemma traced_rule : traced_compiler "horizontalRule" (fun _ => rule opts).
Proof. traced_pure. Qed.

Lemma traced_inlineCode :
  traced_compiler "inlineCode" (fun _ => inlineCode opts).
Proof. traced_pure. Qed.

Lemma traced_hardBreak : traced_compiler "break" (fun _ => hardBreak opts).
Proof. traced_pure. Qed.

Lemma traced_image : traced_compiler "image" (fun _ => image opts).
Proof. traced_pure. Qed.

Lemma traced_text : traced_compiler "text" (fun _ => text opts).
Proof. traced_pure. Qed.

Lemma traced_footnoteReference :
  traced_compiler "footnoteReference"
    (fun _ node _ => footnoteReference opts node).
Proof. traced_pure. Qed.

Lemma traced_escape : traced_compiler "escape" (fun _ => escape opts).
Proof.
  intros V node parent ctx out ctx' HV Hkind Hroot Hrun.
  rewrite visited_leaf by (rewrite Hkind; kind_in_list).
  unfold escape in Hrun.
  destruct (String.eqb (value node) nl);
    injection Hrun as <- <-; apply traces_refl.
Qed.

Lemma traced_blockquote : traced_compiler "blockquote" (blockquote opts).
Proof. traced_wrap. Qed.

Lemma traced_list_node : traced_compiler "list" (list_node opts).
Proof. traced_wrap. Qed.

Lemma traced_heading : traced_compiler "heading" (heading opts).
Proof. traced_wrap. Qed.

Lemma traced_paragraph : traced_compiler "paragraph" (paragraph opts).
Proof. traced_wrap. Qed.

Lemma traced_strong : traced_compiler "strong" (strong opts).
Proof. traced_wrap. Qed.

Lemma traced_emphasis : traced_compiler "emphasis" (emphasis opts).
Proof. traced_wrap. Qed.

Lemma traced_link_node : traced_compiler "link" (link_node opts).
Proof. traced_wrap. Qed.

Lemma traced_strikethrough : traced_compiler "delete" (strikethrough opts).
Proof. traced_wrap. Qed.

Lemma traced_footnote : traced_compiler "footnote" (fun _ => footnote opts).
Proof.
  intros V node parent ctx out ctx' HV Hkind Hroot Hrun.
  rewrite visited_footnote by done. unfold footnote in Hrun.
  inv_bind Hrun. injection Hm as <- <-.
  destruct (next_identifier _ _ _) as [number|]; [|discriminate].
  inv_bind Hrun. injection Hm as <- <-. injection Hrun as <- <-.
  split; [done|]. eexists [_]. split; [reflexivity|].
  by repeat constructor.
Qed.

Lemma traced_listItem : traced_compiler "listItem" (listItem opts).
Proof.
  intros V node parent ctx out ctx' HV Hkind Hroot Hrun.
  unfold listItem in Hrun. inv_bind Hrun as single ctx0 Hsingle.
  inv_bind Hrun as values ctx1 Hall. injection Hrun as <- <-.
  unfold single_of in Hsingle.
  destruct (children node) as [nodes|] eqn:Hnodes.
  - rewrite (visited_listItem _ _ _ nodes) by done.
    destruct (loose parent).
    { injection Hsingle as <- <-. by eapply all_traces. }
    destruct nodes as [|child [|second rest]];
      try (injection Hsingle as <- <-; by eapply all_traces).
    destruct (children child) as [inside|] eqn:Hinside;
      injection Hsingle as <- <-; [|by eapply all_traces].
    eapply all_traces; [done | | done].
    eapply (rootless_lookup _ 0); [by eapply rootless_children|done].
  - destruct (loose parent); [|discriminate].
    injection Hsingle as <- <-. unfold all in Hall.
    by rewrite Hnodes in Hall.
Qed.

Lemma failsafe_traces V node def ctx out ctx' :
  traced V -> rootless node = true ->
  failsafe V node def ctx = Ok (out, ctx') ->
  if literal_reference node def
  then traces ctx ctx' (under (definitions ctx) node) /\ truthy out = true
  else ctx' = ctx /\ out = "".
Proof.
  intros HV Hroot Hrun. unfold failsafe in Hrun. unfold literal_reference.
  destruct (_ && _); [|by injection Hrun as <- <-].
  inv_bind Hrun as label ctx1 Hlabel. injection Hrun as <- <-. split.
  - destruct (children node) as [nodes|] eqn:Hnodes.
    + inv_bind Hlabel as values ctx2 Hall. injection Hlabel as <- <-.
      by eapply all_traces.
    + injection Hlabel as <- <-. unfold under. rewrite Hnodes.
      apply traces_refl.
  - by destruct (String.eqb (type node) "imageReference").
Qed.

Lemma traced_linkReference :
  traced_compiler "linkReference" (linkReference opts).
Proof.
  intros V node parent ctx out ctx' HV Hkind Hroot Hrun.
  rewrite visited_wrapper by (by rewrite Hkind).
  unfold linkReference in Hrun.
  inv_bind Hrun as def ctx0 Hdef. injection Hdef as <- <-.
  inv_bind Hrun as literal ctx1 Hsafe.
  apply failsafe_traces in Hsafe; [|done..].
  destruct (literal_reference node _).
  - destruct Hsafe as [Htraces Hliteral]. rewrite Hliteral in Hrun.
    by injection Hrun as <- <-.
  - destruct Hsafe as [-> ->]. simpl in Hrun.
    inv_bind Hrun as values ctx2 Hall. injection Hrun as <- <-.
    by eapply all_traces.
Qed.

Lemma traced_imageReference :
  traced_compiler "imageReference" (imageReference opts).
Proof.
  intros V node parent ctx out ctx' HV Hkind Hroot Hrun.
  rewrite visited_imageReference by done.
  unfold imageReference in Hrun.
  inv_bind Hrun as def ctx0 Hdef. injection Hdef as <- <-.
  inv_bind Hrun as literal ctx1 Hsafe.
  apply failsafe_traces in Hsafe; [|done..].
  destruct (literal_reference node _).
  - destruct Hsafe as [Htraces Hliteral]. rewrite Hliteral in Hrun.
    by injection Hrun as <- <-.
  - destruct Hsafe as [-> ->]. simpl in Hrun. injection Hrun as <- <-.
    apply traces_refl.
Qed.

Lemma table_cells_traces V name align cells pos :
  traced V ->
  forallb rootless cells = true ->
  forall out ctx out' ctx',
    table_cells opts V name align (Some cells) pos out ctx = Ok (out', ctx') ->
    traces ctx ctx'
      (concat (rev (take pos (map (under (definitions ctx)) cells)))).
Proof.
  intros HV Hcells. induction pos as [|pos IH]; intros out ctx out' ctx' Hrun.
  - injection Hrun as <- <-. apply traces_refl.
  - rewrite table_cells_S in Hrun. inv_bind Hrun as content ctx1 Hcontent.
    apply IH in Hrun. unfold cell_content in Hcontent.
    destruct (cells !! pos) as [cell|] eqn:Hcell.
    + inv_bind Hcontent as values ctx2 Hall. injection Hcontent as <- <-.
      apply all_traces in Hall; [|done|by eapply rootless_lookup].
      destruct Hall as [Hdefs Hadded]. rewrite Hdefs in Hrun.
      rewrite (take_S_r _ _ (under (definitions ctx) cell))
        by (by rewrite list_lookup_fmap, Hcell).
      rewrite rev_unit. simpl. eapply traces_trans; [by split | done].
    + injection Hcontent as <- <-. apply lookup_ge_None in Hcell.
      rewrite take_ge by (rewrite length_map; lia).
      by rewrite take_ge in Hrun by (rewrite length_map; lia).
Qed.

Lemma table_rows_traces V node rows index :
  traced V ->
  forallb rootless rows = true ->
  forall result ctx result' ctx',
    table_rows opts V node rows index result ctx = Ok (result', ctx') ->
    traces ctx ctx'
      (concat
         (rev (map (row_visited (definitions ctx) (length (align node)))
                 (take index rows)))).
Proof.
  intros HV Hrows. induction index as [|index IH];
    intros result ctx result' ctx' Hrun.
  - injection Hrun as <- <-. apply traces_refl.
  - simpl in Hrun. destruct (rows !! index) as [row|] eqn:Hrow;
      [|discriminate].
    inv_bind Hrun as out ctx1 Hout. apply IH in Hrun.
    rewrite (take_S_r _ _ row) by done.
    rewrite List.map_app, rev_app_distr. simpl.
    assert (traces ctx ctx1
              (row_visited (definitions ctx) (length (align node)) row))
      as Hfirst.
    { unfold row_visited. destruct (children row) as [cells|] eqn:Hcells.
      - eapply table_cells_traces; [done | | done].
        eapply rootless_children; [|done]. by eapply rootless_lookup.
      - destruct (length (align node)); [|discriminate].
        injection Hout as <- <-. apply traces_refl. }
    destruct Hfirst as [Hdefs Hadded]. rewrite Hdefs in Hrun.
    eapply traces_trans; [by split | done].
Qed.

Lemma traced_table : traced_compiler "table" (table opts).
Proof.
  intros V node parent ctx out ctx' HV Hkind Hroot Hrun. unfold table in Hrun.
  destruct (children node) as [rows|] eqn:Hrows; [|discriminate].
  inv_bind Hrun as result ctx1 Hresult. injection Hrun as <- <-.
  rewrite (visited_table _ _ _ rows) by done.
  apply table_rows_traces in Hresult;
    [|done|by eapply rootless_children].
  by rewrite take_ge in Hresult by done.
Qed.

(** Every compiler of the table but [root] stores the inline footnotes of
    [visited]. *)
Lemma visitors_traced :
  Forall (fun entry : string * Compiler =>
            entry.1 <> "root" -> traced_compiler entry.1 entry.2)
    (visitor_entries opts).
Proof.
  unfold visitor_entries.
  repeat (constructor;
          [first [ intros Hroot; by destruct Hroot
                 | intros _; simpl;
                   first [ apply traced_helper
                         | apply traced_ignore; kind_in_list
                         | apply traced_footnote
                         | apply traced_blockquote | apply traced_list_node
                         | apply traced_listItem | apply traced_paragraph
                         | apply traced_heading | apply traced_table
                         | apply traced_code | apply traced_html
                         | apply traced_rule | apply traced_inlineCode
                         | apply traced_strong | apply traced_emphasis
                         | apply traced_hardBreak | apply traced_link_node
                         | apply traced_image
                         | apply traced_footnoteReference
                         | apply traced_linkReference
                         | apply traced_imageReference
                         | apply traced_strikethrough | apply traced_text
                         | apply traced_escape ] ] |]).
  constructor.
Qed.

Lemma visit_traced fuel : traced (visit opts fuel).
Proof.
  induction fuel as [|fuel IH]; intros node parent ctx out ctx' Hroot Hrun;
    [discriminate|].
  rewrite visit_S in Hrun.
  destruct (visitors opts !! type node) as [compiler|] eqn:Hcompiler;
    [|discriminate].
  apply visitors_lookup in Hcompiler.
  pose proof visitors_traced as Hall. rewrite Forall_forall in Hall.
  eapply (Hall _ Hcompiler); [by apply rootless_type | exact IH | done..].
Qed.

(** The item of a record visits the inline footnotes of the children of
    the record: the back reference has none. *)
Lemma visited_footnote_item index def nodes :
  visited index false (footnote_item def nodes) =
  flat_map (visited index false) nodes.
Proof.
  rewrite (visited_listItem _ _ _ (nodes ++ [backref def])) by done.
  assert (Hitem : under index (footnote_item def nodes) =
                  flat_map (visited index false) nodes).
  { unfold under. simpl. rewrite flat_map_app. simpl.
    by rewrite !app_nil_r. }
  destruct nodes as [|first [|second rest]]; [reflexivity | done..].
Qed.

Lemma footnote_items_traces V defs :
  traced V ->
  Forall sound_record defs ->
  forall results ctx out ctx',
    footnote_items opts V defs results ctx = Ok (out, ctx') ->
    traces ctx ctx' (flat_map (noted (definitions ctx)) defs).
Proof.
  intros HV Hdefs. induction Hdefs as [|def defs Hdef Hdefs IH];
    intros results ctx out ctx' Hrun.
  - injection Hrun as <- <-. apply traces_refl.
  - simpl in Hrun. unfold sound_record in Hdef.
    destruct (children def) as [nodes|] eqn:Hnodes; [|discriminate].
    inv_bind Hrun as item ctx1 Hitem. apply IH in Hrun.
    pose proof (traced_listItem V (footnote_item def nodes) emptyObject ctx
                  item ctx1 HV eq_refl (footnote_item_rootless _ _ Hdef)
                  Hitem) as Htraces.
    clear Hitem. rename Htraces into Hitem.
    change (loose emptyObject) with false in Hitem.
    rewrite visited_footnote_item in Hitem.
    destruct Hitem as [Hdefs' Hadded]. rewrite Hdefs' in Hrun.
    simpl. unfold noted at 1. rewrite Hnodes. simpl.
    eapply traces_trans; [by split | done].
Qed.

Lemma generateFootnotes_traces V ctx out ctx' :
  traced V ->
  Forall sound_record (footnotes ctx) ->
  generateFootnotes opts V ctx = Ok (out, ctx') ->
  traces ctx ctx' (flat_map (noted (definitions ctx)) (footnotes ctx)).
Proof.
  intros HV Hstore Hrun. unfold generateFootnotes in Hrun.
  inv_bind Hrun as ctx0 ctx1 Hget. injection Hget as <- <-.
  destruct (footnotes ctx) as [|def defs] eqn:Hdefs.
  - injection Hrun as <- <-. apply traces_refl.
  - inv_bind Hrun as results ctx1 Hitems. injection Hrun as <- <-.
    by eapply footnote_items_traces.
Qed.

(** The records of footnotes are compiled as the footnotes would be. *)
Lemma carried_noted index added notes :
  carried added notes ->
  flat_map (noted index) added = flat_map (noted index) notes.
Proof.
  induction 1 as [|record note added notes (_ & Hchildren & _) _ IH];
    [reflexivity|].
  simpl. unfold noted at 1 3. by rewrite Hchildren, IH.
Qed.

Lemma compile_traces fuel tree nodes out ctx' :
  children tree = Some nodes ->
  forallb rootless nodes = true ->
  compile opts fuel tree = Ok (out, ctx') ->
  traces (mkContext (index_definitions (collect "definition" tree))
            (collect "footnoteDefinition" tree))
    ctx' (visited_by_compile tree).
Proof.
  intros Hnodes Hall Hrun. unfold compile, root in Hrun.
  inv_bind Hrun as u ctx1 Hput. injection Hput as <- <-.
  inv_bind Hrun as values ctx2 Hvalues.
  inv_bind Hrun as notes ctx3 Hnotes. injection Hrun as <- <-.
  unfold all in Hvalues. rewrite Hnodes in Hvalues.
  pose proof (all_from_grows _ _ _ (visit_steady opts fuel) _ _ _ _ _ Hall
                Hvalues) as [_ Hext].
  apply all_from_traces in Hvalues as Hbody; [|apply visit_traced|done].
  apply generateFootnotes_traces in Hnotes as Hsection;
    [|apply visit_traced|].
  2:{ eapply extends_sound; [exact Hext|].
      by eapply collect_sound_children. }
  unfold visited_by_compile. eapply traces_trans.
  { unfold under. rewrite Hnodes. exact Hbody. }
  destruct Hbody as (Hdefs & added & Hstore & Hadded).
  rewrite Hdefs, Hstore in Hsection. simpl in Hsection.
  rewrite flat_map_app in Hsection.
  rewrite (carried_noted _ _ _ Hadded) in Hsection.
  rewrite flat_map_app. unfold under. by rewrite Hnodes.
Qed.
End footnotes_visited.

(** The footnotes visited are inline footnotes of the tree. *)
Lemma collect_child kind node nodes child (note : Node) :
  children node = Some nodes -> child ∈ nodes ->
  note ∈ collect kind child -> note ∈ collect kind node.
Proof.
  intros Hnodes Hchild Hnote. rewrite collect_unfold, Hnodes.
  apply elem_of_app. right. apply list_elem_of_In, in_flat_map.
  exists child. split; by apply list_elem_of_In.
Qed.

Lemma collect_inside kind kind' tree (node note : Node) :
  node ∈ collect kind tree -> note ∈ collect kind' node ->
  note ∈ collect kind' tree.
Proof.
  induction tree as [tree IH] using Node_children_ind. intros Hnode Hnote.
  rewrite collect_unfold in Hnode. apply elem_of_app in Hnode as [Hnode|Hnode].
  - destruct (String.eqb (type tree) kind); [|by apply elem_of_nil in Hnode].
    by apply list_elem_of_singleton in Hnode as ->.
  - destruct (children tree) as [nodes|] eqn:Hnodes;
      [|by apply elem_of_nil in Hnode].
    apply list_elem_of_In, in_flat_map in Hnode as (child & Hchild & Hin).
    apply list_elem_of_In in Hchild, Hin.
    specialize (IH nodes eq_refl). rewrite Forall_forall in IH.
    eapply collect_child; [done..|]. by apply IH.
Qed.

Lemma flat_map_collected (f : Node -> list Node) kind node nodes :
  children node = Some nodes ->
  (forall child, child ∈ nodes -> f child ⊆ collect kind child) ->
  flat_map f nodes ⊆ collect kind node.
Proof.
  intros Hnodes Hall note Hnote.
  apply list_elem_of_In, in_flat_map in Hnote as (child & Hchild & Hin).
  apply list_elem_of_In in Hchild, Hin.
  eapply collect_child; [done..|]. by apply Hall.
Qed.

Section visited_collected.
Context `{Collaborators}.
Variable index : gmap string Node.

Lemma under_collected node :
  (forall nodes child loose_parent,
      children node = Some nodes -> child ∈ nodes ->
      visited index loose_parent child ⊆ collect "footnote" child) ->
  under index node ⊆ collect "footnote" node.
Proof.
  intros Hall. unfold under.
  destruct (children node) as [nodes|] eqn:Hnodes;
    [|intros note Hnote; by apply elem_of_nil in Hnote].
  eapply flat_map_collected; [done|]. intros child Hchild. by eapply Hall.
Qed.

Lemma row_visited_collected columns row :
  (forall cells cell,
      children row = Some cells -> cell ∈ cells ->
      under index cell ⊆ collect "footnote" cell) ->
  row_visited index columns row ⊆ collect "footnote" row.
Proof.
  intros Hall note Hnote. unfold row_visited in Hnote.
  destruct (children row) as [cells|] eqn:Hcells;
    [|by apply elem_of_nil in Hnote].
  apply list_elem_of_In, in_concat in Hnote as (notes & Hnotes & Hin).
  apply in_rev, list_elem_of_In, subseteq_take in Hnotes.
  apply list_elem_of_In, in_map_iff in Hnotes as (cell & <- & Hcell).
  apply list_elem_of_In in Hcell, Hin.
  eapply collect_child; [done..|]. by eapply Hall.
Qed.

Lemma visited_collected node :
  (forall loose_parent,
      visited index loose_parent node ⊆ collect "footnote" node) /\
  under index node ⊆ collect "footnote" node /\
  (forall nodes child,
      children node = Some nodes -> child ∈ nodes ->
      under index child ⊆ collect "footnote" child).
Proof.
  induction node as [node IH] using Node_children_ind.
  assert (Hchildren : forall nodes child,
             children node = Some nodes -> child ∈ nodes ->
             (forall loose_parent,
                 visited index loose_parent child ⊆
                 collect "footnote" child) /\
             under index child ⊆ collect "footnote" child /\
             (forall cells cell,
                 children child = Some cells -> cell ∈ cells ->
                 under index cell ⊆ collect "footnote" cell)).
  { intros nodes child Hnodes Hchild. specialize (IH nodes Hnodes).
    rewrite Forall_forall in IH. by apply IH. }
  clear IH.
  assert (Hunder : under index node ⊆ collect "footnote" node).
  { apply under_collected. intros nodes child loose_parent Hnodes Hchild.
    by apply (Hchildren nodes child Hnodes Hchild). }
  split; [|split; [done|]].
  2:{ intros nodes child Hnodes Hchild.
      by apply (Hchildren nodes child Hnodes Hchild). }
  intros loose_parent. rewrite visited_unfold.
  destruct (String.eqb_spec (type node) "footnote") as [Hnote|_].
  { intros note Hin. apply list_elem_of_singleton in Hin as ->.
    rewrite collect_unfold, Hnote. simpl. apply elem_of_cons. by left. }
  destruct (children node) as [nodes|] eqn:Hnodes;
    [|intros note Hin; by apply elem_of_nil in Hin].
  destruct (is_wrapper (type node)); [done|].
  destruct (String.eqb (type node) "listItem").
  { destruct loose_parent; [done|].
    destruct nodes as [|sole [|second rest]]; try done.
    destruct (children sole) as [inside|] eqn:Hinside; [|done].
    intros note Hin. eapply collect_child; [exact Hnodes | by left |].
    by apply (Hchildren [sole] sole eq_refl (list_elem_of_here _ _)). }
  destruct (String.eqb (type node) "imageReference").
  { destruct (literal_reference _ _); [done|].
    intros note Hin. by apply elem_of_nil in Hin. }
  destruct (String.eqb (type node) "table");
    [|intros note Hin; by apply elem_of_nil in Hin].
  intros note Hin.
  apply list_elem_of_In, in_concat in Hin as (notes & Hnotes & Hin).
  apply in_rev, in_map_iff in Hnotes as (row & <- & Hrow).
  apply list_elem_of_In in Hrow, Hin.
  eapply collect_child; [exact Hnodes | exact Hrow |].
  eapply row_visited_collected; [|exact Hin].
  by apply (Hchildren nodes row eq_refl Hrow).
Qed.

Lemma noted_collected record :
  noted index record ⊆ collect "footnote" record.
Proof.
  unfold noted. destruct (children record) as [nodes|] eqn:Hnodes;
    [|intros note Hin; by apply elem_of_nil in Hin].
  eapply flat_map_collected; [done|]. intros child _.
  apply visited_collected.
Qed.
End visited_collected.

(** The inline footnotes a compilation visits are inline footnotes of the
    tree. *)
Lemma visited_by_compile_collected `{Collaborators} tree :
  visited_by_compile tree ⊆ collect "footnote" tree.
Proof.
  intros note Hnote. unfold visited_by_compile in Hnote.
  apply elem_of_app in Hnote as [Hbody|Hsection].
  { by apply visited_collected in Hbody. }
  apply list_elem_of_In, in_flat_map in Hsection as (record & Hrecord & Hin).
  apply list_elem_of_In in Hrecord, Hin. apply noted_collected in Hin.
  apply elem_of_app in Hrecord as [Hexplicit|Hbody].
  - by eapply collect_inside.
  - apply visited_collected in Hbody. by eapply collect_inside.
Qed.

Section store_claim.
Context `{Collaborators}.
Variable opts : Options.

(** C2, as the code has it: when the root of the tree is the only root in
    it, the store after the compilation holds the footnote definitions of
    the tree in document order, followed by one record for each inline
    footnote the compilation visits, in the order of the visits, which
    has the children and the position of its footnote; the footnotes
    visited are inline footnotes of the tree; the identifier of each of
    these records is the string of the smallest positive integer that the
    identifier of no record before it in the store is; the identifiers of
    the store differ from one another when those of the footnote
    definitions do. *)
Theorem footnote_store_allocated :
  forall fuel tree nodes out ctx',
    children tree = Some nodes ->
    forallb rootless nodes = true ->
    compile opts fuel tree = Ok (out, ctx') ->
    let explicit := collect "footnoteDefinition" tree in
    (exists added,
        footnotes ctx' = (explicit ++ added)%list /\
        carried added (visited_by_compile tree) /\
        forall i record,
          added !! i = Some record ->
          allocated (map identifier (explicit ++ take i added)) record) /\
    visited_by_compile tree ⊆ collect "footnote" tree /\
    (NoDup (map identifier explicit) ->
     NoDup (map identifier (footnotes ctx'))).
Proof.
  intros fuel tree nodes out ctx' Hnodes Hall Hrun explicit.
  destruct (compile_grows opts _ _ _ _ _ Hnodes Hall Hrun) as [_ Hext].
  destruct (compile_traces opts _ _ _ _ _ Hnodes Hall Hrun)
    as (_ & added & Hstore & Hadded).
  split; [|split; [apply visited_by_compile_collected
                  |by apply extends_NoDup]].
  apply extends_added in Hext as (added' & Hstore' & Hallocated).
  simpl in Hstore, Hstore'. rewrite Hstore in Hstore'.
  apply app_inv_head in Hstore' as <-. by exists added.
Qed.
End store_claim.

Lemma footnote_store_allocated_witness :
  exists out ctx' added,
    @compile spec_collaborators plain 4 sample_notes = Ok (out, ctx') /\
    footnotes ctx' =
    (definition_of "2" [parent_of "paragraph" [text_of "d"]] :: added) /\
    carried added
      [parent_of "footnote" [text_of "b"];
       parent_of "footnote" [text_of "c"]] /\
    NoDup (map identifier (footnotes ctx')).
Proof.
  destruct (@compile spec_collaborators plain 4 sample_notes)
    as [[out ctx']|e] eqn:Hrun; [|vm_compute in Hrun; discriminate Hrun].
  destruct (@footnote_store_allocated spec_collaborators plain 4 sample_notes
              (default [] (children sample_notes)) out ctx' eq_refl eq_refl
              Hrun) as [(added & Hstore & Hadded & _) [_ Hdup]].
  exists out, ctx', added. repeat split; [exact Hstore | exact Hadded |].
  apply Hdup. vm_compute. apply NoDup_singleton.
Defined.

(** C2, as stated, fails on a tree with two footnote definitions of the
    same identifier: the store holds both, under that identifier. *)
Lemma footnote_store_claim_fails : ~ footnote_store_claim.
Proof.
  intros Hclaim.
  destruct (Hclaim spec_collaborators plain 4%nat
              (parent_of "root"
                 [definition_of "x" [parent_of "paragraph" [text_of "a"]];
                  definition_of "x" [parent_of "paragraph" [text_of "b"]]])
              _ _ eq_refl) as (_ & Hdup & _).
  vm_compute in Hdup. apply NoDup_cons in Hdup as [Hin _].
  apply Hin. constructor.
Qed.

(** An inline footnote in a footnote definition that is the only child of
    an item of a tight list is visited twice, once when the item is
    compiled and once in the footnote section: the store holds three
    records for the definition and the footnote. *)
Example unwrapped_definition_stored :
  match @compile spec_collaborators plain 6
          (parent_of "root"
             [parent_of "list"
                [parent_of "listItem"
                   [definition_of "n"
                      [parent_of "footnote" [text_of "a"]]]]])
  with
  | Ok (_, ctx') => map identifier (footnotes ctx') = ["n"; "1"; "2"]
  | Err _ => False
  end.
Proof. vm_compute. reflexivity. Qed.

(** An inline footnote inside an inline footnote inside an inline footnote
    is never visited, and the store holds two records for the three
    footnotes. *)
Example nested_footnotes_stored :
  match @compile spec_collaborators plain 6
          (parent_of "root"
             [parent_of "paragraph"
                [parent_of "footnote"
                   [parent_of "footnote"
                      [parent_of "footnote" [text_of "a"]]]]])
  with
  | Ok (_, ctx') => map identifier (footnotes ctx') = ["1"; "2"]
  | Err _ => False
  end.
Proof. vm_compute. reflexivity. Qed.

(** ** Success on valid trees *)

Lemma ready_mono bound bound' record :
  (bound <= bound')%nat -> ready bound record -> ready bound' record.
Proof.
  intros Hle (nodes & Hnodes & Hvalid & Hheight).
  exists nodes. repeat split; [done..|].
  eapply Forall_impl; [exact Hheight|]. simpl. intros node Hnode. lia.
Qed.

Lemma runs_mono {A} bound bound' (m : M A) :
  (bound <= bound')%nat -> runs bound m -> runs bound' m.
Proof.
  intros Hle Hm ctx. destruct (Hm ctx) as (a & ctx' & added & Hrun & Hs & Hr).
  exists a, ctx', added. repeat split; [done..|].
  eapply Forall_impl; [exact Hr|]. intros record. by apply ready_mono.
Qed.

Lemma runs_ret {A} bound (a : A) : runs bound (ret a).
Proof.
  intros ctx. exists a, ctx, []. repeat split; [by rewrite app_nil_r|].
  constructor.
Qed.

Lemma runs_bind {A B} bound (m : M A) (k : A -> M B) :
  runs bound m -> (forall a, runs bound (k a)) -> runs bound (bind m k).
Proof.
  intros Hm Hk ctx.
  destruct (Hm ctx) as (a & ctx1 & added1 & Hrun1 & Hs1 & Hr1).
  destruct (Hk a ctx1) as (b & ctx2 & added2 & Hrun2 & Hs2 & Hr2).
  exists b, ctx2, (added1 ++ added2)%list. repeat split.
  - unfold bind. by rewrite Hrun1.
  - by rewrite Hs2, Hs1, app_assoc.
  - by apply Forall_app.
Qed.

Lemma height_children node nodes bound :
  children node = Some nodes ->
  (height node <= S bound)%nat ->
  Forall (fun child => (height child <= bound)%nat) nodes.
Proof.
  destruct node; simpl. intros -> Hheight.
  apply Forall_forall. intros child Hchild.
  assert (height child ∈ map height nodes) as Hin.
  { apply list_elem_of_fmap. by exists child. }
  apply max_list_elem_of_le in Hin. lia.
Qed.

Lemma valid_kind node : valid node = true -> type node ∈ compiled_kinds.
Proof.
  destruct node; simpl. intros Hvalid.
  apply andb_prop in Hvalid as [Hkind _].
  apply andb_prop in Hkind as [Hkind _].
  by apply bool_decide_eq_true in Hkind.
Qed.

Lemma valid_children node nodes :
  valid node = true -> type node <> "table" ->
  children node = Some nodes -> forallb valid nodes = true.
Proof.
  destruct node; simpl. intros Hvalid Hkind ->.
  apply andb_prop in Hvalid as [_ Hnodes].
  apply String.eqb_neq in Hkind. by rewrite Hkind in Hnodes.
Qed.

Lemma valid_item node child :
  valid node = true -> type node = "listItem" ->
  children node = Some [child] -> type child <> "table".
Proof.
  destruct node; simpl. intros Hvalid -> -> Hchild.
  apply andb_prop in Hvalid as [Hitem _].
  apply andb_prop in Hitem as [_ Hitem].
  unfold item_children in Hitem. simpl in Hitem.
  by rewrite Hchild in Hitem.
Qed.

Lemma valid_parent node :
  valid node = true -> type node ∈ parent_kinds ->
  exists nodes, children node = Some nodes /\ forallb valid nodes = true.
Proof.
  intros Hvalid Hkind.
  assert (type node <> "table") as Htable.
  { intros Heq. rewrite Heq in Hkind. revert Hkind.
    by apply (bool_decide_eq_false_1 ("table" ∈ parent_kinds)). }
  destruct (children node) as [nodes|] eqn:Hnodes.
  - exists nodes. split; [done|]. by eapply valid_children.
  - destruct node; simpl in *. subst.
    apply andb_prop in Hvalid as [_ Hnone].
    apply String.eqb_neq in Htable. rewrite Htable in Hnone.
    apply negb_true_iff, bool_decide_eq_false in Hnone. done.
Qed.

(** The loop of [footnote] finds a free identifier before its fuel, the
    number of identifiers in use, runs out. *)
Lemma next_identifier_None identifiers fuel :
  forall identifier,
    next_identifier identifiers fuel identifier = None ->
    forall i, (i <= fuel)%nat ->
              String_of (identifier + N.of_nat i) ∈ identifiers.
Proof.
  induction fuel as [|fuel IH]; intros identifier; simpl;
    case_bool_decide as Hin; try discriminate.
  - intros _ i Hi. assert (i = 0%nat) as -> by lia. by rewrite N.add_0_r.
  - intros Hnext i Hi. destruct i as [|i]; [by rewrite N.add_0_r|].
    replace (identifier + N.of_nat (S i))%N
      with (identifier + 1 + N.of_nat i)%N by lia.
    apply IH; [done | lia].
Qed.

Lemma next_identifier_total identifiers :
  exists number,
    next_identifier identifiers (length identifiers) 1 = Some number.
Proof.
  destruct (next_identifier identifiers (length identifiers) 1)
    as [number|] eqn:Hnext; [by exists number|].
  exfalso. pose proof (next_identifier_None _ _ _ Hnext) as Hin.
  set (taken := (fun i => String_of (1 + N.of_nat i))
                  <$> seq 0 (S (length identifiers))).
  assert (NoDup taken) as Hdup.
  { apply NoDup_fmap_2; [|apply NoDup_seq].
    intros i j Hij. apply (inj pretty) in Hij. lia. }
  assert (taken ⊆+ identifiers) as Hsub.
  { apply NoDup_submseteq; [done|]. intros id Hid.
    apply list_elem_of_fmap in Hid as (i & -> & Hi).
    apply elem_of_seq in Hi. apply Hin. lia. }
  apply submseteq_length in Hsub.
  unfold taken in Hsub. rewrite length_fmap, length_seq in Hsub. lia.
Qed.

Section success.
Context `{Collaborators}.
Variable opts : Options.

Lemma all_from_runs bound V parent nodes :
  succeeds bound V ->
  forallb valid nodes = true ->
  Forall (fun node => (height node <= bound)%nat) nodes ->
  forall prev values, runs bound (all_from V parent nodes prev values).
Proof.
  intros HV. induction nodes as [|node nodes IH];
    intros Hvalid Hheight prev values; simpl.
  - apply runs_ret.
  - apply andb_prop in Hvalid as [Hnode Hnodes].
    apply Forall_cons in Hheight as [Hfirst Hrest].
    apply runs_bind; [by apply HV|]. intros value. by apply IH.
Qed.

Lemma all_runs bound V parent nodes :
  succeeds bound V ->
  children parent = Some nodes ->
  forallb valid nodes = true ->
  Forall (fun node => (height node <= bound)%nat) nodes ->
  runs bound (all V parent).
Proof.
  intros HV Hnodes Hvalid Hheight. unfold all. rewrite Hnodes.
  by apply all_from_runs.
Qed.

(** The children of a node of a parent kind are compiled. *)
Lemma all_node_runs bound V node :
  succeeds bound V ->
  type node ∈ parent_kinds ->
  valid node = true ->
  (height node <= S bound)%nat ->
  runs (S bound) (all V node).
Proof.
  intros HV Hkind Hvalid Hheight.
  destruct (valid_parent _ Hvalid Hkind) as (nodes & Hnodes & Hall).
  apply (runs_mono bound); [lia|].
  eapply all_runs; [done..|]. by eapply height_children.
Qed.
End success.

Lemma height_lt_children node nodes :
  children node = Some nodes ->
  Forall (fun child => (height child < height node)%nat) nodes.
Proof.
  intros Hnodes. destruct (height node) as [|bound] eqn:Hheight.
  { by destruct node. }
  eapply Forall_impl; [eapply (height_children _ _ bound); [done|lia]|].
  simpl. intros child Hchild. lia.
Qed.

Section compilers_succeed.
Context `{Collaborators}.
Variable opts : Options.

(** A compiler that wraps the compiled children of a node of a parent
    kind. *)
Ltac total_wrap :=
  intros bound V node parent HV Hkind Hvalid Hheight;
  apply runs_bind;
  [ apply all_node_runs; [done | rewrite Hkind; kind_in_list | done..]
  | intros values; apply runs_ret ].

Ltac total_pure :=
  intros bound V node parent HV Hkind Hvalid Hheight; apply runs_ret.

Lemma total_ignore kind : total_compiler kind (fun _ => ignore).
Proof. total_pure. Qed.

(** No valid node is of the kind of a helper. *)
Lemma total_helper kind :
  kind ∉ compiled_kinds -> total_compiler kind (helper kind).
Proof.
  intros Hkind bound V node parent HV Hnode Hvalid Hheight.
  destruct Hkind. rewrite <- Hnode. by apply valid_kind.
Qed.

Lemma total_code : total_compiler "code" (fun _ => code opts).
Proof. total_pure. Qed.

Lemma total_html : total_compiler "html" (fun _ => html opts).
Proof. total_pure. Qed.

Lemma total_rule : total_compiler "horizontalRule" (fun _ => rule opts).
Proof. total_pure. Qed.

Lemma total_inlineCode :
  total_compiler "inlineCode" (fun _ => inlineCode opts).
Proof. total_pure. Qed.

Lemma total_hardBreak : total_compiler "break" (fun _ => hardBreak opts).
Proof. total_pure. Qed.

Lemma total_image : total_compiler "image" (fun _ => image opts).
Proof. total_pure. Qed.

Lemma total_text : total_compiler "text" (fun _ => text opts).
Proof. total_pure. Qed.

Lemma total_footnoteReference :
  total_compiler "footnoteReference"
    (fun _ node _ => footnoteReference opts node).
Proof. total_pure. Qed.

Lemma total_escape : total_compiler "escape" (fun _ => escape opts).
Proof.
  intros bound V node parent HV Hkind Hvalid Hheight. unfold escape.
  destruct (String.eqb (value node) nl); apply runs_ret.
Qed.

Lemma total_blockquote : total_compiler "blockquote" (blockquote opts).
Proof. total_wrap. Qed.

Lemma total_list_node : total_compiler "list" (list_node opts).
Proof. total_wrap. Qed.

Lemma total_heading : total_compiler "heading" (heading opts).
Proof. total_wrap. Qed.

Lemma total_paragraph : total_compiler "paragraph" (paragraph opts).
Proof. total_wrap. Qed.

Lemma total_strong : total_compiler "strong" (strong opts).
Proof. total_wrap. Qed.

Lemma total_emphasis : total_compiler "emphasis" (emphasis opts).
Proof. total_wrap. Qed.

Lemma total_link_node : total_compiler "link" (link_node opts).
Proof. total_wrap. Qed.

Lemma total_strikethrough : total_compiler "delete" (strikethrough opts).
Proof. total_wrap. Qed.

Lemma total_footnote : total_compiler "footnote" (fun _ => footnote opts).
Proof.
  intros bound V node parent HV Hkind Hvalid Hheight ctx.
  destruct (valid_parent node Hvalid) as (nodes & Hnodes & Hall);
    [rewrite Hkind; kind_in_list|].
  destruct (next_identifier_total (map identifier (footnotes ctx)))
    as [number Hnumber].
  eexists _, _, [_]. split; [|split].
  - unfold footnote, bind, get. rewrite Hnumber. reflexivity.
  - reflexivity.
  - constructor; [|constructor]. exists nodes. repeat split; [done..|].
    eapply Forall_impl; [by eapply height_children|]. simpl. lia.
Qed.

Lemma failsafe_runs bound V node def :
  succeeds bound V ->
  type node <> "table" ->
  valid node = true ->
  (height node <= S bound)%nat ->
  runs (S bound) (failsafe V node def).
Proof.
  intros HV Hkind Hvalid Hheight. unfold failsafe.
  destruct (_ && _); [|apply runs_ret].
  apply runs_bind; [|intros result; apply runs_ret].
  destruct (children node) as [nodes|] eqn:Hnodes; [|apply runs_ret].
  apply runs_bind; [|intros values; apply runs_ret].
  apply (runs_mono bound); [lia|].
  eapply all_runs; [done..| |].
  - by eapply valid_children.
  - by eapply height_children.
Qed.

Lemma resolve_runs bound node : runs bound (resolve node).
Proof. intros ctx. exists (definitions ctx !! toUpperCase (identifier node)), ctx, [].
  repeat split; [by rewrite app_nil_r | constructor].
Qed.

Lemma total_linkReference :
  total_compiler "linkReference" (linkReference opts).
Proof.
  intros bound V node parent HV Hkind Hvalid Hheight. unfold linkReference.
  apply runs_bind; [apply resolve_runs|]. intros def.
  apply runs_bind; [apply failsafe_runs; [done | by rewrite Hkind | done..]|].
  intros literal. destruct (truthy literal); [apply runs_ret|].
  apply runs_bind; [|intros values; apply runs_ret].
  apply all_node_runs; [done | rewrite Hkind; kind_in_list | done..].
Qed.

Lemma total_imageReference :
  total_compiler "imageReference" (imageReference opts).
Proof.
  intros bound V node parent HV Hkind Hvalid Hheight. unfold imageReference.
  apply runs_bind; [apply resolve_runs|]. intros def.
  apply runs_bind; [apply failsafe_runs; [done | by rewrite Hkind | done..]|].
  intros literal. destruct (truthy literal); apply runs_ret.
Qed.
End compilers_succeed.

Lemma valid_unfold node :
  valid node =
  bool_decide (type node ∈ compiled_kinds) && item_children node &&
  (if String.eqb (type node) "table"
   then match children node with
        | Some rows => forallb (valid_row valid) rows
        | None => false
        end
   else match children node with
        | Some nodes => forallb valid nodes
        | None => negb (bool_decide (type node ∈ parent_kinds))
        end).
Proof. by destruct node. Qed.

Lemma valid_table node :
  valid node = true -> type node = "table" ->
  exists rows,
    children node = Some rows /\ forallb (valid_row valid) rows = true.
Proof.
  rewrite valid_unfold. intros Hvalid Hkind. rewrite Hkind in Hvalid.
  apply andb_prop in Hvalid as [_ Hrows]. simpl in Hrows.
  destruct (children node) as [rows|]; [by exists rows | discriminate].
Qed.

Section tables_succeed.
Context `{Collaborators}.
Variable opts : Options.

Lemma block_item_runs bound V node nodes :
  succeeds bound V ->
  children node = Some nodes ->
  forallb valid nodes = true ->
  Forall (fun child => (height child <= bound)%nat) nodes ->
  runs bound (block_item opts V node).
Proof.
  intros HV Hnodes Hvalid Hheight.
  apply runs_bind; [by eapply all_runs | intros values; apply runs_ret].
Qed.

(** [listItem] on an item whose children are valid, and not a table
    alone. *)
Lemma listItem_runs bound V node parent nodes :
  succeeds bound V ->
  children node = Some nodes ->
  forallb valid nodes = true ->
  Forall (fun child => (height child <= bound)%nat) nodes ->
  (forall child, nodes = [child] -> type child <> "table") ->
  runs bound (listItem opts V node parent).
Proof.
  intros HV Hnodes Hvalid Hheight Hsole ctx.
  destruct (single_of node parent ctx) as [[[child|] ctx1]|e] eqn:Hsingle.
  - apply single_of_Ok in Hsingle as Hone. destruct Hone as [-> Hone].
    specialize (Hone child eq_refl). rewrite Hnodes in Hone.
    injection Hone as ->. rewrite (listItem_single opts V _ _ child _ Hsingle).
    unfold single_of in Hsingle. rewrite Hnodes in Hsingle.
    destruct (loose parent); [discriminate|].
    destruct (children child) as [inner|] eqn:Hinner; [|discriminate].
    simpl in Hvalid. apply andb_prop in Hvalid as [Hchild _].
    apply Forall_cons in Hheight as [Hfirst _].
    apply runs_bind; [|intros values; apply runs_ret].
    eapply all_runs; [done..| |].
    + eapply valid_children; [done | by apply Hsole | done].
    + eapply Forall_impl; [by eapply height_lt_children|]. simpl. lia.
  - apply single_of_Ok in Hsingle as Hone. destruct Hone as [-> _].
    rewrite (listItem_block opts V _ _ _ Hsingle).
    by eapply block_item_runs.
  - exfalso. unfold single_of in Hsingle. rewrite Hnodes in Hsingle.
    destruct (loose parent); [discriminate|].
    destruct nodes as [|child [|second rest]]; discriminate.
Qed.

Lemma total_listItem : total_compiler "listItem" (listItem opts).
Proof.
  intros bound V node parent HV Hkind Hvalid Hheight.
  destruct (valid_parent node Hvalid) as (nodes & Hnodes & Hall);
    [rewrite Hkind; kind_in_list|].
  apply (runs_mono bound); [lia|].
  eapply listItem_runs; [done..| |].
  - by eapply height_children.
  - intros child ->. by eapply valid_item.
Qed.

Lemma table_cells_runs bound V name align cells :
  succeeds bound V ->
  forallb (valid_cell valid) cells = true ->
  Forall (fun cell => (height cell <= bound)%nat) cells ->
  forall pos out,
    runs bound (table_cells opts V name align (Some cells) pos out).
Proof.
  intros HV Hvalid Hheight. induction pos as [|pos IH]; intros out.
  - apply runs_ret.
  - change (runs bound
              (content <- cell_content V cells pos;;
               table_cells opts V name align (Some cells) pos
                 (array_set pos
                    (cell_markup opts name align cells pos content) out))).
    apply runs_bind; [|intros content; apply IH].
    unfold cell_content. destruct (cells !! pos) as [cell|] eqn:Hcell;
      [|apply runs_ret].
    apply runs_bind; [|intros values; apply runs_ret].
    apply list_elem_of_lookup_2 in Hcell.
    rewrite forallb_forall in Hvalid.
    specialize (Hvalid cell (proj1 (list_elem_of_In _ _) Hcell)).
    rewrite Forall_forall in Hheight. specialize (Hheight cell Hcell).
    unfold valid_cell in Hvalid. apply andb_prop in Hvalid as [_ Hvalid].
    destruct (children cell) as [nodes|] eqn:Hnodes; [|discriminate].
    eapply all_runs; [done..|].
    eapply Forall_impl; [by eapply height_lt_children|]. simpl. lia.
Qed.

Lemma table_rows_runs bound V node rows :
  succeeds bound V ->
  forallb (valid_row valid) rows = true ->
  Forall (fun row => (height row <= bound)%nat) rows ->
  forall index result,
    (index <= length rows)%nat ->
    runs bound (table_rows opts V node rows index result).
Proof.
  intros HV Hvalid Hheight. induction index as [|index IH];
    intros result Hle.
  - apply runs_ret.
  - destruct (lookup_lt_is_Some_2 rows index) as [row Hrow]; [lia|].
    simpl. rewrite Hrow.
    apply list_elem_of_lookup_2 in Hrow.
    rewrite forallb_forall in Hvalid.
    specialize (Hvalid row (proj1 (list_elem_of_In _ _) Hrow)).
    rewrite Forall_forall in Hheight. specialize (Hheight row Hrow).
    unfold valid_row in Hvalid. apply andb_prop in Hvalid as [_ Hvalid].
    destruct (children row) as [cells|] eqn:Hcells; [|discriminate].
    apply runs_bind; [|intros out; apply IH; lia].
    apply table_cells_runs; [done..|].
    eapply Forall_impl; [by eapply height_lt_children|]. simpl. lia.
Qed.

Lemma total_table : total_compiler "table" (table opts).
Proof.
  intros bound V node parent HV Hkind Hvalid Hheight.
  destruct (valid_table node Hvalid Hkind) as (rows & Hrows & Hall).
  unfold table. rewrite Hrows.
  apply runs_bind; [|intros result; apply runs_ret].
  apply (runs_mono bound); [lia|].
  apply table_rows_runs; [done.. | | done]. by eapply height_children.
Qed.
End tables_succeed.

Lemma height_positive node : (0 < height node)%nat.
Proof. destruct node; simpl; lia. Qed.

Lemma forallb_lookup {A} (test : A -> bool) (l : list A) x :
  forallb test l = true -> x ∈ l -> test x = true.
Proof.
  intros Hall Hx. rewrite forallb_forall in Hall. apply Hall.
  by apply list_elem_of_In.
Qed.

(** The footnote definitions the pre-pass stores are ready. *)
Lemma collect_ready node :
  forall bound,
    admissible node -> (height node <= bound)%nat ->
    Forall (ready bound) (collect "footnoteDefinition" node).
Proof.
  induction node as [node IH] using Node_children_ind.
  intros bound Hnode Hheight. rewrite collect_unfold. apply Forall_app.
  assert (Hinner : forall nodes,
             children node = Some nodes ->
             Forall admissible nodes ->
             Forall (ready bound)
               (flat_map (collect "footnoteDefinition") nodes)).
  { intros nodes Hnodes Hall. specialize (IH nodes Hnodes).
    pose proof (height_lt_children _ _ Hnodes) as Hlt. clear Hnodes.
    induction nodes as [|first rest IHrest]; simpl; [constructor|].
    apply Forall_cons in IH as [IHfirst IH].
    apply Forall_cons in Hall as [Hfirst Hrest].
    apply Forall_cons in Hlt as [Hlt1 Hlt].
    apply Forall_app. split; [apply IHfirst; [done | lia] | by apply IHrest]. }
  destruct Hnode as [Hvalid | [Hrow | Hcell]].
  - destruct (String.eqb_spec (type node) "table") as [Htable | Hother].
    + destruct (valid_table _ Hvalid Htable) as (rows & Hrows & Hall).
      rewrite Htable, Hrows. split; [constructor|].
      apply Hinner; [done|]. apply Forall_forall. intros row Hin.
      right. left. by eapply forallb_lookup.
    + split.
      * destruct (String.eqb_spec (type node) "footnoteDefinition")
          as [Hkind|_]; constructor; [|constructor].
        destruct (valid_parent _ Hvalid) as (nodes & Hnodes & Hall);
          [rewrite Hkind; kind_in_list|].
        exists nodes. repeat split; [done..|].
        eapply Forall_impl; [by eapply height_lt_children|]. simpl. lia.
      * destruct (children node) as [nodes|] eqn:Hnodes; [|constructor].
        apply Hinner; [done|]. apply Forall_forall. intros child Hin.
        left. eapply forallb_lookup; [|done]. by eapply valid_children.
  - unfold valid_row, table_part in Hrow.
    apply andb_prop in Hrow as [Hkind Hcells].
    apply negb_true_iff in Hkind. rewrite Hkind. split; [constructor|].
    destruct (children node) as [cells|] eqn:Hnodes; [|constructor].
    apply Hinner; [done|]. apply Forall_forall. intros cell Hin.
    right. right. by eapply forallb_lookup.
  - unfold valid_cell, table_part in Hcell.
    apply andb_prop in Hcell as [Hkind Hnodes'].
    apply negb_true_iff in Hkind. rewrite Hkind. split; [constructor|].
    destruct (children node) as [nodes|] eqn:Hnodes; [|constructor].
    apply Hinner; [done|]. apply Forall_forall. intros child Hin.
    left. by eapply forallb_lookup.
Qed.

Section compile_succeeds.
Context `{Collaborators}.
Variable opts : Options.

(** Every compiler of the table but [root] returns on the valid nodes of
    its kind. *)
Lemma visitors_total :
  Forall (fun entry : string * Compiler =>
            entry.1 <> "root" -> total_compiler entry.1 entry.2)
    (visitor_entries opts).
Proof.
  unfold visitor_entries.
  repeat (constructor;
          [first [ intros Hroot; by destruct Hroot
                 | intros _; simpl;
                   first [ apply total_helper; kind_in_list
                         | apply total_ignore | apply total_footnote
                         | apply total_blockquote | apply total_list_node
                         | apply total_listItem | apply total_paragraph
                         | apply total_heading | apply total_table
                         | apply total_code | apply total_html
                         | apply total_rule | apply total_inlineCode
                         | apply total_strong | apply total_emphasis
                         | apply total_hardBreak | apply total_link_node
                         | apply total_image
                         | apply total_footnoteReference
                         | apply total_linkReference
                         | apply total_imageReference
                         | apply total_strikethrough | apply total_text
                         | apply total_escape ] ] |]).
  constructor.
Qed.

(** Every compiled kind has a compiler in the table. *)
Lemma compiled_kinds_registered :
  Forall (fun kind => is_Some (visitors opts !! kind) /\ kind <> "root")
    compiled_kinds.
Proof.
  unfold compiled_kinds.
  repeat (constructor; [split; [eexists; reflexivity | discriminate]|]).
  constructor.
Qed.

Lemma visit_succeeds fuel : succeeds fuel (visit opts fuel).
Proof.
  induction fuel as [|fuel IH]; intros node parent Hvalid Hheight.
  { pose proof (height_positive node). lia. }
  pose proof compiled_kinds_registered as Hkinds.
  rewrite Forall_forall in Hkinds.
  destruct (Hkinds _ (valid_kind _ Hvalid)) as [[compiler Hcompiler] Hroot].
  rewrite (visit_dispatch opts _ compiler fuel node parent Hcompiler eq_refl).
  pose proof visitors_total as Hall. rewrite Forall_forall in Hall.
  by apply (Hall _ (visitors_lookup _ _ _ Hcompiler) Hroot).
Qed.

Lemma footnote_items_runs bound V defs :
  succeeds bound V ->
  (2 <= bound)%nat ->
  Forall (ready bound) defs ->
  forall results, runs bound (footnote_items opts V defs results).
Proof.
  intros HV Hbound Hdefs.
  induction Hdefs as [|def defs (nodes & Hnodes & Hvalid & Hheight) _ IH];
    intros results; simpl; [apply runs_ret|].
  rewrite Hnodes. apply runs_bind; [|intros item; apply IH].
  apply (listItem_runs opts bound V _ _ (nodes ++ [backref def])).
  - done.
  - reflexivity.
  - rewrite forallb_app, Hvalid. reflexivity.
  - apply Forall_app. split; [done|]. constructor; [|constructor].
    simpl. lia.
  - intros child Hchild. destruct nodes as [|first [|second rest]];
      try discriminate. by injection Hchild as <-.
Qed.

Lemma generateFootnotes_succeeds bound V ctx :
  succeeds bound V ->
  (2 <= bound)%nat ->
  Forall (ready bound) (footnotes ctx) ->
  exists out ctx', generateFootnotes opts V ctx = Ok (out, ctx').
Proof.
  intros HV Hbound Hstore. unfold generateFootnotes, bind at 1, get.
  destruct (footnotes ctx) as [|def defs]; [by eexists _, _|].
  destruct (footnote_items_runs bound V (def :: defs) HV Hbound Hstore [] ctx)
    as (results & ctx' & added & Hrun & _).
  unfold bind. rewrite Hrun. by eexists _, _.
Qed.

(** C1, as the code has it: the compilation of a valid tree returns when
    it is given more fuel than the height of the tree: a tree is valid
    when its root is its only root, the kind of every other node has a
    compiler in the table (the kind of a rule being [horizontalRule]),
    rows are found as the children of tables only, every node of a parent
    kind, row and cell has children, and no list item has a table as its
    only child. *)
Theorem compile_succeeds :
  forall fuel tree,
    valid_tree tree = true ->
    (height tree < fuel)%nat ->
    exists out ctx', compile opts fuel tree = Ok (out, ctx').
Proof.
  intros fuel tree Htree Hheight. unfold valid_tree in Htree.
  apply andb_prop in Htree as [Hkind Hvalid].
  apply String.eqb_eq in Hkind.
  destruct (children tree) as [nodes|] eqn:Hnodes; [|discriminate].
  pose proof (height_positive tree) as Hpositive.
  pose proof (height_lt_children _ _ Hnodes) as Hlt.
  assert (Hnodes' : Forall (fun node => (height node <= fuel)%nat) nodes).
  { eapply Forall_impl; [exact Hlt|]. simpl. lia. }
  unfold compile, root, bind at 1, put.
  destruct (all_runs fuel (visit opts fuel) tree nodes (visit_succeeds fuel)
              Hnodes Hvalid Hnodes'
              (mkContext (index_definitions (collect "definition" tree))
                 (collect "footnoteDefinition" tree)))
    as (values & ctx2 & added & Hrun & Hstore & Hready).
  unfold bind at 1. rewrite Hrun.
  destruct (generateFootnotes_succeeds fuel (visit opts fuel) ctx2
              (visit_succeeds fuel)) as (notes & ctx3 & Hnotes); [lia | |].
  - rewrite Hstore. simpl. apply Forall_app. split; [|done].
    rewrite collect_unfold, Hkind, Hnodes. simpl.
    clear Hrun Hnodes Hlt. induction nodes as [|first rest IH]; simpl;
      [constructor|].
    apply andb_prop in Hvalid as [Hfirst Hrest].
    apply Forall_cons in Hnodes' as [Hfirst' Hrest'].
    apply Forall_app. split; [|by apply IH].
    apply collect_ready; [by left | done].
  - unfold bind. rewrite Hnotes. by eexists _, _.
Qed.
End compile_succeeds.

Lemma compile_succeeds_witness :
  exists out ctx',
    @compile spec_collaborators plain 6 sample_document = Ok (out, ctx').
Proof.
  apply (@compile_succeeds spec_collaborators plain 6 sample_document).
  - reflexivity.
  - vm_compute. lia.
Defined.

(** C1, as stated, fails on a root whose only child is of the documented
    kind [rule]: the table has the compiler of rules under
    [horizontalRule], and the dispatcher raises the Unsupported-Node error
    for [rule], whatever the fuel. *)
Lemma dispatch_claim_fails : ~ dispatch_claim.
Proof.
  intros Hclaim.
  destruct (Hclaim spec_collaborators plain
              (parent_of "root" [node_of "rule"]) eq_refl)
    as (fuel & out & ctx' & Hrun).
  destruct fuel; vm_compute in Hrun; discriminate Hrun.
Qed.

(** The error names the kind. *)
Example rule_unsupported :
  output (@compile spec_collaborators plain 2
            (parent_of "root" [node_of "rule"])) =
  Err (UnsupportedNode "rule").
Proof. reflexivity. Qed.

(** A list item of a tight list whose only child is a table has the rows
    of the table dispatched on, for which the table of compilers has no
    entry. *)
Example item_table_unsupported :
  output (@compile spec_collaborators plain 6
            (parent_of "root"
               [parent_of "list"
                  [parent_of "listItem"
                     [parent_of "table" [parent_of "tableRow" []]]]])) =
  Err (UnsupportedNode "tableRow").
Proof. reflexivity. Qed.

(** * Further properties *)

(** ** The loop of [all] *)

Section all_loop.
Context `{Collaborators}.
Variable V : Visit.

Lemma all_from_arranged parent nodes :
  forall prev values ctx,
    all_from V parent nodes prev values ctx =
    (compiled <- visit_each V parent nodes;;
     ret (values ++ arrange prev nodes compiled)%list) ctx.
Proof.
  induction nodes as [|node nodes IH]; intros prev values ctx.
  - unfold bind. simpl. by rewrite app_nil_r.
  - simpl. unfold bind at 1 2 3.
    destruct (V node parent ctx) as [[value ctx1]|e]; [|reflexivity].
    rewrite IH. unfold bind.
    destruct (visit_each V parent nodes ctx1) as [[others ctx2]|e];
      [|reflexivity].
    simpl. destruct (truthy value); simpl; [|reflexivity].
    by rewrite <- app_assoc.
Qed.

(** [all] compiles the children in order, each once, and returns their
    values as [arrange] keeps them: the empty values are dropped, and a
    value is trimmed on its left when the sibling just before its node is
    a break or an escaped line feed, whatever that sibling compiled to. *)
Theorem all_arranged :
  forall parent nodes ctx,
    children parent = Some nodes ->
    all V parent ctx =
    (compiled <- visit_each V parent nodes;;
     ret (arrange None nodes compiled)) ctx.
Proof.
  intros parent nodes ctx Hnodes. unfold all. rewrite Hnodes.
  apply all_from_arranged.
Qed.

Lemma all_from_values parent nodes :
  forall prev values ctx out ctx',
    all_from V parent nodes prev values ctx = Ok (out, ctx') ->
    exists kept,
      out = (values ++ kept)%list /\
      (length kept <= length nodes)%nat /\
      (after_break prev = false ->
       forallb (fun node => negb (after_break (Some node))) nodes = true ->
       Forall (fun value => value <> "") kept).
Proof.
  induction nodes as [|node nodes IH]; intros prev values ctx out ctx' Hrun;
    simpl in Hrun.
  - injection Hrun as <- <-. exists []. rewrite app_nil_r.
    repeat split; [done|]. constructor.
  - inv_bind Hrun as value ctx1 Hvalue.
    apply IH in Hrun as (kept & -> & Hlen & Hkept).
    destruct (truthy value) eqn:Hvalue'.
    + eexists (_ :: kept). rewrite <- app_assoc. repeat split.
      * simpl. lia.
      * intros Hprev Hall. simpl in Hall.
        apply andb_prop in Hall as [Hnode Hall].
        apply negb_true_iff in Hnode. rewrite Hprev.
        constructor; [by apply truthy_true | by apply Hkept].
    + exists kept. repeat split; [simpl; lia|].
      intros Hprev Hall. simpl in Hall.
      apply andb_prop in Hall as [Hnode Hall].
      apply negb_true_iff in Hnode. by apply Hkept.
Qed.

(** [all] returns at most one value for each child, and, when no child is
    a break or an escaped line feed, none of the values it returns is
    empty. *)
Theorem all_values :
  forall parent nodes ctx values ctx',
    children parent = Some nodes ->
    all V parent ctx = Ok (values, ctx') ->
    (length values <= length nodes)%nat /\
    (forallb (fun node => negb (after_break (Some node))) nodes = true ->
     Forall (fun value => value <> "") values).
Proof.
  intros parent nodes ctx values ctx' Hnodes Hrun. unfold all in Hrun.
  rewrite Hnodes in Hrun.
  apply all_from_values in Hrun as (kept & -> & Hlen & Hkept).
  split; [done|]. intros Hall. by apply Hkept.
Qed.
End all_loop.

Lemma all_arranged_witness :
  @all spec_collaborators (@visit spec_collaborators plain 1)
    (parent_of "paragraph" [text_of "a"; node_of "break"; text_of "  b"])
    fresh =
  Ok (["a"; "<br>" +:+ nl; "b"], fresh).
Proof.
  rewrite (@all_arranged spec_collaborators (@visit spec_collaborators plain 1)
             (parent_of "paragraph"
                [text_of "a"; node_of "break"; text_of "  b"])
             [text_of "a"; node_of "break"; text_of "  b"] fresh eq_refl).
  reflexivity.
Defined.

Lemma all_values_witness :
  (length ["a"; "b"] <= 3)%nat /\
  Forall (fun value : string => value <> "") ["a"; "b"].
Proof.
  destruct (@all_values spec_collaborators (@visit spec_collaborators plain 1)
              (parent_of "paragraph"
                 [text_of "a"; text_of ""; text_of "b"])
              [text_of "a"; text_of ""; text_of "b"] fresh ["a"; "b"] fresh
              eq_refl eq_refl) as [Hlen Hall].
  split; [exact Hlen | by apply Hall].
Defined.

(** ** The language of a code block *)

Lemma first_word_chars_split (s : string) :
  exists rest,
    s = first_word_chars s +:+ rest /\
    no_blank (first_word_chars s) = true /\
    blank_start rest = true.
Proof.
  induction s as [|c s (rest & Hs & Hword & Hrest)]; simpl.
  - by exists "".
  - destruct (is_blank c) eqn:Hc.
    + exists (String c s). by repeat split.
    + exists rest. repeat split; [by rewrite append_cons, <- Hs | | done].
      simpl. by rewrite Hc.
Qed.

(** The class of a code block is [language-] followed by the longest
    prefix of [lang] without space or tab; the block has no class when
    [lang] is missing, empty, or starts with a space or a tab.  The
    content is the value followed by a line feed, with its tabs expanded,
    or empty for an empty value, and is encoded. *)
Theorem code_language `{Collaborators} :
  forall opts node parent ctx,
    exists class,
      code opts node parent ctx =
      Ok (h opts (Some node) "pre" []
            (Some (h opts (Some node) "code" [("class", class)]
                     (Some (encode opts
                              (if truthy (value node)
                               then detab (value node +:+ nl) else "")))
                     false))
            false, ctx) /\
      match lang node with
      | None => class = AttrAbsent
      | Some l =>
          if blank_start l then class = AttrAbsent
          else exists word rest,
              l = word +:+ rest /\ word <> "" /\
              no_blank word = true /\ blank_start rest = true /\
              class = AttrString ("language-" +:+ word)
      end.
Proof.
  intros opts node parent ctx. eexists. split; [reflexivity|].
  destruct (lang node) as [l|]; [|reflexivity].
  destruct l as [|c l]; [reflexivity|]. simpl. unfold FIRST_WORD. simpl.
  destruct (is_blank c) eqn:Hc; [reflexivity|]. simpl.
  destruct (first_word_chars_split l) as (rest & Hl & Hword & Hrest).
  exists (String c (first_word_chars l)), rest. repeat split.
  - by rewrite append_cons, <- Hl.
  - discriminate.
  - simpl. by rewrite Hc.
  - done.
Qed.

(** ** Inline footnotes *)

Lemma next_identifier_bound identifiers fuel :
  forall identifier number,
    next_identifier identifiers fuel identifier = Some number ->
    (number <= identifier + N.of_nat fuel)%N.
Proof.
  induction fuel as [|fuel IH]; intros identifier number; simpl;
    case_bool_decide as Hin; try discriminate.
  - intros [= <-]. lia.
  - intros Hnext. apply IH in Hnext. lia.
  - intros [= <-]. lia.
Qed.

(** [footnote] always returns: its search of an identifier ends on a
    positive number that is at most one more than the number of records
    of the store and whose string no record has as identifier; the store
    gets one record more, with that string as identifier and the children
    and the position of the footnote; the definitions are left as they
    are; the value returned is the reference to that identifier. *)
Theorem footnote_allocates `{Collaborators} :
  forall opts node parent ctx,
    exists number : N,
      (0 < number <= N.of_nat (length (footnotes ctx)) + 1)%N /\
      (String_of number ∉ map identifier (footnotes ctx)) /\
      footnote opts node parent ctx =
      footnoteReference opts
        (set_position (position node)
           (set_identifier (String_of number)
              (set_type "footnoteReference" emptyObject)))
        (mkContext (definitions ctx)
           (footnotes ctx ++
            [set_position (position node)
               (set_children (children node)
                  (set_identifier (String_of number)
                     (set_type "footnoteDefinition" emptyObject)))])).
Proof.
  intros opts node parent ctx.
  destruct (next_identifier_total (map identifier (footnotes ctx)))
    as [number Hnumber].
  exists number.
  pose proof (next_identifier_first _ _ _ _ Hnumber) as (Hle & Hfree & _).
  pose proof (next_identifier_bound _ _ _ _ Hnumber) as Hbound.
  rewrite length_map in Hbound. repeat split; [lia | lia | done |].
  unfold footnote, bind at 1, get. by rewrite Hnumber.
Qed.

(** ** The footnote section *)

Lemma footnote_items_each `{Collaborators} opts V defs :
  forall results ctx,
    footnote_items opts V defs results ctx =
    (items <- items_each opts V defs;; ret (results ++ items)%list) ctx.
Proof.
  induction defs as [|def defs IH]; intros results ctx; simpl.
  - unfold bind. simpl. by rewrite app_nil_r.
  - destruct (children def) as [nodes|]; [|reflexivity].
    unfold bind.
    destruct (listItem opts V (footnote_item def nodes) emptyObject ctx)
      as [[item ctx1]|e]; [|reflexivity].
    rewrite IH. unfold bind.
    destruct (items_each opts V defs ctx1) as [[others ctx2]|e];
      [|reflexivity].
    simpl. by rewrite <- app_assoc.
Qed.

Lemma items_each_length `{Collaborators} opts V defs :
  forall ctx items ctx',
    items_each opts V defs ctx = Ok (items, ctx') ->
    length items = length defs.
Proof.
  induction defs as [|def defs IH]; intros ctx items ctx' Hrun;
    simpl in Hrun.
  - by injection Hrun as <- <-.
  - destruct (children def) as [nodes|]; [|discriminate].
    inv_bind Hrun as item ctx1 Hitem.
    inv_bind Hrun as others ctx2 Hothers. injection Hrun as <- <-.
    apply IH in Hothers. simpl. lia.
Qed.

(** The footnote section is the empty string, and the context is left as
    it is, when the store is empty; otherwise it is the [footnotes]
    division, holding a rule and an ordered list, followed by a line feed,
    and the items of the list are those of the records the store held when
    the section was entered, one for each and in their order, each
    compiled by [listItem] from the children of its record and the back
    reference: a record stored while the section is generated has no
    item. *)
Theorem generateFootnotes_items `{Collaborators} :
  forall opts V ctx,
    generateFootnotes opts V ctx =
    match footnotes ctx with
    | [] => Ok ("", ctx)
    | _ :: _ =>
        (items <- items_each opts V (footnotes ctx);;
         ret (h opts None "div" [("class", AttrString "footnotes")]
                (Some (h opts None "hr" [] None false +:+ nl +:+
                       h opts None "ol" [] (Some (join nl items)) true))
                true +:+ nl)) ctx
    end /\
    forall items ctx',
      items_each opts V (footnotes ctx) ctx = Ok (items, ctx') ->
      length items = length (footnotes ctx).
Proof.
  intros opts V ctx. split; [|apply items_each_length].
  unfold generateFootnotes, bind at 1, get.
  destruct (footnotes ctx) as [|def defs]; [reflexivity|].
  unfold bind at 1. rewrite footnote_items_each. unfold bind.
  by destruct (items_each opts V (def :: defs) ctx) as [[items ctx1]|e].
Qed.

Lemma generateFootnotes_items_witness :
  let store :=
    [definition_of "a"
       [parent_of "paragraph" [parent_of "footnote" [text_of "b"]]]] in
  exists ctx',
    @generateFootnotes spec_collaborators plain
      (@visit spec_collaborators plain 3) (mkContext ∅ store) =
    Ok (@h spec_collaborators plain None "div"
          [("class", AttrString "footnotes")]
          (Some (@h spec_collaborators plain None "hr" [] None false +:+ nl
                 +:+ @h spec_collaborators plain None "ol" []
                       (Some
                          (join nl
                             (match @items_each spec_collaborators plain
                                      (@visit spec_collaborators plain 3)
                                      store (mkContext ∅ store)
                              with
                              | Ok (items, _) => items
                              | Err _ => []
                              end)))
                       true))
          true +:+ nl, ctx') /\
    map identifier (footnotes ctx') = ["a"; "1"].
Proof.
  intros store. eexists.
  rewrite (proj1 (@generateFootnotes_items spec_collaborators plain
                    (@visit spec_collaborators plain 3)
                    (mkContext ∅ store))).
  split; [vm_compute; reflexivity | reflexivity].
Defined.

(** ** What every compiler keeps *)

Section invariants.
Context `{Collaborators}.
Variable opts : Options.

(** The nodes looked at, the relation kept between the contexts, and the
    errors let through. *)
Variable P : Node -> bool.
Variable I : Context -> Context -> Prop.
Variable E : Error -> Prop.

Hypothesis P_children :
  forall node nodes,
    P node = true -> children node = Some nodes -> forallb P nodes = true.
Hypothesis I_refl : forall ctx, I ctx ctx.
Hypothesis I_trans :
  forall ctx ctx' ctx'', I ctx ctx' -> I ctx' ctx'' -> I ctx ctx''.
Hypothesis E_type : E TypeError.

Lemma keeps_ret {A} (Q : A -> Prop) (a : A) : Q a -> keeps I E Q (ret a).
Proof. intros Ha ctx. simpl. by split. Qed.

Lemma keeps_throw {A} (Q : A -> Prop) (e : Error) :
  E e -> keeps I E Q (throw e).
Proof. intros He ctx. exact He. Qed.

Lemma keeps_bind {A B} (Q : A -> Prop) (Q' : B -> Prop) (m : M A)
    (k : A -> M B) :
  keeps I E Q m ->
  (forall a, Q a -> keeps I E Q' (k a)) ->
  keeps I E Q' (bind m k).
Proof.
  intros Hm Hk ctx. unfold bind. specialize (Hm ctx).
  destruct (m ctx) as [[a ctx1]|e]; [|done]. destruct Hm as [Hfirst Ha].
  specialize (Hk a Ha ctx1). destruct (k a ctx1) as [[b ctx2]|e]; [|done].
  destruct Hk as [Hsecond Hb]. split; [by eapply I_trans | done].
Qed.

Variable V : Visit.
Hypothesis V_kept : kept P I E V.

Lemma all_from_keeps parent nodes :
  forallb P nodes = true ->
  forall prev values,
    keeps I E (fun _ => True) (all_from V parent nodes prev values).
Proof.
  induction nodes as [|node nodes IH]; intros Hnodes prev values; simpl.
  - by apply keeps_ret.
  - apply andb_prop in Hnodes as [Hnode Hnodes].
    eapply keeps_bind; [by apply V_kept|]. intros value _. by apply IH.
Qed.

Lemma all_keeps parent :
  P parent = true -> keeps I E (fun _ => True) (all V parent).
Proof.
  intros Hparent. unfold all.
  destruct (children parent) as [nodes|] eqn:Hnodes;
    [|by apply keeps_throw].
  apply all_from_keeps. by eapply P_children.
Qed.

(** A compiler that wraps the compiled children of its node. *)
Ltac keeps_wrap :=
  intros node parent Hnode;
  eapply keeps_bind; [by apply all_keeps | intros values _; by apply keeps_ret].

Lemma blockquote_keeps node parent :
  P node = true -> keeps I E (fun _ => True) (blockquote opts V node parent).
Proof. revert node parent. keeps_wrap. Qed.

Lemma list_node_keeps node parent :
  P node = true -> keeps I E (fun _ => True) (list_node opts V node parent).
Proof. revert node parent. keeps_wrap. Qed.

Lemma heading_keeps node parent :
  P node = true -> keeps I E (fun _ => True) (heading opts V node parent).
Proof. revert node parent. keeps_wrap. Qed.

Lemma paragraph_keeps node parent :
  P node = true -> keeps I E (fun _ => True) (paragraph opts V node parent).
Proof. revert node parent. keeps_wrap. Qed.

Lemma strong_keeps node parent :
  P node = true -> keeps I E (fun _ => True) (strong opts V node parent).
Proof. revert node parent. keeps_wrap. Qed.

Lemma emphasis_keeps node parent :
  P node = true -> keeps I E (fun _ => True) (emphasis opts V node parent).
Proof. revert node parent. keeps_wrap. Qed.

Lemma link_node_keeps node parent :
  P node = true -> keeps I E (fun _ => True) (link_node opts V node parent).
Proof. revert node parent. keeps_wrap. Qed.

Lemma strikethrough_keeps node parent :
  P node = true ->
  keeps I E (fun _ => True) (strikethrough opts V node parent).
Proof. revert node parent. keeps_wrap. Qed.

Lemma escape_keeps node parent :
  keeps I E (fun _ => True) (escape opts node parent).
Proof.
  unfold escape. destruct (String.eqb (value node) nl); by apply keeps_ret.
Qed.

Lemma single_of_keeps node parent :
  P node = true ->
  keeps I E
    (fun single =>
       P (match single with Some child => child | None => node end) = true)
    (single_of node parent).
Proof.
  intros Hnode. unfold single_of.
  destruct (loose parent); [by apply keeps_ret|].
  destruct (children node) as [[|child [|second rest]]|] eqn:Hnodes;
    try (by apply keeps_ret); [|by apply keeps_throw].
  apply keeps_ret. destruct (children child); [|done].
  pose proof (P_children _ _ Hnode Hnodes) as Hall. simpl in Hall.
  by apply andb_prop in Hall as [Hchild _].
Qed.

Lemma listItem_keeps node parent :
  P node = true -> keeps I E (fun _ => True) (listItem opts V node parent).
Proof.
  intros Hnode. unfold listItem.
  eapply keeps_bind; [by apply single_of_keeps|]. intros single Hsingle.
  eapply keeps_bind; [by apply all_keeps|]. intros values _.
  by apply keeps_ret.
Qed.

Lemma failsafe_keeps node def :
  P node = true -> keeps I E (fun _ => True) (failsafe V node def).
Proof.
  intros Hnode. unfold failsafe. destruct (_ && _); [|by apply keeps_ret].
  eapply (keeps_bind (fun _ => True)); [|intros result _; by apply keeps_ret].
  destruct (children node); [|by apply keeps_ret].
  eapply keeps_bind; [by apply all_keeps|]. intros values _.
  by apply keeps_ret.
Qed.

Lemma resolve_keeps node : keeps I E (fun _ => True) (resolve node).
Proof. intros ctx. simpl. by split. Qed.

Lemma linkReference_keeps node parent :
  P node = true ->
  keeps I E (fun _ => True) (linkReference opts V node parent).
Proof.
  intros Hnode. unfold linkReference.
  eapply keeps_bind; [apply resolve_keeps|]. intros def _.
  eapply keeps_bind; [by apply failsafe_keeps|]. intros literal _.
  destruct (truthy literal); [by apply keeps_ret|].
  eapply keeps_bind; [by apply all_keeps|]. intros values _.
  by apply keeps_ret.
Qed.

Lemma imageReference_keeps node parent :
  P node = true ->
  keeps I E (fun _ => True) (imageReference opts V node parent).
Proof.
  intros Hnode. unfold imageReference.
  eapply keeps_bind; [apply resolve_keeps|]. intros def _.
  eapply keeps_bind; [by apply failsafe_keeps|]. intros literal _.
  destruct (truthy literal); by apply keeps_ret.
Qed.

Lemma table_cells_keeps name align row :
  forallb P (default [] row) = true ->
  forall pos out,
    keeps I E (fun _ => True) (table_cells opts V name align row pos out).
Proof.
  intros Hcells. induction pos as [|pos IH]; intros out; simpl.
  - by apply keeps_ret.
  - destruct row as [cells|]; [|by apply keeps_throw].
    eapply (keeps_bind (fun _ => True)); [|intros content _; apply IH].
    destruct (cells !! pos) as [cell|] eqn:Hcell; [|by apply keeps_ret].
    eapply keeps_bind; [|intros values _; by apply keeps_ret].
    apply all_keeps. eapply forallb_lookup; [exact Hcells|].
    by eapply list_elem_of_lookup_2.
Qed.

Lemma table_rows_keeps node rows :
  forallb P rows = true ->
  forall index result,
    keeps I E (fun _ => True) (table_rows opts V node rows index result).
Proof.
  intros Hrows. induction index as [|index IH]; intros result; simpl.
  - by apply keeps_ret.
  - destruct (rows !! index) as [row|] eqn:Hrow; [|by apply keeps_throw].
    eapply keeps_bind; [|intros out _; apply IH].
    apply table_cells_keeps.
    assert (P row = true) as Hcell.
    { eapply forallb_lookup; [exact Hrows|]. by eapply list_elem_of_lookup_2. }
    destruct (children row) as [cells|] eqn:Hcells; [|done].
    by eapply P_children.
Qed.

Lemma table_keeps node parent :
  P node = true -> keeps I E (fun _ => True) (table opts V node parent).
Proof.
  intros Hnode. unfold table.
  destruct (children node) as [rows|] eqn:Hrows; [|by apply keeps_throw].
  eapply keeps_bind; [|intros result _; by apply keeps_ret].
  apply table_rows_keeps. by eapply P_children.
Qed.

(** The items of the footnote section, for records whose children are
    looked at. *)
Hypothesis P_item :
  forall def nodes,
    forallb P nodes = true -> P (footnote_item def nodes) = true.

Lemma footnote_items_keeps defs :
  Forall (fun def => forallb P (default [] (children def)) = true) defs ->
  forall results,
    keeps I E (fun _ => True) (footnote_items opts V defs results).
Proof.
  induction 1 as [|def defs Hdef _ IH]; intros results; simpl.
  - by apply keeps_ret.
  - destruct (children def) as [nodes|]; [|by apply keeps_throw].
    eapply keeps_bind; [|intros item _; apply IH].
    apply listItem_keeps. by apply P_item.
Qed.

Lemma generateFootnotes_keeps ctx :
  Forall (fun def => forallb P (default [] (children def)) = true)
    (footnotes ctx) ->
  match generateFootnotes opts V ctx with
  | Ok (_, ctx') => I ctx ctx'
  | Err e => E e
  end.
Proof.
  intros Hstore. unfold generateFootnotes, bind at 1, get.
  destruct (footnotes ctx) as [|def defs]; [by simpl|].
  pose proof (footnote_items_keeps _ Hstore [] ctx) as Hitems.
  unfold bind. destruct (footnote_items opts V (def :: defs) [] ctx)
    as [[items ctx1]|e]; [|done].
  simpl. by destruct Hitems.
Qed.
End invariants.

Section dispatcher_keeps.
Context `{Collaborators}.
Variable opts : Options.
Variable P : Node -> bool.
Variable I : Context -> Context -> Prop.
Variable E : Error -> Prop.

Hypothesis P_children :
  forall node nodes,
    P node = true -> children node = Some nodes -> forallb P nodes = true.
Hypothesis I_refl : forall ctx, I ctx ctx.
Hypothesis I_trans :
  forall ctx ctx' ctx'', I ctx ctx' -> I ctx' ctx'' -> I ctx ctx''.
Hypothesis E_type : E TypeError.
Hypothesis E_fuel : E OutOfFuel.
Hypothesis E_helper : forall kind, E (HelperKind kind).
Hypothesis E_unsupported :
  forall kind, visitors opts !! kind = None -> E (UnsupportedNode kind).

(** The two compilers that write to the context. *)
Hypothesis footnote_kept :
  forall node parent,
    P node = true -> type node = "footnote" ->
    keeps I E (fun _ => True) (footnote opts node parent).
Hypothesis root_kept :
  forall V,
    kept P I E V ->
    forall node parent,
      P node = true -> type node = "root" ->
      keeps I E (fun _ => True) (root opts V node parent).

Lemma visitors_keep :
  Forall (fun entry : string * Compiler =>
            forall V,
              kept P I E V ->
              forall node parent,
                P node = true -> type node = entry.1 ->
                keeps I E (fun _ => True) (entry.2 V node parent))
    (visitor_entries opts).
Proof.
  unfold visitor_entries.
  repeat (constructor;
          [intros V HV node parent Hnode Hkind; simpl;
           first [ by apply keeps_ret
                 | by apply keeps_throw
                 | by apply footnote_kept
                 | by apply root_kept
                 | eapply blockquote_keeps; eassumption
                 | eapply list_node_keeps; eassumption
                 | eapply listItem_keeps; eassumption
                 | eapply paragraph_keeps; eassumption
                 | eapply heading_keeps; eassumption
                 | eapply table_keeps; eassumption
                 | eapply strong_keeps; eassumption
                 | eapply emphasis_keeps; eassumption
                 | eapply link_node_keeps; eassumption
                 | eapply linkReference_keeps; eassumption
                 | eapply imageReference_keeps; eassumption
                 | eapply strikethrough_keeps; eassumption
                 | eapply escape_keeps; eassumption ] |]).
  constructor.
Qed.

Lemma visit_keeps fuel : kept P I E (visit opts fuel).
Proof.
  induction fuel as [|fuel IH]; intros node parent Hnode.
  { by apply keeps_throw. }
  rewrite visit_S.
  destruct (visitors opts !! type node) as [compiler|] eqn:Hcompiler;
    [|by apply keeps_throw, E_unsupported].
  apply visitors_lookup in Hcompiler.
  pose proof visitors_keep as Hall. rewrite Forall_forall in Hall.
  by apply (Hall _ Hcompiler).
Qed.
End dispatcher_keeps.

(** ** Trees without inline footnotes *)

Lemma footnote_free_unfold node :
  footnote_free node =
  negb (String.eqb (type node) "footnote") &&
  negb (String.eqb (type node) "root") &&
  match children node with
  | Some nodes => forallb footnote_free nodes
  | None => true
  end.
Proof. by destruct node. Qed.

Lemma footnote_free_children node nodes :
  footnote_free node = true -> children node = Some nodes ->
  forallb footnote_free nodes = true.
Proof.
  rewrite footnote_free_unfold. intros Hnode Hnodes. rewrite Hnodes in Hnode.
  by apply andb_prop in Hnode as [_ Hall].
Qed.

Lemma footnote_free_kind node kind :
  footnote_free node = true -> type node = kind ->
  kind <> "footnote" /\ kind <> "root".
Proof.
  rewrite footnote_free_unfold. intros Hnode <-.
  apply andb_prop in Hnode as [Hkinds _].
  apply andb_prop in Hkinds as [Hnote Hroot].
  apply negb_true_iff in Hnote, Hroot.
  by apply String.eqb_neq in Hnote, Hroot.
Qed.

Lemma footnote_free_item def nodes :
  forallb footnote_free nodes = true ->
  footnote_free (footnote_item def nodes) = true.
Proof.
  intros Hnodes. unfold footnote_item. simpl.
  rewrite forallb_app, Hnodes. reflexivity.
Qed.

Lemma collect_footnote_free kind node :
  footnote_free node = true ->
  Forall (fun def => forallb footnote_free (default [] (children def)) = true)
    (collect kind node).
Proof.
  induction node as [node IH] using Node_children_ind. intros Hnode.
  rewrite collect_unfold. apply Forall_app. split.
  - destruct (String.eqb (type node) kind); constructor; [|constructor].
    destruct (children node) as [nodes|] eqn:Hnodes;
      [by eapply footnote_free_children | done].
  - destruct (children node) as [nodes|] eqn:Hnodes; [|constructor].
    specialize (IH nodes eq_refl).
    pose proof (footnote_free_children _ _ Hnode Hnodes) as Hall.
    clear Hnodes Hnode. induction nodes as [|first rest IHrest]; simpl;
      [constructor|].
    apply andb_prop in Hall as [Hfirst Hrest].
    apply Forall_cons in IH as [IHfirst IH].
    apply Forall_app. split; [by apply IHfirst | by apply IHrest].
Qed.

Section quiet.
Context `{Collaborators}.
Variable opts : Options.

Lemma visit_quiet fuel :
  kept footnote_free eq (fun _ => True) (visit opts fuel).
Proof.
  apply visit_keeps; try done.
  - apply footnote_free_children.
  - intros ctx ctx' ctx'' -> ->. reflexivity.
  - intros node parent Hnode Hkind.
    by destruct (footnote_free_kind _ _ Hnode Hkind) as [Hnote _].
  - intros V HV node parent Hnode Hkind.
    by destruct (footnote_free_kind _ _ Hnode Hkind) as [_ Hroot].
Qed.

(** The compilation of a node under which there is no inline footnote
    and no root leaves the context as it is: the definitions and the
    footnote store are only read. *)
Theorem visit_pure :
  forall fuel node parent ctx out ctx',
    footnote_free node = true ->
    visit opts fuel node parent ctx = Ok (out, ctx') ->
    ctx' = ctx.
Proof.
  intros fuel node parent ctx out ctx' Hnode Hrun.
  pose proof (visit_quiet fuel node parent Hnode ctx) as Hkeeps.
  rewrite Hrun in Hkeeps. by destruct Hkeeps as [-> _].
Qed.

(** After the compilation of a tree without inline footnote, whose root
    is its only root, the context holds the index of the definitions of
    the tree and, as footnote store, the footnote definitions of the tree
    in document order, and nothing else. *)
Theorem compile_without_footnotes :
  forall fuel tree nodes out ctx',
    children tree = Some nodes ->
    forallb footnote_free nodes = true ->
    compile opts fuel tree = Ok (out, ctx') ->
    ctx' = mkContext (index_definitions (collect "definition" tree))
             (collect "footnoteDefinition" tree).
Proof.
  intros fuel tree nodes out ctx' Hnodes Hall Hrun.
  unfold compile, root in Hrun.
  inv_bind Hrun as u ctx1 Hput.
  assert (ctx1 = mkContext (index_definitions (collect "definition" tree))
                   (collect "footnoteDefinition" tree)) as Hctx1
    by (by injection Hput).
  clear Hput.
  inv_bind Hrun as values ctx2 Hvalues.
  inv_bind Hrun as notes ctx3 Hnotes. injection Hrun as <- <-.
  unfold all in Hvalues. rewrite Hnodes in Hvalues.
  pose proof (all_from_keeps footnote_free eq (fun _ => True)
                (fun ctx => eq_refl) (@eq_trans _) (visit opts fuel)
                (visit_quiet fuel) tree nodes Hall None [] ctx1) as Hfirst.
  rewrite Hvalues in Hfirst. destruct Hfirst as [<- _].
  pose proof (generateFootnotes_keeps opts footnote_free eq (fun _ => True)
                footnote_free_children (fun ctx => eq_refl) (@eq_trans _) I
                (visit opts fuel) (visit_quiet fuel) footnote_free_item ctx1)
    as Hsecond.
  rewrite Hnotes in Hsecond. rewrite <- Hsecond; [done|].
  rewrite Hctx1. simpl.
  rewrite collect_unfold, Hnodes. apply Forall_app. split.
  - destruct (String.eqb (type tree) "footnoteDefinition"); constructor;
      [|constructor]. by rewrite Hnodes.
  - clear Hnodes Hvalues. induction nodes as [|first rest IH]; simpl;
      [constructor|].
    apply andb_prop in Hall as [Hfirst Hrest].
    apply Forall_app. split; [by apply collect_footnote_free | by apply IH].
Qed.
End quiet.

Lemma visit_pure_witness :
  @visit spec_collaborators plain 4 sample_table emptyObject
    (mkContext ∅ [definition_of "a" []]) =
  Ok (match @visit spec_collaborators plain 4 sample_table emptyObject
              (mkContext ∅ [definition_of "a" []])
      with Ok (out, _) => out | Err _ => "" end,
      mkContext ∅ [definition_of "a" []]).
Proof.
  destruct (@visit spec_collaborators plain 4 sample_table emptyObject
              (mkContext ∅ [definition_of "a" []]))
    as [[out ctx']|e] eqn:Hrun; [|vm_compute in Hrun; discriminate Hrun].
  by rewrite (@visit_pure spec_collaborators plain 4 sample_table emptyObject
                (mkContext ∅ [definition_of "a" []]) out ctx' eq_refl Hrun).
Defined.

Lemma compile_without_footnotes_witness :
  exists out,
    @compile spec_collaborators plain 4
      (parent_of "root"
         [parent_of "paragraph" [text_of "a"];
          definition_of "n" [parent_of "paragraph" [text_of "b"]]]) =
    Ok (out,
        mkContext ∅ [definition_of "n" [parent_of "paragraph" [text_of "b"]]]).
Proof.
  destruct (@compile spec_collaborators plain 4
              (parent_of "root"
                 [parent_of "paragraph" [text_of "a"];
                  definition_of "n" [parent_of "paragraph" [text_of "b"]]]))
    as [[out ctx']|e] eqn:Hrun; [|vm_compute in Hrun; discriminate Hrun].
  exists out.
  by rewrite (@compile_without_footnotes spec_collaborators plain 4
                (parent_of "root"
                   [parent_of "paragraph" [text_of "a"];
                    definition_of "n" [parent_of "paragraph" [text_of "b"]]])
                [parent_of "paragraph" [text_of "a"];
                 definition_of "n" [parent_of "paragraph" [text_of "b"]]]
                out ctx' eq_refl eq_refl Hrun).
Defined.

(** ** The Unsupported-Node error *)

Section unsupported.
Context `{Collaborators}.
Variable opts : Options.

Lemma forallb_true {A} (l : list A) : forallb (fun _ => true) l = true.
Proof. by induction l. Qed.

Lemma footnote_lets_through node parent :
  keeps (fun _ _ => True) (names_unregistered opts) (fun _ => True)
    (footnote opts node parent).
Proof.
  intros ctx. unfold footnote, bind at 1, get.
  by destruct (next_identifier _ _ _).
Qed.

Lemma root_lets_through V node parent :
  kept (fun _ => true) (fun _ _ => True) (names_unregistered opts) V ->
  keeps (fun _ _ => True) (names_unregistered opts) (fun _ => True)
    (root opts V node parent).
Proof.
  intros HV. unfold root.
  eapply (keeps_bind _ _ (fun _ _ _ _ _ => I) (fun _ => True)).
  { intros ctx. by simpl. }
  intros u _.
  eapply (keeps_bind _ _ (fun _ _ _ _ _ => I) (fun _ => True)).
  { eapply all_keeps; try done. intros. apply forallb_true. }
  intros values _.
  eapply (keeps_bind _ _ (fun _ _ _ _ _ => I) (fun _ => True)).
  - intros ctx.
    pose proof (generateFootnotes_keeps opts (fun _ => true)
                  (fun _ _ => True) (names_unregistered opts)
                  (fun _ _ _ _ => forallb_true _) (fun _ => I)
                  (fun _ _ _ _ _ => I) I V HV (fun _ _ _ => eq_refl) ctx)
      as Hnotes.
    destruct (generateFootnotes opts V ctx) as [[notes ctx']|e].
    + done.
    + apply Hnotes. apply Forall_forall. intros def _. apply forallb_true.
  - intros notes _. by apply keeps_ret.
Qed.

Lemma visit_lets_through fuel :
  kept (fun _ => true) (fun _ _ => True) (names_unregistered opts)
    (visit opts fuel).
Proof.
  apply visit_keeps; try done.
  - intros. apply forallb_true.
  - intros. apply footnote_lets_through.
  - intros. by apply root_lets_through.
Qed.

(** When a compilation fails with the Unsupported-Node error, the kind
    the error names has no compiler in the table: no compiler raises this
    error for a kind that has one, and none changes the error on its way
    up. *)
Theorem unsupported_names_unregistered :
  forall fuel tree kind,
    output (compile opts fuel tree) = Err (UnsupportedNode kind) ->
    visitors opts !! kind = None.
Proof.
  intros fuel tree kind Hrun. unfold compile in Hrun.
  pose proof (root_lets_through (visit opts fuel) tree emptyObject
                (visit_lets_through fuel) fresh) as Hkeeps.
  change (mkContext ∅ []) with fresh in Hrun.
  destruct (root opts (visit opts fuel) tree emptyObject fresh)
    as [[out ctx']|e]; [discriminate|].
  injection Hrun as ->. exact Hkeeps.
Qed.
End unsupported.

Lemma unsupported_names_unregistered_witness :
  @visitors spec_collaborators plain !! "tableRow" = None.
Proof.
  apply (@unsupported_names_unregistered spec_collaborators plain 6
           (parent_of "root"
              [parent_of "list"
                 [parent_of "listItem"
                    [parent_of "table" [parent_of "tableRow" []]]]])).
  reflexivity.
Defined.

(** ** The order in which a table is compiled *)

Section table_order.
Context `{Collaborators}.
Variable opts : Options.
Variable V : Visit.

(** The inner loop of [table] compiles the cells of a row from the last
    column of the alignment list to the first, so that what the cell of a
    column does to the context comes after what the cells to its right do,
    and yields the cells rendered in column order, without hole. *)
Theorem table_cells_order :
  forall name align cells ctx,
    table_cells opts V name align (Some cells) (length align) [] ctx =
    (contents <- cells_down V cells (length align);;
     ret (map Some (imap (cell_markup opts name align cells) contents))) ctx.
Proof.
  intros name align cells ctx.
  rewrite (table_cells_down opts V _ _ _ _ [] [] ctx (filled_from_nil _)).
  unfold bind. destruct (cells_down V cells (length align) ctx)
    as [[contents ctx1]|e]; [|reflexivity].
  by rewrite app_nil_r.
Qed.

(** [table] compiles the rows from the last to the first, and the cells
    of a row from the last column to the first, and renders them in
    document order: the first row in the header section, the others in the
    body section. *)
Theorem table_order :
  forall node parent first others ctx,
    children node = Some (first :: others) ->
    table opts V node parent ctx =
    (markups <- rows_down opts V node (first :: others)
                  (S (length others));;
     ret (table_markup opts node (default "" (head markups))
            (tail markups))) ctx.
Proof.
  intros node parent first others ctx Hrows. unfold table. rewrite Hrows.
  unfold bind at 1.
  rewrite (table_rows_down opts V _ _ _ [] [] ctx (filled_from_nil _)).
  unfold bind. change (length (first :: others)) with (S (length others)).
  destruct (rows_down opts V node (first :: others) (S (length others)) ctx)
    as [[markups ctx1]|e] eqn:Hdown; [|reflexivity].
  apply rows_down_length in Hdown.
  destruct markups as [|markup markups]; [discriminate|].
  simpl. by rewrite app_nil_r, drop_0, array_join_filled.
Qed.
End table_order.

Lemma table_order_witness :
  map identifier
    (footnotes
       (match @table spec_collaborators plain
                (@visit spec_collaborators plain 3)
                (set_align [None; None]
                   (parent_of "table"
                      [parent_of "tableRow"
                         [parent_of "tableCell"
                            [parent_of "footnote" [text_of "a"]];
                          parent_of "tableCell"
                            [parent_of "footnote" [text_of "b"]]]]))
                emptyObject fresh
        with Ok (_, ctx') => ctx' | Err _ => fresh end)) = ["1"; "2"] /\
  (forall record,
      footnotes
        (match @table spec_collaborators plain
                 (@visit spec_collaborators plain 3)
                 (set_align [None; None]
                    (parent_of "table"
                       [parent_of "tableRow"
                          [parent_of "tableCell"
                             [parent_of "footnote" [text_of "a"]];
                           parent_of "tableCell"
                             [parent_of "footnote" [text_of "b"]]]]))
                 emptyObject fresh
         with Ok (_, ctx') => ctx' | Err _ => fresh end) !! 0%nat =
      Some record ->
      children record = Some [text_of "b"]).
Proof.
  rewrite (@table_order spec_collaborators plain
             (@visit spec_collaborators plain 3)
             (set_align [None; None]
                (parent_of "table"
                   [parent_of "tableRow"
                      [parent_of "tableCell"
                         [parent_of "footnote" [text_of "a"]];
                       parent_of "tableCell"
                         [parent_of "footnote" [text_of "b"]]]]))
             emptyObject
             (parent_of "tableRow"
                [parent_of "tableCell" [parent_of "footnote" [text_of "a"]];
                 parent_of "tableCell" [parent_of "footnote" [text_of "b"]]])
             [] fresh eq_refl).
  split; [reflexivity|]. intros record Hrecord. vm_compute in Hrecord.
  by injection Hrecord as <-.
Defined.

(** ** What the compilation of a node does to the context *)

Section context_kept.
Context `{Collaborators}.
Variable opts : Options.

(** The compilation of a node under which there is no root leaves the
    definitions as they are and the records of the footnote store in
    their places: it only adds records at the end of the store. *)
Theorem visit_extends_store :
  forall fuel node parent ctx out ctx',
    rootless node = true ->
    visit opts fuel node parent ctx = Ok (out, ctx') ->
    definitions ctx' = definitions ctx /\
    exists added, footnotes ctx' = (footnotes ctx ++ added)%list.
Proof.
  intros fuel node parent ctx out ctx' Hnode Hrun.
  destruct (visit_steady opts fuel node parent ctx out ctx' Hnode Hrun)
    as [Hdefs Hext].
  split; [done|]. apply extends_added in Hext as (added & Hadded & _).
  by exists added.
Qed.

(** After the compilation of a tree whose root is its only root, the
    definition index is the one the pre-pass built from the definitions of
    the tree: no compiler changed it. *)
Theorem compile_definitions :
  forall fuel tree nodes out ctx',
    children tree = Some nodes ->
    forallb rootless nodes = true ->
    compile opts fuel tree = Ok (out, ctx') ->
    definitions ctx' = index_definitions (collect "definition" tree).
Proof.
  intros fuel tree nodes out ctx' Hnodes Hall Hrun.
  by destruct (compile_grows opts _ _ _ _ _ Hnodes Hall Hrun) as [Hdefs _].
Qed.

Lemma numerals_snoc count :
  numerals (S count) =
  (numerals count ++ [String_of (N.of_nat (S count))])%list.
Proof. unfold numerals. by rewrite seq_S, fmap_app. Qed.

Lemma elem_of_numerals count (number : N) :
  String_of number ∈ numerals count <->
  (0 < number <= N.of_nat count)%N.
Proof.
  unfold numerals. rewrite list_elem_of_fmap. split.
  - intros (i & Hi & Hin). apply (inj pretty) in Hi.
    apply elem_of_seq in Hin. lia.
  - intros Hnumber. exists (pred (N.to_nat number)). split.
    + f_equal. lia.
    + apply elem_of_seq. lia.
Qed.

Lemma extends_numbers explicit store :
  (forall number : N, String_of number ∉ map identifier explicit) ->
  extends explicit store ->
  exists count,
    map identifier store = (map identifier explicit ++ numerals count)%list.
Proof.
  intros Hfree. induction 1 as [|store record _ [count IH] Halloc _].
  - exists 0%nat. by rewrite app_nil_r.
  - exists (S count). rewrite map_app, IH, numerals_snoc, <- app_assoc.
    do 2 f_equal. simpl. f_equal.
    destruct Halloc as (number & Hpositive & -> & Hnew & Hsmaller).
    rewrite IH in Hnew, Hsmaller. f_equal.
    assert (~ (0 < number <= N.of_nat count)%N) as Habove.
    { intros Hin. apply Hnew, elem_of_app. right.
      by apply elem_of_numerals. }
    destruct (decide (N.of_nat (S count) < number)%N) as [Hlt|Hge]; [|lia].
    exfalso. specialize (Hsmaller (N.of_nat (S count))).
    apply elem_of_app in Hsmaller as [Hin|Hin]; [by eapply Hfree | | lia].
    apply elem_of_numerals in Hin. lia.
Qed.

(** The string of a number is not the letter [n]. *)
Lemma pretty_go_letter (x : N) (s : string) :
  s <> "n" -> pretty_N_go x s <> "n".
Proof.
  revert s. induction (N.lt_wf_0 x) as [x _ IH]. intros s Hs.
  assert (x = 0 \/ 0 < x)%N as [->|Hpositive] by lia.
  - by rewrite pretty_N_go_0.
  - rewrite pretty_N_go_step by done. apply IH.
    + by apply N.div_lt.
    + unfold pretty_N_char. by repeat case_match.
Qed.

Lemma String_of_letter (number : N) : String_of number <> "n".
Proof.
  unfold String_of, pretty, pretty_N. case_decide; [done|].
  by apply pretty_go_letter.
Qed.

Lemma length_numerals count : length (numerals count) = count.
Proof. unfold numerals. by rewrite length_fmap, length_seq. Qed.

(** When no footnote definition of the tree has the string of a number as
    its identifier, the inline footnotes get the identifiers 1, 2, 3, ...
    in the order in which they are visited: after the compilation the
    identifiers of the store are those of the footnote definitions
    followed by these numbers, one for each inline footnote visited. *)
Theorem compile_numbers_footnotes :
  forall fuel tree nodes out ctx',
    children tree = Some nodes ->
    forallb rootless nodes = true ->
    (forall number : N,
        String_of number ∉
        map identifier (collect "footnoteDefinition" tree)) ->
    compile opts fuel tree = Ok (out, ctx') ->
    map identifier (footnotes ctx') =
    (map identifier (collect "footnoteDefinition" tree) ++
     numerals (length (visited_by_compile tree)))%list.
Proof.
  intros fuel tree nodes out ctx' Hnodes Hall Hfree Hrun.
  destruct (compile_grows opts _ _ _ _ _ Hnodes Hall Hrun) as [_ Hext].
  destruct (compile_traces opts _ _ _ _ _ Hnodes Hall Hrun)
    as (_ & added & Hstore & Hadded).
  apply (extends_numbers _ _ Hfree) in Hext as [count Hcount].
  rewrite Hcount. do 2 f_equal.
  apply Forall2_length in Hadded. rewrite <- Hadded.
  apply (f_equal length) in Hcount. simpl in Hstore, Hcount.
  rewrite Hstore in Hcount.
  rewrite length_map, !length_app, length_map, length_numerals in Hcount.
  lia.
Qed.
End context_kept.

Lemma visit_extends_store_witness :
  exists added,
    footnotes
      (match @visit spec_collaborators plain 3
               (parent_of "paragraph" [parent_of "footnote" [text_of "a"]])
               emptyObject (mkContext ∅ [definition_of "1" []])
       with Ok (_, ctx') => ctx' | Err _ => fresh end) =
    ([definition_of "1" []] ++ added)%list.
Proof.
  destruct (@visit spec_collaborators plain 3
              (parent_of "paragraph" [parent_of "footnote" [text_of "a"]])
              emptyObject (mkContext ∅ [definition_of "1" []]))
    as [[out ctx']|e] eqn:Hrun; [|vm_compute in Hrun; discriminate Hrun].
  exact (proj2 (@visit_extends_store spec_collaborators plain 3
                  (parent_of "paragraph"
                     [parent_of "footnote" [text_of "a"]])
                  emptyObject (mkContext ∅ [definition_of "1" []]) out ctx'
                  eq_refl Hrun)).
Defined.

Lemma compile_definitions_witness :
  exists out ctx',
    @compile spec_collaborators plain 6 sample_document = Ok (out, ctx') /\
    definitions ctx' =
    @index_definitions spec_collaborators
      (collect "definition" sample_document).
Proof.
  destruct (@compile spec_collaborators plain 6 sample_document)
    as [[out ctx']|e] eqn:Hrun; [|vm_compute in Hrun; discriminate Hrun].
  exists out, ctx'. split; [reflexivity|].
  exact (@compile_definitions spec_collaborators plain 6 sample_document
           (default [] (children sample_document)) out ctx' eq_refl eq_refl
           Hrun).
Defined.

Lemma compile_numbers_footnotes_witness :
  exists out ctx',
    @compile spec_collaborators plain 6
      (parent_of "root"
         [parent_of "paragraph"
            [parent_of "footnote" [text_of "a"];
             parent_of "footnote" [text_of "b"]];
          definition_of "n" [parent_of "footnote" [text_of "c"]]]) =
    Ok (out, ctx') /\
    map identifier (footnotes ctx') = ["n"; "1"; "2"; "3"].
Proof.
  destruct (@compile spec_collaborators plain 6
              (parent_of "root"
                 [parent_of "paragraph"
                    [parent_of "footnote" [text_of "a"];
                     parent_of "footnote" [text_of "b"]];
                  definition_of "n" [parent_of "footnote" [text_of "c"]]]))
    as [[out ctx']|e] eqn:Hrun; [|vm_compute in Hrun; discriminate Hrun].
  exists out, ctx'. split; [reflexivity|].
  rewrite (@compile_numbers_footnotes spec_collaborators plain 6
             (parent_of "root"
                [parent_of "paragraph"
                   [parent_of "footnote" [text_of "a"];
                    parent_of "footnote" [text_of "b"]];
                 definition_of "n" [parent_of "footnote" [text_of "c"]]])
             [parent_of "paragraph"
                [parent_of "footnote" [text_of "a"];
                 parent_of "footnote" [text_of "b"]];
              definition_of "n" [parent_of "footnote" [text_of "c"]]]
             out ctx' eq_refl eq_refl); [reflexivity | | exact Hrun].
  intros number Hin. apply list_elem_of_singleton in Hin.
  by apply String_of_letter in Hin.
Defined.
